(** * The macro substitution engine of [public/scripts/macros.js]

    A shallow embedding of [MacrosParser] (the macro registry) and of
    [evaluateMacros] with its replacers, followed by the properties of the
    specification that were checked against it.

    JavaScript strings are sequences of UTF-16 code units; regular
    expressions are embedded as syntax trees run by a backtracking matcher
    that follows the ECMAScript matching rules for the constructs the file
    uses; the ambient state of the page (registry, chat, chat metadata,
    pending input, ...) is an explicit record threaded through the calls. *)

From Stdlib Require Import Ascii String DecimalString.
From Stdlib Require Import List NArith ZArith Bool Arith Lia.
Import ListNotations.
Local Open Scope list_scope.

(* ================================================================== *)
(** ** Strings *)

Definition code_unit := N.
Definition JsString := list code_unit.

(** An ASCII literal as a JavaScript string. *)
Definition js (s : string) : JsString :=
  map N_of_ascii (list_ascii_of_string s).

Arguments js s%_string.

Definition str_eqb (a b : JsString) : bool :=
  if list_eq_dec N.eq_dec a b then true else false.

(** [s.startsWith(p)] *)
Fixpoint startsWith (s p : JsString) : bool :=
  match p, s with
  | [], _ => true
  | _ :: _, [] => false
  | y :: p', x :: s' => N.eqb x y && startsWith s' p'
  end.

(** [s.endsWith(p)] *)
Definition endsWith (s p : JsString) : bool :=
  startsWith (rev s) (rev p).

(** [s.includes(p)] *)
Fixpoint includes (s p : JsString) : bool :=
  startsWith s p ||
  match s with
  | [] => false
  | _ :: s' => includes s' p
  end.

(** WhiteSpace and LineTerminator code units, as [String.prototype.trim]
    and the [\s] escape see them. *)
Definition is_whitespace (c : code_unit) : bool :=
  ((9 <=? c) && (c <=? 13) || (c =? 32) || (c =? 160) || (c =? 5760)
   || (8192 <=? c) && (c <=? 8202) || (c =? 8232) || (c =? 8233)
   || (c =? 8239) || (c =? 8287) || (c =? 12288) || (c =? 65279))%N.

Definition is_line_terminator (c : code_unit) : bool :=
  ((c =? 10) || (c =? 13) || (c =? 8232) || (c =? 8233))%N.

Definition is_digit (c : code_unit) : bool :=
  ((48 <=? c) && (c <=? 57))%N.

Fixpoint trimStart (s : JsString) : JsString :=
  match s with
  | c :: s' => if is_whitespace c then trimStart s' else s
  | [] => []
  end.

(** [s.trim()] *)
Definition trim (s : JsString) : JsString :=
  rev (trimStart (rev (trimStart s))).

(** [s.split(sep)] for a non-empty separator: the pieces between the
    occurrences of [sep], found left to right without overlap.  [acc] is
    the piece being read (reversed), [skip] the number of code units of a
    separator still to pass. *)
Fixpoint split_go (sep s acc : JsString) (skip : nat) : list JsString :=
  match s with
  | [] => [rev acc]
  | c :: s' =>
      match skip with
      | S n => split_go sep s' acc n
      | O =>
          if startsWith s sep
          then rev acc :: split_go sep s' [] (length sep - 1)
          else split_go sep s' (c :: acc) O
      end
  end.

Definition js_split (s sep : JsString) : list JsString :=
  split_go sep s [] O.

(** Decimal notation of an integer, as [String(n)] prints a number that
    is an integer (the range in which JavaScript switches to exponent
    notation is not modelled). *)
Definition Z_to_js (z : Z) : JsString :=
  js (NilEmpty.string_of_int (Z.to_int z)).

(* ================================================================== *)
(** ** Values *)

(** A number is either [NaN] or an integer; the engine computes with no
    other numbers. *)
Inductive JsNum :=
| NaN
| Int (z : Z).

(** The values that reach the engine.  A function carries its source
    text, which is what [String(f)] yields, and its behaviour on the one
    optional argument a macro function receives (the nonce).  A date
    carries its ISO form and its [toString()] form, any other object its
    JSON text and its [toString()] form. *)
Inductive JsVal :=
| VUndefined
| VNull
| VBool (b : bool)
| VNumber (n : JsNum)
| VString (s : JsString)
| VFunction (src : JsString) (call : option JsString -> JsVal)
| VPromise
| VDate (iso str : JsString)
| VObject (json str : JsString).

(** [String(v)], also the conversion applied to what a replace callback
    returns. *)
Definition js_String (v : JsVal) : JsString :=
  match v with
  | VUndefined => js "undefined"
  | VNull => js "null"
  | VBool true => js "true"
  | VBool false => js "false"
  | VNumber NaN => js "NaN"
  | VNumber (Int z) => Z_to_js z
  | VString s => s
  | VFunction src _ => src
  | VPromise => js "[object Promise]"
  | VDate _ str => str
  | VObject _ str => str
  end.

(** Truthiness, for [!v] and [v && ...]. *)
Definition js_truthy (v : JsVal) : bool :=
  match v with
  | VUndefined | VNull => false
  | VBool b => b
  | VNumber NaN => false
  | VNumber (Int z) => negb (Z.eqb z 0)
  | VString s => match s with [] => false | _ => true end
  | _ => true
  end.

(** [a ?? b] *)
Definition nullish (a b : JsVal) : JsVal :=
  match a with
  | VUndefined | VNull => b
  | _ => a
  end.

(** The escaping function handed to [evaluateMacros]: its source text and
    its behaviour.  It is applied to whatever value the call site passes
    and its result is converted with [js_String] where a string is
    needed. *)
Record EscapeFn := {
  esc_src : JsString;
  esc_call : JsVal -> JsVal
}.

(** The default [(x => x)]. *)
Definition identity_escape : EscapeFn :=
  {| esc_src := js "x => x"; esc_call := fun x => x |}.

(** An escaping function passed where a plain value is expected. *)
Definition escape_as_value (e : EscapeFn) : JsVal :=
  VFunction (esc_src e) (fun a =>
    esc_call e (match a with Some s => VString s | None => VUndefined end)).

(* ================================================================== *)
(** ** Regular expressions *)

Inductive regex :=
| REmpty
| RChar (c : code_unit)
| RClass (p : code_unit -> bool)
| RSeq (r1 r2 : regex)
| RRep (greedy : bool) (bound : option nat) (r : regex)
| RGroup (i : nat) (r : regex).

Arguments RChar c%_N.

(** [r?], [r*], [r*?], [r+], [r+?] and literal text. *)
Definition ROpt (r : regex) : regex := RRep true (Some 1) r.
Definition RStar (r : regex) : regex := RRep true None r.
Definition RStarLazy (r : regex) : regex := RRep false None r.
Definition RPlus (r : regex) : regex := RSeq r (RStar r).
Definition RPlusLazy (r : regex) : regex := RSeq r (RStarLazy r).

Fixpoint RLit (s : JsString) : regex :=
  match s with
  | [] => REmpty
  | c :: s' => RSeq (RChar c) (RLit s')
  end.

Fixpoint RSeqs (rs : list regex) : regex :=
  match rs with
  | [] => REmpty
  | r :: rs' => RSeq r (RSeqs rs')
  end.

Definition captures := list (nat * JsString).

Fixpoint capture (caps : captures) (i : nat) : JsVal :=
  match caps with
  | [] => VUndefined
  | (j, s) :: caps' => if Nat.eqb i j then VString s else capture caps' i
  end.

(** A capture that always takes part in the match, as a string. *)
Definition capture_str (caps : captures) (i : nat) : JsString :=
  js_String (capture caps i).

Section Matcher.

(** The upper-case mapping of a code unit outside ASCII when it is a
    single code unit, the code unit itself otherwise (the Unicode tables
    of the host). *)
Variable upper : code_unit -> code_unit.

(** The [i] flag. *)
Variable ignoreCase : bool.

(** Canonicalize of the non-Unicode mode: upper case, except that a
    code unit outside ASCII is never mapped into ASCII. *)
Definition canonicalize (c : code_unit) : code_unit :=
  if negb ignoreCase then c
  else if (c <? 128)%N then
    (if (97 <=? c)%N && (c <=? 122)%N then (c - 32)%N else c)
  else
    let cu := upper c in
    if (cu <? 128)%N then c else cu.

Definition Cont := JsString -> captures -> option (JsString * captures).

(** The backtracking matcher, in continuation-passing style: [rmatch r s
    caps k] matches [r] at the head of [s] and hands the rest of the
    input to [k]; [None] is failure, which makes the caller try its next
    alternative.  An iteration of a quantifier that consumes nothing is
    rejected, as in ECMAScript. *)
Fixpoint rmatch (r : regex) (s : JsString) (caps : captures) (k : Cont)
  {struct r} : option (JsString * captures) :=
  match r with
  | REmpty => k s caps
  | RChar c =>
      match s with
      | x :: s' =>
          if N.eqb (canonicalize c) (canonicalize x) then k s' caps else None
      | [] => None
      end
  | RClass p =>
      match s with
      | x :: s' => if p x then k s' caps else None
      | [] => None
      end
  | RSeq r1 r2 =>
      rmatch r1 s caps (fun s1 caps1 => rmatch r2 s1 caps1 k)
  | RRep greedy bound r1 =>
      (fix loop (fuel : nat) (s : JsString) (caps : captures) {struct fuel}
         : option (JsString * captures) :=
         match fuel with
         | O => k s caps
         | S fuel' =>
             if greedy then
               match rmatch r1 s caps (fun s1 caps1 =>
                       if length s1 <? length s
                       then loop fuel' s1 caps1 else None) with
               | Some x => Some x
               | None => k s caps
               end
             else
               match k s caps with
               | Some x => Some x
               | None =>
                   rmatch r1 s caps (fun s1 caps1 =>
                     if length s1 <? length s
                     then loop fuel' s1 caps1 else None)
               end
         end)
        (match bound with Some n => n | None => length s end) s caps
  | RGroup i r1 =>
      rmatch r1 s caps (fun s1 caps1 =>
        k s1 ((i, firstn (length s - length s1) s) :: caps1))
  end.

(** One attempt at the head of [s]: the rest of the input after the
    match and the captures. *)
Definition rexec (r : regex) (s : JsString) : option (JsString * captures) :=
  rmatch r s [] (fun s1 caps => Some (s1, caps)).

End Matcher.

(** What a replace callback is told about a match. *)
Record MatchInfo := {
  m_text : JsString;
  m_caps : captures;
  m_offset : nat;
  m_input : JsString
}.

Section Replace.

Variable upper : code_unit -> code_unit.
Variable ignoreCase : bool.
Variable re : regex.

Context {St : Type}.

(** The callback, which may read and change the state. *)
Variable f : MatchInfo -> St -> JsString * St.

(** [input.replace(re, f)] for a global [re]: the matches are found left
    to right, each search starting where the previous match ended (one
    code unit further after an empty match).  [s] is the input from
    offset [pos] on and [skip] the number of code units of [s] that
    belong to the previous match. *)
Fixpoint replace_go (input s : JsString) (pos skip : nat) (st : St)
  : JsString * St :=
  match s with
  | [] =>
      match skip with
      | S _ => ([], st)
      | O =>
          match rexec upper ignoreCase re [] with
          | Some (_, caps) =>
              f {| m_text := []; m_caps := caps;
                   m_offset := pos; m_input := input |} st
          | None => ([], st)
          end
      end
  | c :: s' =>
      match skip with
      | S n => replace_go input s' (S pos) n st
      | O =>
          match rexec upper ignoreCase re s with
          | Some (rest, caps) =>
              let len := length s - length rest in
              let '(out, st1) :=
                f {| m_text := firstn len s; m_caps := caps;
                     m_offset := pos; m_input := input |} st in
              match len with
              | O =>
                  let '(tl, st2) := replace_go input s' (S pos) O st1 in
                  (out ++ c :: tl, st2)
              | S n =>
                  let '(tl, st2) := replace_go input s' (S pos) n st1 in
                  (out ++ tl, st2)
              end
          | None =>
              let '(tl, st1) := replace_go input s' (S pos) O st in
              (c :: tl, st1)
          end
      end
  end.

Definition replace_st (input : JsString) (st : St) : JsString * St :=
  replace_go input input O O st.

End Replace.

(** [input.replace(re, f)] with a callback that has no effect. *)
Definition replace_fn (upper : code_unit -> code_unit) (ignoreCase : bool)
  (re : regex) (f : MatchInfo -> JsString) (input : JsString) : JsString :=
  fst (replace_st upper ignoreCase re (fun m (_ : unit) => (f m, tt)) input tt).

(** GetSubstitution for a pattern without capture groups: [$$], [$&],
    [$`] and [$'] are expanded; [$1]..[$99] and [$<] stay as they are since
    there is no group to refer to. *)
Fixpoint get_substitution (matched before after repl : JsString) : JsString :=
  match repl with
  | [] => []
  | c :: r =>
      match r with
      | d :: r' =>
          if (c =? 36)%N then
            if (d =? 36)%N then 36%N :: get_substitution matched before after r'
            else if (d =? 38)%N then matched ++ get_substitution matched before after r'
            else if (d =? 96)%N then before ++ get_substitution matched before after r'
            else if (d =? 39)%N then after ++ get_substitution matched before after r'
            else c :: get_substitution matched before after r
          else c :: get_substitution matched before after r
      | [] => [c]
      end
  end.

(** [input.replace(re, repl)] with replacement text, for a pattern without
    capture groups. *)
Definition replace_str (upper : code_unit -> code_unit) (ignoreCase : bool)
  (re : regex) (repl : JsString) (input : JsString) : JsString :=
  replace_fn upper ignoreCase re (fun m =>
    get_substitution (m_text m)
      (firstn (m_offset m) (m_input m))
      (skipn (m_offset m + length (m_text m)) (m_input m))
      repl) input.

(** [input.replace(re, v)] where the second argument is a value that is
    computed before the call, for a pattern without capture groups.  A
    function is a replacer: it is called for each match with the matched
    text as its first argument (a function of the model looks at no other
    argument), and what it returns is converted with [String] and inserted
    as it is.  Any other value is converted with
    [String] and is the replacement text. *)
Definition replace_val (upper : code_unit -> code_unit) (ignoreCase : bool)
  (re : regex) (v : JsVal) (input : JsString) : JsString :=
  match v with
  | VFunction _ call =>
      replace_fn upper ignoreCase re
        (fun m => js_String (call (Some (m_text m)))) input
  | _ => replace_str upper ignoreCase re (js_String v) input
  end.

(** [input.matchAll(re)]: the matches [replace] would find, in order. *)
Definition match_all (upper : code_unit -> code_unit) (ignoreCase : bool)
  (re : regex) (input : JsString) : list MatchInfo :=
  snd (replace_st upper ignoreCase re
         (fun m (acc : list MatchInfo) => ([], acc ++ [m])) input []).

(* ================================================================== *)
(** ** The state of the page *)

(** The [swipe_id] field of a message: missing, [null] or a number. *)
Inductive SwipeId :=
| SwipeUndefined
| SwipeNull
| SwipeNumber (n : Z).

(** A message of the chat, with the fields the engine reads.  [is_user]
    and [is_system] stand for the truthiness of the fields; [swipes] is
    [None] when the message has no such array. *)
Record Message := {
  is_user : bool;
  is_system : bool;
  mes : JsVal;
  swipes : option (list JsString);
  swipe_id : SwipeId;
  send_date : JsVal
}.

(** A JavaScript [Map] from strings, or the own enumerable properties of
    an object, in insertion order.  (An assignment to the key [__proto__]
    of an object that has no such own property does not create one; the
    model has no special case for that key.) *)
Definition Entries := list (JsString * JsVal).

Fixpoint entries_has (m : Entries) (key : JsString) : bool :=
  match m with
  | [] => false
  | (k, _) :: m' => str_eqb k key || entries_has m' key
  end.

(** [obj[key]], [undefined] when there is no such property. *)
Fixpoint entries_get (m : Entries) (key : JsString) : JsVal :=
  match m with
  | [] => VUndefined
  | (k, v) :: m' => if str_eqb k key then v else entries_get m' key
  end.

(** [map.set(key, value)] and [obj[key] = value]: an existing key keeps
    its place, a new one goes last. *)
Fixpoint entries_set (m : Entries) (key : JsString) (value : JsVal) : Entries :=
  match m with
  | [] => [(key, value)]
  | (k, v) :: m' =>
      if str_eqb k key then (k, value) :: m'
      else (k, v) :: entries_set m' key value
  end.

(** [map.delete(key)] *)
Fixpoint entries_delete (m : Entries) (key : JsString) : Entries :=
  match m with
  | [] => []
  | (k, v) :: m' =>
      if str_eqb k key then m' else (k, v) :: entries_delete m' key
  end.

Definition EnvObject := Entries.

Record World := {
  macros : Entries;                         (* MacrosParser.#macros *)
  chat : list Message;
  chat_id_hash : JsVal;                     (* chat_metadata['chat_id_hash'] *)
  main_chat : JsVal;                        (* chat_metadata['main_chat'] *)
  currentChatId : JsVal;                    (* getCurrentChatId() *)
  main_api : JsString;
  textgenerationwebui_banned_in_macros : list JsString;
  send_textarea : JsVal;                    (* $('#send_textarea').val() *)
  maxContextSize : JsVal;                   (* getMaxContextSize() *)
  lastInContext_mesid : JsNum;              (* Number(...getAttribute('mesid')) *)
  ticks : nat                               (* draws of randomness made so far *)
}.

Definition set_macros (m : Entries) (w : World) : World :=
  {| macros := m; chat := chat w; chat_id_hash := chat_id_hash w;
     main_chat := main_chat w; currentChatId := currentChatId w;
     main_api := main_api w;
     textgenerationwebui_banned_in_macros := textgenerationwebui_banned_in_macros w;
     send_textarea := send_textarea w; maxContextSize := maxContextSize w;
     lastInContext_mesid := lastInContext_mesid w; ticks := ticks w |}.

Definition set_chat_id_hash (h : JsVal) (w : World) : World :=
  {| macros := macros w; chat := chat w; chat_id_hash := h;
     main_chat := main_chat w; currentChatId := currentChatId w;
     main_api := main_api w;
     textgenerationwebui_banned_in_macros := textgenerationwebui_banned_in_macros w;
     send_textarea := send_textarea w; maxContextSize := maxContextSize w;
     lastInContext_mesid := lastInContext_mesid w; ticks := ticks w |}.

Definition push_banned (word : JsString) (w : World) : World :=
  {| macros := macros w; chat := chat w; chat_id_hash := chat_id_hash w;
     main_chat := main_chat w; currentChatId := currentChatId w;
     main_api := main_api w;
     textgenerationwebui_banned_in_macros :=
       textgenerationwebui_banned_in_macros w ++ [word];
     send_textarea := send_textarea w; maxContextSize := maxContextSize w;
     lastInContext_mesid := lastInContext_mesid w; ticks := ticks w |}.

Definition tick (w : World) : World :=
  {| macros := macros w; chat := chat w; chat_id_hash := chat_id_hash w;
     main_chat := main_chat w; currentChatId := currentChatId w;
     main_api := main_api w;
     textgenerationwebui_banned_in_macros := textgenerationwebui_banned_in_macros w;
     send_textarea := send_textarea w; maxContextSize := maxContextSize w;
     lastInContext_mesid := lastInContext_mesid w; ticks := S (ticks w) |}.

(** A float of the interval [0, 1), as a fraction. *)
Record UnitFloat := {
  uf_num : Z;
  uf_den : Z;
  uf_range : (0 <= uf_num < uf_den)%Z
}.

(** [Math.floor(u * n)], computed exactly (the rounding of the product is
    not modelled). *)
Definition floor_mul (u : UnitFloat) (n : nat) : nat :=
  Z.to_nat (uf_num u * Z.of_nat n / uf_den u).

(** What the engine imports and does not define: the libraries (droll,
    seedrandom, moment), the helpers of [utils.js], the passes of
    [instruct-mode.js] and [variables.js], and the Unicode tables. *)
Record Collaborators := {
  unicode_upper : code_unit -> code_unit;
  (** [getStringHash(v)] *)
  getStringHash : JsVal -> Z;
  (** first number drawn from [seedrandom(seed)] *)
  seedrandom : Z -> UnitFloat;
  (** first number drawn from [seedrandom('added entropy.', { entropy: true })]
      when [n] draws have been made before *)
  seedrandom_entropy : nat -> UnitFloat;
  uuidv4 : nat -> JsString;
  (** [droll.validate(formula)] *)
  droll_validate : JsString -> bool;
  (** [droll.roll(formula).total] when [n] draws have been made before *)
  droll_roll_total : JsString -> nat -> Z;
  (** the passes of the other modules, which return the rewritten text
      and may read the state of the page *)
  replaceInstructMacros : JsString -> EnvObject -> EscapeFn -> World -> JsString;
  replaceVariableMacros : JsString -> EscapeFn -> World -> JsString;
  (** [moment().format(fmt)] *)
  moment_format : JsString -> JsString;
  (** [moment().utc().utcOffset(n).format('LT')] *)
  moment_utcOffset_LT : JsNum -> JsString;
  (** [moment.duration(moment(a).diff(moment(b))).humanize(true)] *)
  moment_diff_humanize : JsString -> JsString -> JsString;
  (** [moment.duration(moment().diff(timestampToMoment(d))).humanize()] *)
  moment_since_humanize : JsVal -> JsString
}.

(* ================================================================== *)
(** ** MacrosParser *)

(** The outcome of a registry operation: the new state, or the message of
    the [Error] thrown. *)
Inductive Outcome :=
| Ok (w : World)
| Throw (message : JsString).

(** [MacrosParser.sanitizeMacroValue].  For a date and for another
    object the result is what [toISOString] and [JSON.stringify] return;
    that these two calls throw for some dates and objects is not
    modelled. *)
Definition sanitizeMacroValue (value : JsVal) : JsString :=
  match value with
  | VString s => s
  | VNull | VUndefined => []
  | VPromise => []
  | VFunction _ _ => []
  | VDate iso _ => iso
  | VObject json _ => json
  | VBool _ | VNumber _ => js_String value
  end.

(** [MacrosParser.registerMacro] *)
Definition registerMacro (key value : JsVal) (w : World) : Outcome :=
  match key with
  | VString key =>
      let key := trim key in
      match key with
      | [] => Throw (js "Macro key must not be empty or whitespace only")
      | _ =>
          if startsWith key (js "{{") || endsWith key (js "}}")
          then Throw (js "Macro key must not include the surrounding braces")
          else
            let value :=
              match value with
              | VString _ | VFunction _ _ => value
              | _ => VString (sanitizeMacroValue value)
              end in
            Ok (set_macros (entries_set (macros w) key value) w)
      end
  | _ => Throw (js "Macro key must be a string")
  end.

(** [MacrosParser.unregisterMacro] *)
Definition unregisterMacro (key : JsVal) (w : World) : Outcome :=
  match key with
  | VString key =>
      let key := trim key in
      match key with
      | [] => Throw (js "Macro key must not be empty or whitespace only")
      | _ => Ok (set_macros (entries_delete (macros w) key) w)
      end
  | _ => Throw (js "Macro key must be a string")
  end.

(** [MacrosParser.populateEnv], for an [env] that is an object. *)
Definition populateEnv (env : EnvObject) (w : World) : EnvObject :=
  match macros w with
  | [] => env
  | _ => fold_left (fun env kv => entries_set env (fst kv) (snd kv)) (macros w) env
  end.

(* ================================================================== *)
(** ** Helpers of the replacers *)

(** The value of a string of decimal digits. *)
Definition digits_value (s : JsString) : N :=
  fold_left (fun acc c => (10 * acc + (c - 48))%N) s 0%N.

(** Whether a property key is an array index: the canonical decimal form
    of an integer below [2^32 - 1]. *)
Definition array_index (key : JsString) : option N :=
  match key with
  | [] => None
  | c :: rest =>
      if forallb is_digit key
         && (negb (c =? 48)%N || match rest with [] => true | _ => false end)
         && (digits_value key <? 4294967295)%N
      then Some (digits_value key)
      else None
  end.

Fixpoint insert_index (k : N * JsString) (l : list (N * JsString))
  : list (N * JsString) :=
  match l with
  | [] => [k]
  | x :: l' => if (fst k <=? fst x)%N then k :: l else x :: insert_index k l'
  end.

(** The own keys of an object in the order [for (... in ...)] visits them:
    array indices in ascending order, then the other keys in the order of
    their creation. *)
Definition for_in_keys (env : EnvObject) : list JsString :=
  map snd
    (fold_right insert_index []
       (flat_map (fun kv => match array_index (fst kv) with
                            | Some n => [(n, fst kv)]
                            | None => []
                            end) env))
  ++ flat_map (fun kv => match array_index (fst kv) with
                         | Some _ => []
                         | None => [fst kv]
                         end) env.

(** [list[i]] *)
Definition list_at (l : list JsString) (i : nat) : JsVal :=
  match nth_error l i with
  | Some s => VString s
  | None => VUndefined
  end.

(** [Array.from(str)]: the code points of a string, a surrogate pair
    being one element. *)
Fixpoint code_points (s : JsString) : list JsString :=
  match s with
  | [] => []
  | c :: s' =>
      match s' with
      | d :: s'' =>
          if ((55296 <=? c) && (c <=? 56319) && (56320 <=? d) && (d <=? 57343))%N
          then match code_points s' with
               | _ :: tl => [c; d] :: tl
               | [] => [[c; d]]
               end
          else [c] :: code_points s'
      | [] => [[c]]
      end
  end.

(** [parseInt(s, 10)], as the integer that the digits denote; the
    rounding to the nearest double, which sets in beyond [2^53], is not
    modelled. *)
Definition parseInt10 (s : JsString) : JsNum :=
  let s := trimStart s in
  let '(neg, s) :=
    match s with
    | c :: s' =>
        if (c =? 45)%N then (true, s')
        else if (c =? 43)%N then (false, s') else (false, s)
    | [] => (false, s)
    end in
  let fix digits (s : JsString) : JsString :=
    match s with
    | c :: s' => if is_digit c then c :: digits s' else []
    | [] => []
    end in
  match digits s with
  | [] => NaN
  | ds => Int (if neg then - Z.of_N (digits_value ds) else Z.of_N (digits_value ds))
  end.

(** Modelled from the spec: [isDigitsOnly] of [utils.js], which is not
    part of the sources at hand; the argument is purely digits. *)
Definition isDigitsOnly (s : JsString) : bool :=
  match s with
  | [] => false
  | _ => forallb is_digit s
  end.

Definition not_rbrace (c : code_unit) : bool := negb (c =? 125)%N.
Definition any_char (c : code_unit) : bool := true.
Definition dot (c : code_unit) : bool := negb (is_line_terminator c).

(** The text standing for an escaped comma while a list is split. *)
Definition COMMA_PLACEHOLDER : JsString :=
  js "##" ++ [65533%N] ++ js "COMMA" ++ [65533%N] ++ js "##".

(** [/{{random\s?::?([^}]+)}}/gi] *)
Definition randomPattern : regex :=
  RSeqs [RLit (js "{{random"); ROpt (RClass is_whitespace); RChar 58;
         ROpt (RChar 58); RGroup 1 (RPlus (RClass not_rbrace)); RLit (js "}}")].

(** [/{{pick\s?::?([^}]+)}}/gi] *)
Definition pickPattern : regex :=
  RSeqs [RLit (js "{{pick"); ROpt (RClass is_whitespace); RChar 58;
         ROpt (RChar 58); RGroup 1 (RPlus (RClass not_rbrace)); RLit (js "}}")].

(** [/{{roll[ : ]([^}]+)}}/gi] *)
Definition rollPattern : regex :=
  RSeqs [RLit (js "{{roll"); RClass (fun c => (c =? 32)%N || (c =? 58)%N);
         RGroup 1 (RPlus (RClass not_rbrace)); RLit (js "}}")].

(** [/{{timeDiff::(.*?)::(.*?)}}/gi] *)
Definition timeDiffPattern : regex :=
  RSeqs [RLit (js "{{timeDiff::"); RGroup 1 (RStarLazy (RClass dot));
         RLit (js "::"); RGroup 2 (RStarLazy (RClass dot)); RLit (js "}}")].

(** The pattern of [bannedWordsReplace]: the text [{{banned ], a double
    quote, a greedy group of any code units but line terminators, a double
    quote and [}}], with the flags [gi]. *)
Definition banPattern : regex :=
  RSeqs [RLit (js "{{banned "); RChar 34; RGroup 1 (RStar (RClass dot));
         RChar 34; RLit (js "}}")].

(** Modelled from the spec: [escapeRegex] of [utils.js], which is not part
    of the sources at hand, escapes the key so that it matches as literal
    text; the pattern of [new RegExp(`{{${escapeRegex(varName)}}}`, 'gi')]
    is then the literal text of the key between the braces.  (That holds
    for every key but one that, with the inner braces, has the shape of a
    quantifier: digits, possibly with a comma and more digits.) *)
Definition envPattern (varName : JsString) : regex :=
  RLit (js "{{" ++ varName ++ js "}}").

Section Engine.

Variable C : Collaborators.

Let up := unicode_upper C.

(** The list expression that [randomReplace] and [pickReplace] both
    contain: split on double colons when there is one, else on the
    commas that are not escaped, trimming the items. *)
Definition parse_list (listString : JsString) : list JsString :=
  if includes listString (js "::")
  then js_split listString (js "::")
  else
    map (fun item =>
           replace_str up false (RLit COMMA_PLACEHOLDER) (js ",") (trim item))
        (js_split
           (replace_str up false (RLit [92%N; 44%N]) COMMA_PLACEHOLDER listString)
           (js ",")).

(** [getChatIdHash] *)
Definition getChatIdHash (w : World) : JsVal * World :=
  let cachedIdHash := chat_id_hash w in
  if negb (js_truthy cachedIdHash) then
    let chatId := nullish (main_chat w) (currentChatId w) in
    let chatIdHash := VNumber (Int (getStringHash C chatId)) in
    (chatIdHash, set_chat_id_hash chatIdHash w)
  else (cachedIdHash, w).

(** The loop of [getLastMessageId], over the chat from its last message
    back; the index of the head of [rchat] is the length of its tail. *)
Fixpoint getLastMessageId_loop (exclude_swipe_in_propress : bool)
  (filter : option (Message -> bool)) (rchat : list Message) : option nat :=
  match rchat with
  | [] => None
  | message :: before =>
      if exclude_swipe_in_propress
         && match swipes message with
            | Some sw =>
                match swipe_id message with
                | SwipeUndefined => false
                | SwipeNull => (Z.of_nat (length sw) <=? 0)%Z
                | SwipeNumber n => (Z.of_nat (length sw) <=? n)%Z
                end
            | None => false
            end
      then getLastMessageId_loop exclude_swipe_in_propress filter before
      else
        if match filter with None => true | Some f => f message end
        then Some (length before)
        else getLastMessageId_loop exclude_swipe_in_propress filter before
  end.

(** [getLastMessageId]: the message id, or [None] for [null]. *)
Definition getLastMessageId (exclude_swipe_in_propress : bool)
  (filter : option (Message -> bool)) (w : World) : option nat :=
  getLastMessageId_loop exclude_swipe_in_propress filter (rev (chat w)).

(** [chat[mid]], [None] for [undefined]. *)
Definition chat_at (w : World) (mid : option nat) : option Message :=
  match mid with
  | Some i => nth_error (chat w) i
  | None => None
  end.

(** [getFirstIncludedMessageId] *)
Definition getFirstIncludedMessageId (w : World) : JsVal :=
  match lastInContext_mesid w with
  | Int index => if (0 <=? index)%Z then VNumber (Int index) else VNull
  | NaN => VNull
  end.

(** [chat[mid]?.mes ?? ''] *)
Definition mes_or_empty (w : World) (mid : option nat) : JsVal :=
  nullish (match chat_at w mid with Some m => mes m | None => VUndefined end)
          (VString []).

Definition getLastMessage (w : World) : JsVal :=
  mes_or_empty w (getLastMessageId true None w).

Definition getLastUserMessage (w : World) : JsVal :=
  mes_or_empty w
    (getLastMessageId true (Some (fun m => is_user m && negb (is_system m))) w).

Definition getLastCharMessage (w : World) : JsVal :=
  mes_or_empty w
    (getLastMessageId true (Some (fun m => negb (is_user m) && negb (is_system m))) w).

(** [getLastSwipeId] *)
Definition getLastSwipeId (w : World) : JsVal :=
  let mid := getLastMessageId false None w in
  match chat_at w mid with
  | Some m =>
      match swipes m with
      | Some sw => VNumber (Int (Z.of_nat (length sw)))
      | None => VUndefined
      end
  | None => VUndefined
  end.

(** [getCurrentSwipeId]: [swipeId !== null ? swipeId + 1 : null]. *)
Definition getCurrentSwipeId (w : World) : JsVal :=
  let mid := getLastMessageId false None w in
  let swipeId :=
    match chat_at w mid with
    | Some m => swipe_id m
    | None => SwipeUndefined
    end in
  match swipeId with
  | SwipeNull => VNull
  | SwipeUndefined => VNumber NaN
  | SwipeNumber n => VNumber (Int (n + 1))
  end.

(** [bannedWordsReplace] *)
Definition bannedWordsReplace (inText : JsString) (w : World) : JsString * World :=
  match inText with
  | [] => ([], w)
  | _ =>
      let w :=
        if str_eqb (main_api w) (js "textgenerationwebui") then
          fold_left (fun w banCase => push_banned (capture_str (m_caps banCase) 1) w)
                    (match_all up true banPattern inText) w
        else w in
      (replace_str up true banPattern [] inText, w)
  end.

(** The loop of [getTimeSinceLastMessage], from the last message back. *)
Fixpoint idle_loop (rchat : list Message) (takeNext : bool) : option Message :=
  match rchat with
  | [] => None
  | message :: before =>
      if is_system message then idle_loop before takeNext
      else if is_user message && takeNext then Some message
      else idle_loop before true
  end.

(** [getTimeSinceLastMessage] *)
Definition getTimeSinceLastMessage (w : World) : JsString :=
  match chat w with
  | [] => js "just now"
  | _ =>
      match idle_loop (rev (chat w)) false with
      | Some lastMessage =>
          if js_truthy (send_date lastMessage)
          then moment_since_humanize C (send_date lastMessage)
          else js "just now"
      | None => js "just now"
      end
  end.

(** The callback of [randomReplace], called for each match. *)
Definition random_callback (emptyListPlaceholder : JsVal) (varEscape : EscapeFn)
  (m : MatchInfo) (w : World) : JsString * World :=
  let listString := capture_str (m_caps m) 1 in
  let list := parse_list listString in
  if Nat.eqb (length list) 0 then (js_String emptyListPlaceholder, w)
  else
    let rng := seedrandom_entropy C (ticks w) in
    let randomIndex := floor_mul rng (length list) in
    (js_String (esc_call varEscape (list_at list randomIndex)), tick w).

(** [randomReplace] *)
Definition randomReplace (input : JsString) (emptyListPlaceholder : JsVal)
  (varEscape : EscapeFn) (w : World) : JsString * World :=
  replace_st up true randomPattern
    (random_callback emptyListPlaceholder varEscape) input w.

(** [`${chatIdHash}-${rawContentHash}-${offset}`] *)
Definition combinedSeedString (chatIdHash : JsVal) (rawContentHash : Z)
  (offset : nat) : JsString :=
  js_String chatIdHash ++ js "-" ++ Z_to_js rawContentHash ++ js "-"
    ++ Z_to_js (Z.of_nat offset).

(** The callback of [pickReplace], called for each match. *)
Definition pick_callback (chatIdHash : JsVal) (rawContentHash : Z)
  (emptyListPlaceholder : JsVal) (varEscape : EscapeFn) (m : MatchInfo)
  : JsString :=
  let listString := capture_str (m_caps m) 1 in
  let offset := m_offset m in
  let list := parse_list listString in
  if Nat.eqb (length list) 0 then js_String emptyListPlaceholder
  else
    let finalSeed :=
      getStringHash C (VString (combinedSeedString chatIdHash rawContentHash offset)) in
    let rng := seedrandom C finalSeed in
    let randomIndex := floor_mul rng (length list) in
    js_String (esc_call varEscape (list_at list randomIndex)).

(** [pickReplace] *)
Definition pickReplace (input rawContent : JsString) (emptyListPlaceholder : JsVal)
  (varEscape : EscapeFn) (w : World) : JsString * World :=
  let '(chatIdHash, w) := getChatIdHash w in
  let rawContentHash := getStringHash C (VString rawContent) in
  (replace_fn up true pickPattern
     (pick_callback chatIdHash rawContentHash emptyListPlaceholder varEscape)
     input, w).

(** The callback of [diceRollReplace], called for each match. *)
Definition roll_callback (invalidRollPlaceholder : JsVal) (varEscape : EscapeFn)
  (m : MatchInfo) (w : World) : JsString * World :=
  let matchValue := capture_str (m_caps m) 1 in
  let formula := trim matchValue in
  let formula := if isDigitsOnly formula then js "1d" ++ formula else formula in
  let isValid := droll_validate C formula in
  if negb isValid then (js_String invalidRollPlaceholder, w)
  else
    let total := droll_roll_total C formula (ticks w) in
    (js_String (esc_call varEscape (VString (js_String (VNumber (Int total))))),
     tick w).

(** [diceRollReplace] *)
Definition diceRollReplace (input : JsString) (invalidRollPlaceholder : JsVal)
  (varEscape : EscapeFn) (w : World) : JsString * World :=
  replace_st up true rollPattern
    (roll_callback invalidRollPlaceholder varEscape) input w.

(** [timeDiffReplace] *)
Definition timeDiffReplace (input : JsString) (varEscape : EscapeFn) : JsString :=
  replace_fn up true timeDiffPattern (fun m =>
    let matchPart1 := capture_str (m_caps m) 1 in
    let matchPart2 := capture_str (m_caps m) 2 in
    js_String (esc_call varEscape
                 (VString (moment_diff_humanize C matchPart1 matchPart2))))
    input.

(** [typeof env[key] === 'function' ? env[key]() : env[key]] *)
Definition env_value (env : EnvObject) (key : JsString) : JsVal :=
  match entries_get env key with
  | VFunction _ call => call None
  | v => v
  end.

(** The legacy non-macro substitutions of [evaluateMacros] (the five
    replacements of the angle-bracket tags).  What [varEscape] returns is
    handed to [replace] as it is. *)
Definition legacySubstitutions (content : JsString) (env : EnvObject)
  (varEscape : EscapeFn) : JsString :=
  let content := replace_val up true (RLit (js "<USER>"))
                   (esc_call varEscape (env_value env (js "user"))) content in
  let content := replace_val up true (RLit (js "<BOT>"))
                   (esc_call varEscape (env_value env (js "char"))) content in
  let content := replace_val up true (RLit (js "<CHAR>"))
                   (esc_call varEscape (env_value env (js "char"))) content in
  let content := replace_val up true (RLit (js "<CHARIFNOTGROUP>"))
                   (esc_call varEscape (env_value env (js "group"))) content in
  let content := replace_val up true (RLit (js "<GROUP>"))
                   (esc_call varEscape (env_value env (js "group"))) content in
  content.

(** The loop of [evaluateMacros] over the keys of [env]. *)
Definition substituteEnv (content : JsString) (env : EnvObject)
  (nonce : JsString) (varEscape : EscapeFn) : JsString :=
  fold_left (fun content varName =>
    replace_fn up true (envPattern varName) (fun _ =>
      let param := entries_get env varName in
      let value :=
        sanitizeMacroValue
          (match param with
           | VFunction _ call => call (Some nonce)
           | _ => param
           end) in
      js_String (esc_call varEscape (VString value))) content)
    (for_in_keys env) content.

(** The replacements of [evaluateMacros] for [{{newline}}], [{{trim}}],
    [{{noop}}] and [{{input}}].  For [{{newline}}] what [varEscape]
    returns is handed to [replace] as it is; for [{{input}}] it is the
    result of a replacer. *)
Definition simpleSubstitutions (content : JsString) (varEscape : EscapeFn)
  (w : World) : JsString :=
  let esc (v : JsVal) : JsString := js_String (esc_call varEscape v) in
  let content := replace_val up true (RLit (js "{{newline}}"))
                   (esc_call varEscape (VString [10%N])) content in
  let content :=
    replace_str up true
      (RSeqs [RStar (RSeq (ROpt (RChar 13)) (RChar 10)); RLit (js "{{trim}}");
              RStar (RSeq (ROpt (RChar 13)) (RChar 10))])
      [] content in
  let content := replace_str up true (RLit (js "{{noop}}")) [] content in
  let content := replace_fn up true (RLit (js "{{input}}"))
                   (fun _ => esc (VString (js_String (send_textarea w)))) content in
  content.

(** The replacements of [evaluateMacros] from [{{maxPrompt}}] to the
    call of [timeDiffReplace]: the read-only macros, the comments and
    the macros of time. *)
Definition builtinSubstitutions (content : JsString) (varEscape : EscapeFn)
  (w : World) : JsString :=
  let esc (v : JsVal) : JsString := js_String (esc_call varEscape v) in
  let content := replace_fn up true (RLit (js "{{maxPrompt}}"))
                   (fun _ => esc (VString (js_String (maxContextSize w)))) content in
  let content := replace_fn up true (RLit (js "{{lastMessage}}"))
                   (fun _ => esc (getLastMessage w)) content in
  let content := replace_fn up true (RLit (js "{{lastMessageId}}"))
                   (fun _ => esc (VString (js_String
                      (match getLastMessageId true None w with
                       | Some i => VNumber (Int (Z.of_nat i))
                       | None => VString []
                       end)))) content in
  let content := replace_fn up true (RLit (js "{{lastUserMessage}}"))
                   (fun _ => esc (getLastUserMessage w)) content in
  let content := replace_fn up true (RLit (js "{{lastCharMessage}}"))
                   (fun _ => esc (getLastCharMessage w)) content in
  let content := replace_fn up true (RLit (js "{{firstIncludedMessageId}}"))
                   (fun _ => esc (VString (js_String
                      (nullish (getFirstIncludedMessageId w) (VString []))))) content in
  let content := replace_fn up true (RLit (js "{{lastSwipeId}}"))
                   (fun _ => esc (VString (js_String
                      (nullish (getLastSwipeId w) (VString []))))) content in
  let content := replace_fn up true (RLit (js "{{currentSwipeId}}"))
                   (fun _ => esc (VString (js_String
                      (nullish (getCurrentSwipeId w) (VString []))))) content in
  let content :=
    replace_fn up true
      (RSeqs [RLit (js "{{reverse:"); RGroup 1 (RPlusLazy (RClass dot)); RLit (js "}}")])
      (fun m => esc (VString
         (concat (rev (code_points (capture_str (m_caps m) 1)))))) content in

  let content :=
    replace_str up false
      (RSeqs [RLit (js "{{//"); RGroup 1 (RStarLazy (RClass any_char)); RLit (js "}}")])
      [] content in

  let content := replace_fn up true (RLit (js "{{time}}"))
                   (fun _ => esc (VString (moment_format C (js "LT")))) content in
  let content := replace_fn up true (RLit (js "{{date}}"))
                   (fun _ => esc (VString (moment_format C (js "LL")))) content in
  let content := replace_fn up true (RLit (js "{{weekday}}"))
                   (fun _ => esc (VString (moment_format C (js "dddd")))) content in
  let content := replace_fn up true (RLit (js "{{isotime}}"))
                   (fun _ => esc (VString (moment_format C (js "HH:mm")))) content in
  let content := replace_fn up true (RLit (js "{{isodate}}"))
                   (fun _ => esc (VString (moment_format C (js "YYYY-MM-DD")))) content in

  let content :=
    replace_fn up true
      (RSeqs [RLit (js "{{datetimeformat"); RPlus (RChar 32);
              RGroup 1 (RStar (RClass not_rbrace)); RLit (js "}}")])
      (fun m => esc (VString (moment_format C (capture_str (m_caps m) 1)))) content in
  let content := replace_fn up true (RLit (js "{{idle_duration}}"))
                   (fun _ => getTimeSinceLastMessage w) content in
  let content :=
    replace_fn up true
      (RSeqs [RLit (js "{{time_UTC");
              RGroup 1 (RSeq (RClass (fun c => (c =? 45)%N || (c =? 43)%N))
                             (RPlus (RClass is_digit)));
              RLit (js "}}")])
      (fun m =>
         let utcOffset := parseInt10 (capture_str (m_caps m) 1) in
         esc (VString (moment_utcOffset_LT C utcOffset))) content in
  let content := timeDiffReplace content varEscape in
  content.

(** [evaluateMacros]: the text and the state of the page after the call.
    [populateEnv] works on the caller's [env]; the entries that it writes
    there are not returned.  The functions that the evaluation calls (the
    escaping function, the functions that [env] and the registry hold and
    the passes of the other modules) are values of the model, which
    compute a result and do nothing else. *)
Definition evaluateMacros (content : JsString) (env : EnvObject)
  (varEscape : EscapeFn) (w : World) : JsString * World :=
  match content with
  | [] => ([], w)
  | _ =>
      let rawContent := content in

      (* Legacy non-macro substitutions *)
      let content := legacySubstitutions content env varEscape in

      (* Short circuit if there are no macros *)
      if negb (includes content (js "{{")) then (content, w) else

      let '(content, w) :=
        diceRollReplace content (escape_as_value varEscape) identity_escape w in
      let content := replaceInstructMacros C content env varEscape w in
      let content := replaceVariableMacros C content varEscape w in
      let content := simpleSubstitutions content varEscape w in

      (* Add all registered macros to the env object *)
      let nonce := uuidv4 C (ticks w) in
      let w := tick w in
      let env := populateEnv env w in

      (* Substitute passed-in variables *)
      let content := substituteEnv content env nonce varEscape in

      let content := builtinSubstitutions content varEscape w in
      let '(content, w) := bannedWordsReplace content w in
      let '(content, w) :=
        randomReplace content (escape_as_value varEscape) identity_escape w in
      let '(content, w) :=
        pickReplace content rawContent (escape_as_value varEscape) identity_escape w in
      (content, w)
  end.

End Engine.

(* ================================================================== *)
(** ** A stand-in for the collaborators

    One concrete choice of what the engine imports, on which the
    definitions can be run: a dice roller for the notation [NdM+K], a
    polynomial string hash, generators that derive their first number from
    the seed or from the number of draws made, passes that return their
    input and a clock that answers with the format it is asked for. *)
Module Sample.

(** An optional count of dice, [d], a number of sides and an optional
    signed modifier; counts and sides start with a digit from 1 to 9. *)
Definition formulaPattern : regex :=
  let nonzero c := ((49 <=? c) && (c <=? 57))%N in
  RSeqs [ROpt (RGroup 1 (RSeq (RClass nonzero) (RStar (RClass is_digit))));
         RChar 100;
         RGroup 2 (RSeq (RClass nonzero) (RStar (RClass is_digit)));
         ROpt (RGroup 3 (RSeq (RClass (fun c => (c =? 45)%N || (c =? 43)%N))
                              (RPlus (RClass is_digit))))].

Definition parse (formula : JsString) : option captures :=
  match rmatch (fun c => c) true formulaPattern formula []
          (fun rest caps => match rest with [] => Some (rest, caps) | _ => None end) with
  | Some (_, caps) => Some caps
  | None => None
  end.

Definition number_of (v : JsVal) (default : Z) : Z :=
  match v with
  | VString s => match parseInt10 s with Int z => z | NaN => default end
  | _ => default
  end.

Definition validate (formula : JsString) : bool :=
  match parse formula with Some _ => true | None => false end.

(** The dice show [1 + (n + i) mod numSides] for [i = 0, 1, ...]. *)
Definition roll_total (formula : JsString) (n : nat) : Z :=
  match parse formula with
  | Some caps =>
      let numDice := number_of (capture caps 1) 1 in
      let numSides := number_of (capture caps 2) 1 in
      let modifier := number_of (capture caps 3) 0 in
      (fold_left (fun acc i => acc + 1 + (Z.of_nat n + Z.of_nat i) mod numSides)
                 (seq 0 (Z.to_nat numDice)) 0 + modifier)%Z
  | None => 0%Z
  end.

Definition hash (v : JsVal) : Z :=
  match v with
  | VString s =>
      Z.of_N (fold_left (fun h c => ((31 * h + c) mod 4294967296)%N) s 7%N)
  | _ => 0%Z
  end.

Definition collaborators : Collaborators := {|
  unicode_upper := fun c => c;
  getStringHash := hash;
  seedrandom := fun seed =>
    {| uf_num := (37 * seed) mod 100; uf_den := 100;
       uf_range := Z.mod_pos_bound (37 * seed) 100 eq_refl |};
  seedrandom_entropy := fun n =>
    {| uf_num := (37 * Z.of_nat n + 61) mod 100; uf_den := 100;
       uf_range := Z.mod_pos_bound (37 * Z.of_nat n + 61) 100 eq_refl |};
  uuidv4 := fun n => js "nonce-" ++ Z_to_js (Z.of_nat n);
  droll_validate := validate;
  droll_roll_total := roll_total;
  replaceInstructMacros := fun content _ _ _ => content;
  replaceVariableMacros := fun content _ _ => content;
  moment_format := fun fmt => fmt;
  moment_utcOffset_LT := fun offset => js "UTC" ++ js_String (VNumber offset);
  moment_diff_humanize := fun a b => a ++ js " - " ++ b;
  moment_since_humanize := fun d => js "since " ++ js_String d
|}.

(** A page with nothing registered and no chat. *)
Definition world : World := {|
  macros := [];
  chat := [];
  chat_id_hash := VUndefined;
  main_chat := VUndefined;
  currentChatId := VString (js "chat-1");
  main_api := js "openai";
  textgenerationwebui_banned_in_macros := [];
  send_textarea := VString [];
  maxContextSize := VNumber (Int 4096);
  lastInContext_mesid := NaN;
  ticks := 0
|}.

(** A registry with the macros [foo] and [a{{b]. *)
Definition two_macros : World :=
  set_macros [(js "foo", VString (js "B")); (js "a{{b", VString (js "v"))] world.

End Sample.

(* ================================================================== *)
(** ** Code units that a text lacks and a pattern needs *)

(** The code unit [b] does not occur in [s]. *)
Definition lacks (b : code_unit) (s : JsString) : bool :=
  forallb (fun c => negb (c =? b)%N) s.

(** An ASCII code unit that is not a letter. *)
Definition is_symbol (b : code_unit) : bool :=
  ((b <? 65) || (90 <? b) && (b <? 97) || (122 <? b) && (b <? 128))%N.

(** Every match of [r] contains [b]. *)
Fixpoint needs (b : code_unit) (r : regex) : bool :=
  match r with
  | RChar c => (c =? b)%N
  | RSeq r1 r2 => needs b r1 || needs b r2
  | RGroup _ r1 => needs b r1
  | _ => false
  end.

(** Every match of [r] begins with [b]. *)
Fixpoint begins (b : code_unit) (r : regex) : bool :=
  match r with
  | RChar c => (c =? b)%N
  | RSeq r1 _ => begins b r1
  | RGroup _ r1 => begins b r1
  | _ => false
  end.

(* ================================================================== *)
(** ** Assumptions on the collaborators *)

(** The passes of the other modules leave a text without opening brace as
    it is. *)
Definition passes_inert (C : Collaborators) : Prop :=
  forall content env varEscape w,
    lacks 123%N content = true ->
    replaceInstructMacros C content env varEscape w = content /\
    replaceVariableMacros C content varEscape w = content.

(** The passes of the other modules leave one given text as it is. *)
Definition passes_keep (C : Collaborators) (content : JsString) : Prop :=
  forall env varEscape w,
    replaceInstructMacros C content env varEscape w = content /\
    replaceVariableMacros C content varEscape w = content.

(** The dice library accepts [formula] and its totals lie between [lo]
    and [hi]. *)
Definition droll_rolls (C : Collaborators) (formula : JsString) (lo hi : Z) : Prop :=
  droll_validate C formula = true /\
  forall n, (lo <= droll_roll_total C formula n <= hi)%Z.

(** The formula that the callback of [diceRollReplace] hands to the dice
    library for the argument [matchValue] of a directive. *)
Definition normalized_formula (matchValue : JsString) : JsString :=
  let formula := trim matchValue in
  if isDigitsOnly formula then js "1d" ++ formula else formula.

(** An escaping function to tell escaped text from plain text: it puts
    the text between square brackets. *)
Definition bracket_escape : EscapeFn :=
  {| esc_src := js "s => '[' + s + ']'";
     esc_call := fun v => VString (js "[" ++ js_String v ++ js "]") |}.

(* ================================================================== *)
(** ** Where the conversions and the patterns are taken at their word *)

(** The values that [sanitizeMacroValue] turns into a text whatever they
    hold.  The two others call into the host: [toISOString] throws for a
    date whose time value is not a number, and [JSON.stringify] throws for
    an object with a cycle or a BigInt.  A date and an object of the model
    carry the text that these calls return when they return. *)
Definition plain_value (value : JsVal) : bool :=
  match value with
  | VDate _ _ | VObject _ _ => false
  | _ => true
  end.

(** [typeof v === 'function'] *)
Definition is_function (v : JsVal) : bool :=
  match v with
  | VFunction _ _ => true
  | _ => false
  end.

(** What [replace] puts in the place of the match [matched] when its
    second argument is the value [v] and, when [v] is not a function, its
    text refers to no part of the match with a dollar sign. *)
Definition replacement_of (v : JsVal) (matched : JsString) : JsString :=
  match v with
  | VFunction _ call => js_String (call (Some matched))
  | _ => js_String v
  end.

(** The text that is left of [s] after its leading digits. *)
Fixpoint after_digits (s : JsString) : JsString :=
  match s with
  | c :: s' => if is_digit c then after_digits s' else s
  | [] => []
  end.

(** The keys that [new RegExp] does not take as text: in [{{key}}] a key
    made of digits, of digits and a comma, or of digits, a comma and
    digits is, with the braces around it, a quantifier of the first
    brace.  So the pattern of [0] matches a lone closing brace, and the
    constructor throws when the two numbers are out of order.  For every
    other key, the special characters being escaped, the pattern is the
    literal text that [envPattern] takes it to be. *)
Definition braced_quantifier (key : JsString) : bool :=
  match key with
  | c :: _ =>
      is_digit c &&
      match after_digits key with
      | [] => true
      | d :: rest => (d =? 44)%N && forallb is_digit rest
      end
  | [] => false
  end.

(** No key of [m] is of that kind. *)
Definition literal_keys (m : Entries) : bool :=
  forallb (fun kv => negb (braced_quantifier (fst kv))) m.

(* ================================================================== *)
(** ** Well-formed registries *)

(** What [registerMacro] lets through as a key: a text without
    surrounding white space, not empty, that neither starts with the
    opening braces nor ends with the closing ones. *)
Definition key_ok (key : JsString) : Prop :=
  trim key = key /\ key <> [] /\
  startsWith key (js "{{") = false /\ endsWith key (js "}}") = false.

(** What [registerMacro] stores as a value: a string or a function. *)
Definition value_ok (value : JsVal) : Prop :=
  match value with
  | VString _ | VFunction _ _ => True
  | _ => False
  end.

(** A registry as [registerMacro] and [unregisterMacro] keep it: distinct
    keys, each of them let through by [registerMacro], with strings or
    functions as values. *)
Definition registry_ok (m : Entries) : Prop :=
  NoDup (map fst m) /\
  Forall (fun kv => key_ok (fst kv) /\ value_ok (snd kv)) m.

(** The value that [registerMacro] stores for [value]. *)
Definition stored_value (value : JsVal) : JsVal :=
  match value with
  | VString _ | VFunction _ _ => value
  | _ => VString (sanitizeMacroValue value)
  end.

(* ================================================================== *)
(** ** What the engine may change in the state of the page *)

(** [w'] is [w] but for draws of randomness made, banned words added and
    the cached hash of the chat id. *)
Definition page_extends (w w' : World) : Prop :=
  macros w' = macros w /\ chat w' = chat w /\
  main_chat w' = main_chat w /\ currentChatId w' = currentChatId w /\
  main_api w' = main_api w /\ send_textarea w' = send_textarea w /\
  maxContextSize w' = maxContextSize w /\
  lastInContext_mesid w' = lastInContext_mesid w /\
  ticks w <= ticks w' /\
  exists added,
    textgenerationwebui_banned_in_macros w' =
    textgenerationwebui_banned_in_macros w ++ added.

(** The test of [getLastMessageId] for a message that is being swiped:
    [message.swipes && message.swipe_id >= message.swipes.length]. *)
Definition swipe_in_progress (message : Message) : bool :=
  match swipes message with
  | Some sw =>
      match swipe_id message with
      | SwipeUndefined => false
      | SwipeNull => (Z.of_nat (length sw) <=? 0)%Z
      | SwipeNumber n => (Z.of_nat (length sw) <=? n)%Z
      end
  | None => false
  end.

(** The messages at which the loop of [getLastMessageId] stops. *)
Definition message_accepted (exclude_swipe_in_propress : bool)
  (filter : option (Message -> bool)) (message : Message) : bool :=
  negb (exclude_swipe_in_propress && swipe_in_progress message)
  && match filter with None => true | Some f => f message end.

(** The page with another chat. *)
Definition set_chat (c : list Message) (w : World) : World :=
  {| macros := macros w; chat := c; chat_id_hash := chat_id_hash w;
     main_chat := main_chat w; currentChatId := currentChatId w;
     main_api := main_api w;
     textgenerationwebui_banned_in_macros := textgenerationwebui_banned_in_macros w;
     send_textarea := send_textarea w; maxContextSize := maxContextSize w;
     lastInContext_mesid := lastInContext_mesid w; ticks := ticks w |}.

(* ================================================================== *)
(** ** The literal text that a pattern begins with *)

(** [r] is literal text. *)
Fixpoint is_lit (r : regex) : bool :=
  match r with
  | REmpty | RChar _ => true
  | RSeq r1 r2 => is_lit r1 && is_lit r2
  | _ => false
  end.

(** Code units that every match of [r] begins with, up to the case. *)
Fixpoint lit_prefix (r : regex) : JsString :=
  match r with
  | RChar c => [c]
  | RSeq r1 r2 => if is_lit r1 then lit_prefix r1 ++ lit_prefix r2 else lit_prefix r1
  | RGroup _ r1 => lit_prefix r1
  | _ => []
  end.

(** [s] begins with the code units [l], up to the case when it is
    ignored. *)
Fixpoint matches_prefix (upper : code_unit -> code_unit) (ignoreCase : bool)
  (l s : JsString) : bool :=
  match l with
  | [] => true
  | c :: l' =>
      match s with
      | [] => false
      | x :: s' =>
          N.eqb (canonicalize upper ignoreCase c) (canonicalize upper ignoreCase x)
          && matches_prefix upper ignoreCase l' s'
      end
  end.

(** The code units that the names of the macros of the engine begin with,
    the two slashes of a comment among them, and the opening brace. *)
Definition macro_initials : JsString := js "rntimlfc/dwbp{".

(** No name of a macro of the engine begins with [x], in either case. *)
Definition initial_free (upper : code_unit -> code_unit) (x : code_unit) : bool :=
  forallb (fun c => negb (N.eqb (canonicalize upper true c) (canonicalize upper true x)))
          macro_initials.

(* ================================================================== *)
(** ** Texts in which a pattern has no match *)

(** [re] matches at no place of [s], whatever follows it in a larger
    pattern. *)
Definition never_matches (upper : code_unit -> code_unit) (ignoreCase : bool)
  (re : regex) (s : JsString) : Prop :=
  forall a t caps (k : Cont),
    s = a ++ t -> rmatch upper ignoreCase re t caps k = None.

(** A line break of the pattern of [{{trim}}]: an optional carriage
    return and a line feed. *)
Definition line_break : regex := RSeq (ROpt (RChar 13)) (RChar 10).

(** The patterns of the passes that come before the built-in macros match
    at neither of the two opening braces in front of [rest]. *)
Definition early_passes_unmatched (upper : code_unit -> code_unit)
  (rest : JsString) : Prop :=
  Forall (fun re =>
            (forall caps k, rmatch upper true re (123%N :: 123%N :: rest) caps k = None) /\
            (forall caps k, rmatch upper true re (123%N :: rest) caps k = None))
    [rollPattern; RLit (js "{{newline}}");
     RSeqs [RLit (js "{{trim}}"); RStar (RSeq (ROpt (RChar 13)) (RChar 10))];
     RLit (js "{{noop}}"); RLit (js "{{input}}")].

(* ================================================================== *)
(** ** The macros that are replaced before the registry is looked at *)



(* ================================================================== *)
(** ** The legacy tags and the entries of [env] that they stand for *)

(** The tags that [evaluateMacros] replaces before it looks for macros, in
    upper and in lower case, each with the key of [env] whose value it
    becomes. *)
Definition legacy_tags : list (JsString * JsString) :=
  [(js "<USER>", js "user"); (js "<BOT>", js "char"); (js "<CHAR>", js "char");
   (js "<CHARIFNOTGROUP>", js "group"); (js "<GROUP>", js "group");
   (js "<user>", js "user"); (js "<bot>", js "char"); (js "<char>", js "char");
   (js "<charifnotgroup>", js "group"); (js "<group>", js "group")].

(* ================================================================== *)
(** ** The read-only macros *)

(** The macros of [evaluateMacros] that stand for a value of the page or
    of the clock, each with the value that is handed to the escaping
    function. *)
Definition readonly_macros (C : Collaborators) (w : World)
  : list (JsString * JsVal) :=
  [(js "maxPrompt", VString (js_String (maxContextSize w)));
   (js "lastMessage", getLastMessage w);
   (js "lastMessageId",
    VString (js_String (match getLastMessageId true None w with
                        | Some i => VNumber (Int (Z.of_nat i))
                        | None => VString []
                        end)));
   (js "lastUserMessage", getLastUserMessage w);
   (js "lastCharMessage", getLastCharMessage w);
   (js "firstIncludedMessageId",
    VString (js_String (nullish (getFirstIncludedMessageId w) (VString []))));
   (js "lastSwipeId", VString (js_String (nullish (getLastSwipeId w) (VString []))));
   (js "currentSwipeId",
    VString (js_String (nullish (getCurrentSwipeId w) (VString []))));
   (js "time", VString (moment_format C (js "LT")));
   (js "date", VString (moment_format C (js "LL")));
   (js "weekday", VString (moment_format C (js "dddd")));
   (js "isotime", VString (moment_format C (js "HH:mm")));
   (js "isodate", VString (moment_format C (js "YYYY-MM-DD")))].

(** The macros that [evaluateMacros] replaces right after the passes of
    the other modules, but for [{{trim}}], each with the text that it
    becomes.  What the escaping function returns for the line feed is the
    second argument of [replace]. *)
Definition simple_macros (varEscape : EscapeFn) (w : World)
  : list (JsString * JsString) :=
  [(js "newline",
    replacement_of (esc_call varEscape (VString [10%N])) (js "{{newline}}"));
   (js "noop", []);
   (js "input",
    js_String (esc_call varEscape (VString (js_String (send_textarea w)))))].

(* ================================================================== *)
(** * Properties *)

(** ** Matching and a code unit the text lacks

    Every pattern of the engine contains a symbol, [{] or [<], that
    matches only itself whatever the flags are, and all but the pattern of
    [{{trim}}] begin with it.  A text that lacks the symbol goes through
    the replacement unchanged, and so does the part of a text that precedes
    the first occurrence of the symbol when the pattern begins with it. *)

Lemma lacks_app (b : code_unit) (s t : JsString) :
  lacks b (s ++ t) = lacks b s && lacks b t.
Proof. apply forallb_app. Qed.

Lemma begins_needs (b : code_unit) (r : regex) :
  begins b r = true -> needs b r = true.
Proof.
  induction r; simpl; intros H; try discriminate; auto.
  rewrite IHr1 by assumption. reflexivity.
Qed.

Section MatcherFacts.

Variable upper : code_unit -> code_unit.
Variable ignoreCase : bool.
Variable b : code_unit.
Hypothesis b_symbol : is_symbol b = true.

Lemma canonicalize_symbol (x : code_unit) :
  N.eqb (canonicalize upper ignoreCase b) (canonicalize upper ignoreCase x) = true ->
  x = b.
Proof.
  intros E. apply N.eqb_eq in E.
  assert (Hb : (b < 65 \/ (90 < b /\ b < 97) \/ (122 < b /\ b < 128))%N).
  { unfold is_symbol in b_symbol.
    destruct (N.ltb_spec b 65); [ now left | ].
    destruct (N.ltb_spec 90 b); destruct (N.ltb_spec b 97);
      destruct (N.ltb_spec 122 b); destruct (N.ltb_spec b 128);
      cbn in b_symbol; try discriminate; auto. }
  assert (H : canonicalize upper ignoreCase b = b).
  { unfold canonicalize. destruct ignoreCase; cbn [negb]; [ | reflexivity ].
    destruct (N.ltb_spec b 128); [ | lia ].
    destruct (N.leb_spec 97 b); destruct (N.leb_spec b 122); cbn [andb];
      try reflexivity; lia. }
  rewrite H in E. unfold canonicalize in E.
  destruct ignoreCase; cbn [negb] in E; [ | congruence ].
  destruct (N.ltb_spec x 128).
  - destruct (N.leb_spec 97 x); destruct (N.leb_spec x 122); cbn [andb] in E; lia.
  - destruct (N.ltb_spec (upper x) 128); lia.
Qed.

(** On a text that lacks [b] a match hands on a text that lacks [b]. *)
Lemma rmatch_lacks_cont (r : regex) :
  forall s caps (k : Cont),
    lacks b s = true ->
    (forall s' caps', lacks b s' = true -> k s' caps' = None) ->
    rmatch upper ignoreCase r s caps k = None.
Proof.
  induction r as [ | c | p | r1 IH1 r2 IH2 | greedy bound r1 IH1 | i r1 IH1 ];
    intros s caps k Hs Hk.
  - simpl. now apply Hk.
  - simpl. destruct s as [ | x s' ]; [ reflexivity | ].
    simpl in Hs. apply andb_prop in Hs as [_ Hs].
    destruct (N.eqb _ _); [ now apply Hk | reflexivity ].
  - simpl. destruct s as [ | x s' ]; [ reflexivity | ].
    simpl in Hs. apply andb_prop in Hs as [_ Hs].
    destruct (p x); [ now apply Hk | reflexivity ].
  - simpl. apply IH1; [ assumption | ].
    intros s' caps' Hs'. now apply IH2.
  - simpl.
    generalize (match bound with Some n => n | None => length s end).
    intros fuel. revert s caps Hs.
    induction fuel as [ | fuel IHf ]; intros s caps Hs.
    + now apply Hk.
    + cbn beta iota. destruct greedy.
      * rewrite IH1; [ now apply Hk | assumption | ].
        intros s' caps' Hs'. destruct (length s' <? length s); [ | reflexivity ].
        now apply IHf.
      * rewrite (Hk s caps Hs). apply IH1; [ assumption | ].
        intros s' caps' Hs'. destruct (length s' <? length s); [ | reflexivity ].
        now apply IHf.
  - simpl. apply IH1; [ assumption | ].
    intros s' caps' Hs'. now apply Hk.
Qed.

(** A pattern that needs [b] does not match in a text that lacks it. *)
Lemma rmatch_needs (r : regex) :
  forall s caps (k : Cont),
    needs b r = true -> lacks b s = true ->
    rmatch upper ignoreCase r s caps k = None.
Proof.
  induction r as [ | c | p | r1 IH1 r2 IH2 | greedy bound r1 IH1 | i r1 IH1 ];
    intros s caps k Hr Hs; simpl in Hr; try discriminate.
  - simpl. destruct s as [ | x s' ]; [ reflexivity | ].
    apply N.eqb_eq in Hr; subst c.
    destruct (N.eqb _ _) eqn:E; [ | reflexivity ].
    apply canonicalize_symbol in E. subst x.
    simpl in Hs. rewrite N.eqb_refl in Hs. discriminate.
  - simpl. apply orb_prop in Hr as [Hr | Hr].
    + now apply IH1.
    + apply rmatch_lacks_cont; [ assumption | ].
      intros s' caps' Hs'. now apply IH2.
  - simpl. now apply IH1.
Qed.

(** A pattern that begins with [b] matches neither at the end of the
    text nor at another code unit. *)
Lemma rmatch_begins (r : regex) :
  forall s caps (k : Cont),
    begins b r = true ->
    match s with [] => True | x :: _ => x <> b end ->
    rmatch upper ignoreCase r s caps k = None.
Proof.
  induction r as [ | c | p | r1 IH1 r2 IH2 | greedy bound r1 IH1 | i r1 IH1 ];
    intros s caps k Hr Hs; simpl in Hr; try discriminate.
  - simpl. destruct s as [ | x s' ]; [ reflexivity | ].
    apply N.eqb_eq in Hr; subst c.
    destruct (N.eqb _ _) eqn:E; [ | reflexivity ].
    apply canonicalize_symbol in E. contradiction.
  - simpl. now apply IH1.
  - simpl. now apply IH1.
Qed.

Section Replacing.

Context {St : Type}.
Variable re : regex.
Variable f : MatchInfo -> St -> JsString * St.

Lemma replace_go_lacks :
  needs b re = true ->
  forall s input pos st,
    lacks b s = true ->
    replace_go upper ignoreCase re f input s pos 0 st = (s, st).
Proof.
  intros Hre. induction s as [ | c s' IH ]; intros input pos st Hs.
  - simpl. unfold rexec. now rewrite rmatch_needs.
  - cbn [replace_go]. unfold rexec. rewrite rmatch_needs by assumption.
    simpl in Hs. apply andb_prop in Hs as [_ Hs].
    now rewrite IH.
Qed.

(** The code units of a match are passed over. *)
Lemma replace_go_skip :
  forall a s input pos st,
    replace_go upper ignoreCase re f input (a ++ s) pos (length a) st =
    replace_go upper ignoreCase re f input s (pos + length a) 0 st.
Proof.
  induction a as [ | c a IH ]; intros s input pos st.
  - simpl. now rewrite Nat.add_0_r.
  - simpl. rewrite IH. f_equal. lia.
Qed.

(** The text before the first [b] is kept. *)
Lemma replace_go_prefix :
  begins b re = true ->
  forall pre s input pos st,
    lacks b pre = true ->
    replace_go upper ignoreCase re f input (pre ++ s) pos 0 st =
    (let '(out, st') :=
       replace_go upper ignoreCase re f input s (pos + length pre) 0 st in
     (pre ++ out, st')).
Proof.
  intros Hre. induction pre as [ | c pre IH ]; intros s input pos st Hpre.
  - simpl. rewrite Nat.add_0_r. now destruct (replace_go _ _ _ _ _ _ _ _ _).
  - simpl in Hpre. apply andb_prop in Hpre as [Hc Hpre].
    cbn [app replace_go]. unfold rexec.
    rewrite rmatch_begins; [ | assumption | ].
    + rewrite IH by assumption.
      replace (S pos + length pre) with (pos + length (c :: pre)) by (simpl; lia).
      now destruct (replace_go _ _ _ _ _ _ _ _ _).
    + apply negb_true_iff in Hc. now apply N.eqb_neq in Hc.
Qed.

(** A match at the head of the text: the callback is run on it and the
    replacement goes on after it. *)
Lemma replace_go_match :
  forall d rest caps input pos st,
    d <> [] ->
    rexec upper ignoreCase re (d ++ rest) = Some (rest, caps) ->
    replace_go upper ignoreCase re f input (d ++ rest) pos 0 st =
    (let '(out, st1) :=
       f {| m_text := d; m_caps := caps; m_offset := pos; m_input := input |} st in
     let '(tl, st2) :=
       replace_go upper ignoreCase re f input rest (pos + length d) 0 st1 in
     (out ++ tl, st2)).
Proof.
  intros d rest caps input pos st Hd Hexec.
  destruct d as [ | c d ]; [ congruence | ].
  cbn [app replace_go]. cbn [app] in Hexec. rewrite Hexec.
  assert (L : length (c :: d ++ rest) - length rest = S (length d))
    by (change (length (c :: d ++ rest)) with (S (length (d ++ rest)));
        rewrite length_app; lia).
  rewrite L.
  replace (firstn (S (length d)) (c :: d ++ rest)) with (c :: d).
  2:{ change (c :: d ++ rest) with ((c :: d) ++ rest).
      change (S (length d)) with (length (c :: d)).
      rewrite firstn_app, Nat.sub_diag, firstn_all. simpl. now rewrite app_nil_r. }
  destruct (f _ st) as [out st1].
  rewrite replace_go_skip.
  replace (S pos + length d) with (pos + length (c :: d)) by (simpl; lia).
  reflexivity.
Qed.

(** A text with one match, between two parts that lack [b]. *)
Lemma replace_st_one_match :
  begins b re = true ->
  forall pre d post caps st,
    lacks b pre = true -> lacks b post = true -> d <> [] ->
    rexec upper ignoreCase re (d ++ post) = Some (post, caps) ->
    replace_st upper ignoreCase re f (pre ++ d ++ post) st =
    (let '(out, st1) :=
       f {| m_text := d; m_caps := caps; m_offset := length pre;
            m_input := pre ++ d ++ post |} st in
     (pre ++ out ++ post, st1)).
Proof.
  intros Hre pre d post caps st Hpre Hpost Hd Hexec.
  unfold replace_st.
  rewrite replace_go_prefix by assumption.
  rewrite (replace_go_match d post caps _ _ _ Hd Hexec). simpl.
  destruct (f _ st) as [out st1].
  rewrite replace_go_lacks by (auto using begins_needs).
  reflexivity.
Qed.

End Replacing.

Lemma replace_st_lacks (St : Type) (re : regex)
  (f : MatchInfo -> St -> JsString * St) (s : JsString) (st : St) :
  needs b re = true -> lacks b s = true ->
  replace_st upper ignoreCase re f s st = (s, st).
Proof. intros. unfold replace_st. now apply replace_go_lacks. Qed.

Lemma replace_fn_lacks (re : regex) (f : MatchInfo -> JsString) (s : JsString) :
  needs b re = true -> lacks b s = true ->
  replace_fn upper ignoreCase re f s = s.
Proof. intros. unfold replace_fn. now rewrite replace_st_lacks. Qed.

Lemma replace_str_lacks (re : regex) (repl s : JsString) :
  needs b re = true -> lacks b s = true ->
  replace_str upper ignoreCase re repl s = s.
Proof. intros. unfold replace_str. now apply replace_fn_lacks. Qed.

Lemma replace_val_lacks (re : regex) (v : JsVal) (s : JsString) :
  needs b re = true -> lacks b s = true ->
  replace_val upper ignoreCase re v s = s.
Proof.
  intros. unfold replace_val.
  destruct v; (now apply replace_str_lacks) || (now apply replace_fn_lacks).
Qed.

Lemma match_all_lacks (re : regex) (s : JsString) :
  needs b re = true -> lacks b s = true ->
  match_all upper ignoreCase re s = [].
Proof. intros. unfold match_all. now rewrite replace_st_lacks. Qed.

Lemma replace_fn_one_match (re : regex) (f : MatchInfo -> JsString)
  (pre d post : JsString) (caps : captures) :
  begins b re = true ->
  lacks b pre = true -> lacks b post = true -> d <> [] ->
  rexec upper ignoreCase re (d ++ post) = Some (post, caps) ->
  replace_fn upper ignoreCase re f (pre ++ d ++ post) =
  pre ++ f {| m_text := d; m_caps := caps; m_offset := length pre;
              m_input := pre ++ d ++ post |} ++ post.
Proof.
  intros. unfold replace_fn.
  rewrite (@replace_st_one_match unit re _ H pre d post caps tt); auto.
Qed.

End MatcherFacts.

(** ** Callbacks that agree *)

Lemma replace_go_ext (St : Type) (upper : code_unit -> code_unit)
  (ignoreCase : bool) (re : regex) (f g : MatchInfo -> St -> JsString * St) :
  (forall m st, f m st = g m st) ->
  forall s input pos skip st,
    replace_go upper ignoreCase re f input s pos skip st =
    replace_go upper ignoreCase re g input s pos skip st.
Proof.
  intros Hfg. induction s as [ | c s IH ]; intros input pos skip st.
  - cbn [replace_go]. destruct skip; [ | reflexivity ].
    destruct (rexec upper ignoreCase re []) as [ [rest caps] | ];
      [ apply Hfg | reflexivity ].
  - cbn [replace_go]. destruct skip as [ | n ]; [ | apply IH ].
    destruct (rexec upper ignoreCase re (c :: s)) as [ [rest caps] | ].
    + rewrite Hfg. destruct (g _ st) as [out st1].
      destruct (length (c :: s) - length rest); now rewrite IH.
    + now rewrite IH.
Qed.

Lemma replace_fn_ext (upper : code_unit -> code_unit) (ignoreCase : bool)
  (re : regex) (f g : MatchInfo -> JsString) (input : JsString) :
  (forall m, f m = g m) ->
  replace_fn upper ignoreCase re f input = replace_fn upper ignoreCase re g input.
Proof.
  intros Hfg. unfold replace_fn, replace_st. f_equal.
  apply replace_go_ext. intros m st. now rewrite Hfg.
Qed.

(** ** Matching a directive

    The directives [{{roll:...}}], [{{random::...}}] and [{{pick::...}}]
    capture the code units up to the next closing brace. *)

Section DirectiveFacts.

Variable upper : code_unit -> code_unit.
Variable ignoreCase : bool.

Lemma rmatch_lit (lit : JsString) (r : regex) :
  forall s caps (k : Cont),
    rmatch upper ignoreCase (RSeq (RLit lit) r) (lit ++ s) caps k =
    rmatch upper ignoreCase r s caps k.
Proof.
  induction lit as [ | c lit IH ]; intros s caps k.
  - reflexivity.
  - cbn [RLit app rmatch] in *. rewrite N.eqb_refl. apply IH.
Qed.

(** A greedy [p*] in front of a code unit that [p] rejects takes all
    the code units that [p] accepts. *)
Lemma rmatch_star_class (p : code_unit -> bool) :
  forall body rest caps (k : Cont) r,
    forallb p body = true ->
    match rest with [] => True | c :: _ => p c = false end ->
    k rest caps = Some r ->
    rmatch upper ignoreCase (RStar (RClass p)) (body ++ rest) caps k = Some r.
Proof.
  induction body as [ | x body IH ]; intros rest caps k r Hbody Hrest Hk.
  - cbn [app]. destruct rest as [ | c rest ].
    + exact Hk.
    + cbn. rewrite Hrest. exact Hk.
  - cbn [app]. simpl in Hbody. apply andb_prop in Hbody as [Hx Hbody].
    specialize (IH rest caps k r Hbody Hrest Hk).
    unfold RStar in *. cbn [rmatch length] in *.
    cbn beta iota. cbn [rmatch]. rewrite Hx.
    replace (length (body ++ rest) <? S (length (body ++ rest))) with true
      by (symmetry; apply Nat.ltb_lt; lia).
    rewrite IH. reflexivity.
Qed.

(** The group [(p+)] followed by [tail]. *)
Lemma rmatch_group_plus_class (p : code_unit -> bool) (i : nat) (tail : regex) :
  forall body rest caps (k : Cont) r,
    body <> [] ->
    forallb p body = true ->
    match rest with [] => True | c :: _ => p c = false end ->
    rmatch upper ignoreCase tail rest ((i, body) :: caps) k = Some r ->
    rmatch upper ignoreCase (RSeq (RGroup i (RPlus (RClass p))) tail)
      (body ++ rest) caps k = Some r.
Proof.
  intros body rest caps k r Hne Hbody Hrest Htail.
  destruct body as [ | x body ]; [ congruence | ].
  simpl in Hbody. apply andb_prop in Hbody as [Hx Hbody].
  unfold RPlus.
  change (rmatch upper ignoreCase (RSeq (RGroup i (RSeq (RClass p) (RStar (RClass p)))) tail)
            ((x :: body) ++ rest) caps k)
    with (if p x
          then rmatch upper ignoreCase (RStar (RClass p)) (body ++ rest) caps
                 (fun s1 caps1 =>
                    rmatch upper ignoreCase tail s1
                      ((i, firstn (length ((x :: body) ++ rest) - length s1)
                             ((x :: body) ++ rest)) :: caps1) k)
          else None).
  rewrite Hx. apply rmatch_star_class; try assumption.
  replace (length ((x :: body) ++ rest) - length rest) with (length (x :: body))
    by (rewrite length_app; lia).
  rewrite firstn_app, Nat.sub_diag, firstn_all. cbn [firstn]. rewrite app_nil_r.
  exact Htail.
Qed.

(** The closing braces. *)
Lemma rmatch_closing (post : JsString) (caps : captures) :
  rmatch upper ignoreCase (RSeqs [RLit (js "}}")]) (js "}}" ++ post) caps
    (fun s1 caps1 => Some (s1, caps1)) = Some (post, caps).
Proof.
  change (js "}}") with [125%N; 125%N].
  cbn [RSeqs RLit app rmatch]. now rewrite !N.eqb_refl.
Qed.

Lemma rexec_rollPattern (sep : code_unit) (body post : JsString) :
  sep = 32%N \/ sep = 58%N ->
  body <> [] -> forallb not_rbrace body = true ->
  rexec upper ignoreCase rollPattern (js "{{roll" ++ sep :: body ++ js "}}" ++ post)
  = Some (post, [(1, body)]).
Proof.
  intros Hsep Hne Hbody. unfold rexec, rollPattern. cbn [RSeqs].
  rewrite rmatch_lit. cbn [rmatch].
  replace ((sep =? 32)%N || (sep =? 58)%N) with true
    by (destruct Hsep; subst sep; reflexivity).
  apply rmatch_group_plus_class; try assumption; [ reflexivity | ].
  apply rmatch_closing.
Qed.

(** The optional elements of the patterns of [random] and [pick] in
    front of a double colon. *)
Lemma rmatch_double_colon (r : regex) (s : JsString) (caps : captures)
  (k : Cont) (x : JsString * captures) :
  rmatch upper ignoreCase r s caps k = Some x ->
  rmatch upper ignoreCase
    (RSeq (ROpt (RClass is_whitespace)) (RSeq (RChar 58) (RSeq (ROpt (RChar 58)) r)))
    (58%N :: 58%N :: s) caps k = Some x.
Proof.
  intros H. unfold ROpt. cbn [rmatch].
  change (is_whitespace 58%N) with false. cbn beta iota.
  rewrite N.eqb_refl. cbn [length].
  replace (length s <? S (length s)) with true
    by (symmetry; apply Nat.ltb_lt; lia).
  now rewrite H.
Qed.

Lemma rexec_pickPattern (body post : JsString) :
  body <> [] -> forallb not_rbrace body = true ->
  rexec upper ignoreCase pickPattern (js "{{pick::" ++ body ++ js "}}" ++ post)
  = Some (post, [(1, body)]).
Proof.
  intros Hne Hbody. unfold rexec, pickPattern. cbn [RSeqs].
  change (js "{{pick::" ++ body ++ js "}}" ++ post)
    with (js "{{pick" ++ 58%N :: 58%N :: body ++ js "}}" ++ post).
  rewrite rmatch_lit. apply rmatch_double_colon.
  apply rmatch_group_plus_class; try assumption; [ reflexivity | ].
  apply rmatch_closing.
Qed.

Lemma rexec_randomPattern (body post : JsString) :
  body <> [] -> forallb not_rbrace body = true ->
  rexec upper ignoreCase randomPattern (js "{{random::" ++ body ++ js "}}" ++ post)
  = Some (post, [(1, body)]).
Proof.
  intros Hne Hbody. unfold rexec, randomPattern. cbn [RSeqs].
  change (js "{{random::" ++ body ++ js "}}" ++ post)
    with (js "{{random" ++ 58%N :: 58%N :: body ++ js "}}" ++ post).
  rewrite rmatch_lit. apply rmatch_double_colon.
  apply rmatch_group_plus_class; try assumption; [ reflexivity | ].
  apply rmatch_closing.
Qed.

End DirectiveFacts.

(** ** The stages of the evaluation on a text without macros *)

Section StageFacts.

Variable C : Collaborators.

Lemma legacySubstitutions_lacks (content : JsString) (env : EnvObject)
  (varEscape : EscapeFn) :
  lacks 60%N content = true ->
  legacySubstitutions C content env varEscape = content.
Proof.
  intros H. unfold legacySubstitutions. cbv zeta.
  repeat rewrite (@replace_val_lacks _ _ 60%N eq_refl _ _ content) by (reflexivity || assumption).
  reflexivity.
Qed.

Lemma legacySubstitutions_nil (env : EnvObject) (varEscape : EscapeFn) :
  legacySubstitutions C [] env varEscape = [].
Proof. now apply legacySubstitutions_lacks. Qed.

Lemma substituteEnv_lacks (content : JsString) (env : EnvObject)
  (nonce : JsString) (varEscape : EscapeFn) :
  lacks 123%N content = true ->
  substituteEnv C content env nonce varEscape = content.
Proof.
  intros H. unfold substituteEnv.
  induction (for_in_keys env) as [ | varName keys IH ]; [ reflexivity | ].
  cbn [fold_left].
  rewrite (@replace_fn_lacks _ _ 123%N eq_refl) by (reflexivity || assumption).
  exact IH.
Qed.

Lemma timeDiffReplace_lacks (content : JsString) (varEscape : EscapeFn) :
  lacks 123%N content = true ->
  timeDiffReplace C content varEscape = content.
Proof.
  intros H. unfold timeDiffReplace.
  now rewrite (@replace_fn_lacks _ _ 123%N eq_refl) by (reflexivity || assumption).
Qed.

Lemma bannedWordsReplace_lacks (content : JsString) (w : World) :
  lacks 123%N content = true ->
  bannedWordsReplace C content w = (content, w).
Proof.
  intros H. unfold bannedWordsReplace.
  destruct content as [ | c content ]; [ reflexivity | ].
  rewrite (@match_all_lacks _ _ 123%N eq_refl) by (reflexivity || assumption).
  rewrite (@replace_str_lacks _ _ 123%N eq_refl) by (reflexivity || assumption).
  cbn [fold_left]. now destruct (str_eqb _ _).
Qed.

Lemma randomReplace_lacks (content : JsString) (placeholder : JsVal)
  (varEscape : EscapeFn) (w : World) :
  lacks 123%N content = true ->
  randomReplace C content placeholder varEscape w = (content, w).
Proof.
  intros H. unfold randomReplace.
  now rewrite (@replace_st_lacks _ _ 123%N eq_refl) by (reflexivity || assumption).
Qed.

Lemma diceRollReplace_lacks (content : JsString) (placeholder : JsVal)
  (varEscape : EscapeFn) (w : World) :
  lacks 123%N content = true ->
  diceRollReplace C content placeholder varEscape w = (content, w).
Proof.
  intros H. unfold diceRollReplace.
  now rewrite (@replace_st_lacks _ _ 123%N eq_refl) by (reflexivity || assumption).
Qed.

Lemma pickReplace_lacks (content rawContent : JsString) (placeholder : JsVal)
  (varEscape : EscapeFn) (w : World) :
  lacks 123%N content = true ->
  fst (pickReplace C content rawContent placeholder varEscape w) = content.
Proof.
  intros H. unfold pickReplace. destruct (getChatIdHash C w) as [h w'].
  cbn [fst].
  now rewrite (@replace_fn_lacks _ _ 123%N eq_refl) by (reflexivity || assumption).
Qed.

Lemma simpleSubstitutions_lacks (content : JsString) (varEscape : EscapeFn)
  (w : World) :
  lacks 123%N content = true ->
  simpleSubstitutions C content varEscape w = content.
Proof.
  intros H. unfold simpleSubstitutions. cbv zeta.
  rewrite (@replace_val_lacks _ _ 123%N eq_refl _ _ content) by (reflexivity || assumption).
  repeat rewrite (@replace_str_lacks _ _ 123%N eq_refl _ _ content) by (reflexivity || assumption).
  repeat rewrite (@replace_fn_lacks _ _ 123%N eq_refl _ _ content) by (reflexivity || assumption).
  reflexivity.
Qed.

Lemma builtinSubstitutions_lacks (content : JsString) (varEscape : EscapeFn)
  (w : World) :
  lacks 123%N content = true ->
  builtinSubstitutions C content varEscape w = content.
Proof.
  intros H. unfold builtinSubstitutions. cbv zeta.
  repeat rewrite (@replace_fn_lacks _ _ 123%N eq_refl _ _ content) by (reflexivity || assumption).
  repeat rewrite (@replace_str_lacks _ _ 123%N eq_refl _ _ content) by (reflexivity || assumption).
  repeat rewrite (@replace_fn_lacks _ _ 123%N eq_refl _ _ content) by (reflexivity || assumption).
  now apply timeDiffReplace_lacks.
Qed.

(** The last three passes on a text without opening brace. *)
Lemma final_passes_lacks (content rawContent : JsString) (p1 p2 : JsVal)
  (e1 e2 : EscapeFn) (w : World) :
  lacks 123%N content = true ->
  fst (let '(content, w) := bannedWordsReplace C content w in
       let '(content, w) := randomReplace C content p1 e1 w in
       let '(content, w) := pickReplace C content rawContent p2 e2 w in
       (content, w)) = content.
Proof.
  intros H.
  rewrite bannedWordsReplace_lacks by assumption.
  rewrite randomReplace_lacks by assumption.
  pose proof (@pickReplace_lacks content rawContent p2 e2 w H) as P.
  destruct (pickReplace C content rawContent _ _ _) as [c' w']. exact P.
Qed.

(** The evaluation, stage by stage. *)
Lemma evaluateMacros_stages (content c0 c1 c2 c3 c4 c5 c6 : JsString)
  (env : EnvObject) (varEscape : EscapeFn) (w w1 : World) :
  content <> [] ->
  legacySubstitutions C content env varEscape = c0 ->
  includes c0 (js "{{") = true ->
  diceRollReplace C c0 (escape_as_value varEscape) identity_escape w = (c1, w1) ->
  replaceInstructMacros C c1 env varEscape w1 = c2 ->
  replaceVariableMacros C c2 varEscape w1 = c3 ->
  simpleSubstitutions C c3 varEscape w1 = c4 ->
  substituteEnv C c4 (populateEnv env (tick w1)) (uuidv4 C (ticks w1)) varEscape = c5 ->
  builtinSubstitutions C c5 varEscape (tick w1) = c6 ->
  evaluateMacros C content env varEscape w =
  (let '(content', w2) := bannedWordsReplace C c6 (tick w1) in
   let '(content', w2) :=
     randomReplace C content' (escape_as_value varEscape) identity_escape w2 in
   let '(content', w2) :=
     pickReplace C content' content (escape_as_value varEscape) identity_escape w2 in
   (content', w2)).
Proof.
  intros Hne H0 Hinc H1 H2 H3 H4 H5 H6. unfold evaluateMacros.
  destruct content as [ | c content ]; [ congruence | ].
  rewrite H0, Hinc. cbn [negb]. rewrite H1, H2, H3, H4, H5, H6.
  reflexivity.
Qed.

(** The same when no opening brace is left before the last three
    passes. *)
Lemma evaluateMacros_stages_lacks (content c0 c1 c2 c3 c4 c5 c6 : JsString)
  (env : EnvObject) (varEscape : EscapeFn) (w w1 : World) :
  content <> [] ->
  legacySubstitutions C content env varEscape = c0 ->
  includes c0 (js "{{") = true ->
  diceRollReplace C c0 (escape_as_value varEscape) identity_escape w = (c1, w1) ->
  replaceInstructMacros C c1 env varEscape w1 = c2 ->
  replaceVariableMacros C c2 varEscape w1 = c3 ->
  simpleSubstitutions C c3 varEscape w1 = c4 ->
  substituteEnv C c4 (populateEnv env (tick w1)) (uuidv4 C (ticks w1)) varEscape = c5 ->
  builtinSubstitutions C c5 varEscape (tick w1) = c6 ->
  lacks 123%N c6 = true ->
  fst (evaluateMacros C content env varEscape w) = c6.
Proof.
  intros Hne H0 Hinc H1 H2 H3 H4 H5 H6 Hc6.
  rewrite (evaluateMacros_stages content c0 c1 c2 c3 c4 c5 c6 env varEscape w w1
             Hne H0 Hinc H1 H2 H3 H4 H5 H6).
  apply final_passes_lacks. assumption.
Qed.

(** The pass of the banned words on a text without such a directive. *)
Lemma bannedWordsReplace_unmatched (content : JsString) (w : World) :
  match_all (unicode_upper C) true banPattern content = [] ->
  bannedWordsReplace C content w =
  (replace_str (unicode_upper C) true banPattern [] content, w).
Proof.
  intros H. unfold bannedWordsReplace.
  destruct content as [ | c content ]; [ reflexivity | ].
  rewrite H. cbn [fold_left]. destruct (str_eqb _ _); reflexivity.
Qed.

(** The evaluation when the dice pass leaves no opening brace. *)
Lemma evaluateMacros_after_dice (content c1 : JsString)
  (env : EnvObject) (varEscape : EscapeFn) (w w1 : World) :
  content <> [] ->
  includes (legacySubstitutions C content env varEscape) (js "{{") = true ->
  diceRollReplace C (legacySubstitutions C content env varEscape)
    (escape_as_value varEscape) identity_escape w = (c1, w1) ->
  lacks 123%N c1 = true ->
  replaceInstructMacros C c1 env varEscape w1 = c1 ->
  replaceVariableMacros C c1 varEscape w1 = c1 ->
  fst (evaluateMacros C content env varEscape w) = c1.
Proof.
  intros Hne Hinc H1 Hc1 H2 H3.
  exact (@evaluateMacros_stages_lacks content
           (legacySubstitutions C content env varEscape) c1 c1 c1 c1 c1 c1
           env varEscape w w1 Hne eq_refl Hinc H1 H2 H3
           (@simpleSubstitutions_lacks c1 varEscape w1 Hc1)
           (@substituteEnv_lacks c1 _ _ varEscape Hc1)
           (@builtinSubstitutions_lacks c1 varEscape (tick w1) Hc1)
           Hc1).
Qed.

End StageFacts.

(** ** The registry *)

Lemma str_eqb_refl (s : JsString) : str_eqb s s = true.
Proof. unfold str_eqb. destruct (list_eq_dec N.eq_dec s s); congruence. Qed.

Lemma str_eqb_eq (s t : JsString) : str_eqb s t = true <-> s = t.
Proof.
  unfold str_eqb. destruct (list_eq_dec N.eq_dec s t); split; congruence.
Qed.

Lemma str_eqb_neq (s t : JsString) : str_eqb s t = false <-> s <> t.
Proof.
  unfold str_eqb. destruct (list_eq_dec N.eq_dec s t); split; congruence.
Qed.

Lemma entries_has_In (m : Entries) (key : JsString) :
  entries_has m key = true <-> In key (map fst m).
Proof.
  induction m as [ | [k v] m IH ]; simpl.
  - split; [ discriminate | tauto ].
  - rewrite orb_true_iff, IH, str_eqb_eq. tauto.
Qed.

Lemma entries_delete_absent (m : Entries) (key : JsString) :
  entries_has m key = false -> entries_delete m key = m.
Proof.
  induction m as [ | [k v] m IH ]; simpl; intros H; [ reflexivity | ].
  apply orb_false_elim in H as [Hk Hm]. rewrite Hk, IH by assumption. reflexivity.
Qed.

Lemma entries_delete_removes (m : Entries) (key : JsString) :
  NoDup (map fst m) -> entries_has (entries_delete m key) key = false.
Proof.
  induction m as [ | [k v] m IH ]; simpl; intros H; [ reflexivity | ].
  inversion H as [ | ? ? Hk Hm ]; subst.
  destruct (str_eqb k key) eqn:E.
  - apply str_eqb_eq in E. subst k.
    destruct (entries_has m key) eqn:F; [ | reflexivity ].
    apply entries_has_In in F. contradiction.
  - simpl. rewrite E. now apply IH.
Qed.

Lemma entries_get_delete_other (m : Entries) (key k : JsString) :
  k <> key -> entries_get (entries_delete m key) k = entries_get m k.
Proof.
  intros Hk. induction m as [ | [k0 v] m IH ]; simpl; [ reflexivity | ].
  destruct (str_eqb k0 key) eqn:E.
  - apply str_eqb_eq in E. subst k0.
    destruct (str_eqb key k) eqn:F; [ | reflexivity ].
    apply str_eqb_eq in F. congruence.
  - simpl. now rewrite IH.
Qed.

Lemma set_macros_same (w : World) : set_macros (macros w) w = w.
Proof. now destruct w. Qed.

(** C5 (as amended).  For a value whose conversion to text cannot throw
    (any value but a date or another object, which [sanitizeMacroValue]
    hands to [toISOString] and to [JSON.stringify]), [registerMacro]
    throws exactly when the key is not a string, or is empty once
    trimmed, or, once trimmed, starts with the opening braces or ends with
    the closing braces; for every other key the registration succeeds.
    Braces inside the name are not looked for. *)
Theorem registerMacro_throws_iff (key value : JsVal) (w : World) :
  plain_value value = true ->
  ((exists message, registerMacro key value w = Throw message) <->
   match key with
   | VString s =>
       trim s = [] \/ startsWith (trim s) (js "{{") = true
       \/ endsWith (trim s) (js "}}") = true
   | _ => True
   end) /\
  ((exists w', registerMacro key value w = Ok w') <->
   match key with
   | VString s =>
       trim s <> [] /\ startsWith (trim s) (js "{{") = false
       /\ endsWith (trim s) (js "}}") = false
   | _ => False
   end).
Proof.
  intros _.
  destruct key as [ | | ? | ? | s | ? ? | | ? ? | ? ? ];
    try (split; split;
         [ tauto | intros _; eexists; reflexivity
         | intros [w' H]; discriminate | tauto ]).
  unfold registerMacro.
  destruct (trim s) as [ | c t ] eqn:Et.
  - split; split.
    + auto.
    + intros _. eexists; reflexivity.
    + intros [w' H]; discriminate.
    + intros [H _]; congruence.
  - destruct (startsWith (c :: t) (js "{{")) eqn:Es;
      destruct (endsWith (c :: t) (js "}}")) eqn:Ee; cbn [orb];
      (split; split;
       [ try (intros [m H]; discriminate); auto
       | try (intros _; eexists; reflexivity);
         intros [H | [H | H]]; discriminate
       | try (intros [w' H]; discriminate); intros _; repeat split; discriminate
       | try (intros _; eexists; reflexivity);
         intros [_ [H1 H2]]; discriminate ]).
Qed.

Lemma registerMacro_throws_iff_witness :
  ((exists message,
       registerMacro (VString (js " {{a ")) (VNumber (Int 1)) Sample.world =
       Throw message) <->
   (trim (js " {{a ") = [] \/ startsWith (trim (js " {{a ")) (js "{{") = true
    \/ endsWith (trim (js " {{a ")) (js "}}") = true)) /\
  ((exists w',
       registerMacro (VString (js " {{a ")) (VNumber (Int 1)) Sample.world = Ok w') <->
   (trim (js " {{a ") <> [] /\ startsWith (trim (js " {{a ")) (js "{{") = false
    /\ endsWith (trim (js " {{a ")) (js "}}") = false)).
Proof.
  exact (registerMacro_throws_iff (VString (js " {{a ")) (VNumber (Int 1)) Sample.world
           eq_refl).
Defined.

(** C5, the claim as stated fails: a name with the opening braces inside
    it is registered. *)
Lemma registerMacro_inner_braces_accepted :
  includes (js "a{{b") (js "{{") = true /\
  registerMacro (VString (js "a{{b")) (VString (js "v")) Sample.world =
  Ok (set_macros [(js "a{{b", VString (js "v"))] Sample.world).
Proof. split; reflexivity. Qed.

(** C6 (as amended).  [unregisterMacro] throws when the key is not a
    string or is empty once trimmed.  For a key that, once trimmed, is not
    empty and neither starts with the opening braces nor ends with the
    closing braces, it succeeds: the entry of the trimmed key is gone
    afterwards, the other entries are as before, and a registry that had
    no such entry is unchanged. *)
Theorem unregisterMacro_outcome (key : JsVal) (w : World) :
  NoDup (map fst (macros w)) ->
  match key with
  | VString s =>
      match trim s with
      | [] => exists message, unregisterMacro key w = Throw message
      | name =>
          startsWith name (js "{{") || endsWith name (js "}}") = false ->
          exists w',
            unregisterMacro key w = Ok w' /\
            entries_has (macros w') name = false /\
            (forall k, k <> name -> entries_get (macros w') k = entries_get (macros w) k) /\
            (entries_has (macros w) name = false -> w' = w)
      end
  | _ => exists message, unregisterMacro key w = Throw message
  end.
Proof.
  intros Hnd.
  destruct key as [ | | ? | ? | s | ? ? | | ? ? | ? ? ];
    try (eexists; reflexivity).
  unfold unregisterMacro.
  destruct (trim s) as [ | c t ] eqn:Et; [ eexists; reflexivity | ].
  intros _. eexists. split; [ reflexivity | ].
  destruct w; cbn [macros set_macros] in *.
  split; [ now apply entries_delete_removes | ].
  split; [ intros k Hk; now apply entries_get_delete_other | ].
  intros H. now rewrite entries_delete_absent.
Qed.

Lemma unregisterMacro_outcome_witness :
  NoDup (map fst (macros Sample.two_macros)) /\
  exists w',
    unregisterMacro (VString (js " foo ")) Sample.two_macros = Ok w' /\
    entries_has (macros w') (js "foo") = false /\
    (forall k, k <> js "foo" ->
               entries_get (macros w') k = entries_get (macros Sample.two_macros) k) /\
    (entries_has (macros Sample.two_macros) (js "foo") = false -> w' = Sample.two_macros).
Proof.
  assert (H : NoDup (map fst (macros Sample.two_macros))).
  { repeat constructor; cbn; intuition discriminate. }
  split; [ exact H | ].
  exact (unregisterMacro_outcome (VString (js " foo ")) Sample.two_macros H eq_refl).
Defined.

(** C6, the claim as stated fails: a name with the braces inside it is
    not rejected, its entry is removed. *)
Lemma unregisterMacro_inner_braces_accepted :
  includes (js "a{{b") (js "{{") = true /\
  unregisterMacro (VString (js "a{{b")) Sample.two_macros =
  Ok (set_macros [(js "foo", VString (js "B"))] Sample.world).
Proof. split; reflexivity. Qed.

(** ** Lists of alternatives *)

Lemma split_go_not_nil (sep s acc : JsString) (skip : nat) :
  split_go sep s acc skip <> [].
Proof.
  revert acc skip. induction s as [ | c s IH ]; intros acc skip; cbn [split_go].
  - discriminate.
  - destruct skip as [ | n ]; [ | apply IH ].
    destruct (startsWith (c :: s) sep); [ discriminate | apply IH ].
Qed.

Lemma js_split_not_nil (s sep : JsString) : js_split s sep <> [].
Proof. apply split_go_not_nil. Qed.

Lemma parse_list_not_nil (C : Collaborators) (listString : JsString) :
  parse_list C listString <> [].
Proof.
  unfold parse_list. destruct (includes listString (js "::")).
  - apply js_split_not_nil.
  - intros H. apply map_eq_nil in H. revert H. apply js_split_not_nil.
Qed.

Lemma floor_mul_lt (u : UnitFloat) (n : nat) : 0 < n -> floor_mul u n < n.
Proof.
  intros Hn. unfold floor_mul. destruct u as [num den [H0 H1]]; cbn [uf_num uf_den].
  assert (Hq : (0 <= num * Z.of_nat n / den < Z.of_nat n)%Z).
  { split.
    - apply Z.div_pos; nia.
    - apply Z.div_lt_upper_bound; nia. }
  lia.
Qed.

Lemma list_at_In (l : list JsString) (i : nat) :
  i < length l -> exists item, In item l /\ list_at l i = VString item.
Proof.
  intros H. unfold list_at. destruct (nth_error l i) as [ item | ] eqn:E.
  - exists item. split; [ eapply nth_error_In; eassumption | reflexivity ].
  - apply nth_error_None in E. lia.
Qed.

(** C10.  Parsing the list of a [random] or [pick] directive always gives
    at least one item, so the callbacks never take the branch of the empty
    list: whatever the match, the placeholder and the state are, each
    returns the escaped form of an item of the list. *)
Theorem empty_list_branch_unreachable (C : Collaborators) :
  (forall listString, 1 <= length (parse_list C listString)) /\
  (forall placeholder varEscape m w,
      exists item,
        In item (parse_list C (capture_str (m_caps m) 1)) /\
        random_callback C placeholder varEscape m w =
        (js_String (esc_call varEscape (VString item)), tick w)) /\
  (forall chatIdHash rawContentHash placeholder varEscape m,
      exists item,
        In item (parse_list C (capture_str (m_caps m) 1)) /\
        pick_callback C chatIdHash rawContentHash placeholder varEscape m =
        js_String (esc_call varEscape (VString item))).
Proof.
  assert (L : forall listString, 1 <= length (parse_list C listString)).
  { intros listString. pose proof (parse_list_not_nil C listString) as H.
    destruct (parse_list C listString); [ congruence | simpl; lia ]. }
  split; [ exact L | split ].
  - intros placeholder varEscape m w. unfold random_callback.
    specialize (L (capture_str (m_caps m) 1)).
    destruct (Nat.eqb_spec (length (parse_list C (capture_str (m_caps m) 1))) 0) as [E | E];
      [ lia | ].
    destruct (list_at_In (parse_list C (capture_str (m_caps m) 1))
                (floor_mul (seedrandom_entropy C (ticks w))
                           (length (parse_list C (capture_str (m_caps m) 1)))))
      as [item [Hin Hat]]; [ apply floor_mul_lt; lia | ].
    exists item. split; [ exact Hin | ]. now rewrite Hat.
  - intros chatIdHash rawContentHash placeholder varEscape m. unfold pick_callback.
    specialize (L (capture_str (m_caps m) 1)).
    destruct (Nat.eqb_spec (length (parse_list C (capture_str (m_caps m) 1))) 0) as [E | E];
      [ lia | ].
    match goal with
    | |- context [list_at ?l ?i] =>
        destruct (list_at_In l i) as [item [Hin Hat]]; [ apply floor_mul_lt; lia | ]
    end.
    exists item. split; [ exact Hin | ]. now rewrite Hat.
Qed.

(** ** The short circuit *)

(** C8.  When the text has no [{{] after the legacy substitutions,
    [evaluateMacros] returns it as it is then, and the state of the page
    is untouched. *)
Theorem evaluateMacros_short_circuit (C : Collaborators) (content : JsString)
  (env : EnvObject) (varEscape : EscapeFn) (w : World) :
  includes (legacySubstitutions C content env varEscape) (js "{{") = false ->
  evaluateMacros C content env varEscape w =
  (legacySubstitutions C content env varEscape, w).
Proof.
  intros H. unfold evaluateMacros.
  destruct content as [ | c content ].
  - now rewrite legacySubstitutions_nil.
  - rewrite H. reflexivity.
Qed.

Lemma evaluateMacros_short_circuit_witness :
  includes (legacySubstitutions Sample.collaborators (js "Hello <USER>, no macros")
              [(js "user", VString (js "Al"))] identity_escape) (js "{{") = false /\
  evaluateMacros Sample.collaborators (js "Hello <USER>, no macros")
    [(js "user", VString (js "Al"))] identity_escape Sample.world =
  (js "Hello Al, no macros", Sample.world).
Proof.
  split; [ reflexivity | ].
  exact (evaluateMacros_short_circuit Sample.collaborators
           (js "Hello <USER>, no macros") [(js "user", VString (js "Al"))]
           identity_escape Sample.world eq_refl).
Defined.

(** ** Dice rolls through the evaluation *)

Lemma js_digits (d : Decimal.uint) :
  forallb is_digit (js (NilEmpty.string_of_uint d)) = true.
Proof.
  induction d; cbn [NilEmpty.string_of_uint js list_ascii_of_string map forallb];
    try reflexivity; unfold js in IHd; rewrite IHd; reflexivity.
Qed.

Lemma digits_lack_brace (s : JsString) :
  forallb is_digit s = true -> lacks 123%N s = true.
Proof.
  induction s as [ | c s IH ]; simpl; [ reflexivity | ].
  intros H. apply andb_prop in H as [Hc Hs]. rewrite IH by assumption.
  unfold is_digit in Hc. apply andb_prop in Hc as [_ Hc]. apply N.leb_le in Hc.
  destruct (N.eqb_spec c 123); [ lia | reflexivity ].
Qed.

Lemma Z_to_js_lacks_brace (z : Z) : lacks 123%N (Z_to_js z) = true.
Proof.
  unfold Z_to_js. destruct (Z.to_int z) as [d | d]; cbn [NilEmpty.string_of_int].
  - apply digits_lack_brace, js_digits.
  - change (js (String "-" (NilEmpty.string_of_uint d)))
      with (45%N :: js (NilEmpty.string_of_uint d)).
    cbn [lacks forallb]. change (negb (45 =? 123)%N) with true. cbn [andb].
    apply digits_lack_brace, js_digits.
Qed.

Section DiceFacts.

Variable C : Collaborators.

(** A text that is one match of a pattern beginning with [b]. *)
Lemma replace_st_whole_match (St : Type) (upper : code_unit -> code_unit)
  (ignoreCase : bool) (b : code_unit) (re : regex)
  (f : MatchInfo -> St -> JsString * St) (d : JsString) (caps : captures) (st : St) :
  is_symbol b = true -> begins b re = true -> d <> [] ->
  rexec upper ignoreCase re d = Some ([], caps) ->
  replace_st upper ignoreCase re f d st =
  f {| m_text := d; m_caps := caps; m_offset := 0; m_input := d |} st.
Proof.
  intros Hb Hre Hd Hexec.
  pose proof (@replace_st_one_match upper ignoreCase b Hb St re f Hre [] d [] caps st
                eq_refl eq_refl Hd) as H.
  cbn [app length] in H. rewrite app_nil_r in H. rewrite (H Hexec).
  destruct (f _ st) as [out st1]. now rewrite app_nil_r.
Qed.

Lemma roll_callback_formula (placeholder : JsVal) (varEscape : EscapeFn)
  (m : MatchInfo) (w : World) :
  roll_callback C placeholder varEscape m w =
  (if droll_validate C (normalized_formula (capture_str (m_caps m) 1))
   then (js_String (esc_call varEscape
           (VString (Z_to_js (droll_roll_total C
              (normalized_formula (capture_str (m_caps m) 1)) (ticks w))))),
         tick w)
   else (js_String placeholder, w)).
Proof.
  unfold roll_callback, normalized_formula. cbv zeta.
  now destruct (droll_validate C _).
Qed.

(** The dice pass on a text that is one [roll] directive. *)
Lemma diceRollReplace_directive (arg : JsString) (placeholder : JsVal)
  (varEscape : EscapeFn) (w : World) :
  arg <> [] -> forallb not_rbrace arg = true ->
  diceRollReplace C (js "{{roll:" ++ arg ++ js "}}") placeholder varEscape w =
  (if droll_validate C (normalized_formula arg)
   then (js_String (esc_call varEscape
           (VString (Z_to_js (droll_roll_total C (normalized_formula arg) (ticks w))))),
         tick w)
   else (js_String placeholder, w)).
Proof.
  intros Hne Hbody. unfold diceRollReplace.
  rewrite (@replace_st_whole_match World (unicode_upper C) true 123%N rollPattern _
             (js "{{roll:" ++ arg ++ js "}}") [(1, arg)] w eq_refl eq_refl).
  - now rewrite roll_callback_formula.
  - discriminate.
  - pose proof (rexec_rollPattern (unicode_upper C) true 58%N arg []
                  (or_intror eq_refl) Hne Hbody) as H.
    rewrite app_nil_r in H. exact H.
Qed.

(** The evaluation of a text that is one [roll] directive: the total in
    decimal notation when the library accepts the formula, and otherwise
    what [String] makes of the escaping function, which stands where the
    placeholder is expected. *)
Lemma evaluateMacros_roll_directive (arg : JsString) (env : EnvObject)
  (varEscape : EscapeFn) (w : World) :
  passes_inert C ->
  arg <> [] -> forallb not_rbrace arg = true -> lacks 60%N arg = true ->
  (droll_validate C (normalized_formula arg) = false ->
   lacks 123%N (esc_src varEscape) = true) ->
  fst (evaluateMacros C (js "{{roll:" ++ arg ++ js "}}") env varEscape w) =
  (if droll_validate C (normalized_formula arg)
   then Z_to_js (droll_roll_total C (normalized_formula arg) (ticks w))
   else esc_src varEscape).
Proof.
  intros Hin Hne Hbody Hlt Hsrc.
  assert (Hleg : legacySubstitutions C (js "{{roll:" ++ arg ++ js "}}") env varEscape
                 = js "{{roll:" ++ arg ++ js "}}").
  { apply legacySubstitutions_lacks.
    rewrite !lacks_app, Hlt. reflexivity. }
  destruct (droll_validate C (normalized_formula arg)) eqn:Ev.
  - apply evaluateMacros_after_dice with (w1 := tick w).
    + discriminate.
    + rewrite Hleg. reflexivity.
    + rewrite Hleg, diceRollReplace_directive, Ev by assumption. reflexivity.
    + apply Z_to_js_lacks_brace.
    + exact (proj1 (Hin _ env varEscape (tick w) (Z_to_js_lacks_brace _))).
    + exact (proj2 (Hin _ env varEscape (tick w) (Z_to_js_lacks_brace _))).
  - apply evaluateMacros_after_dice with (w1 := w).
    + discriminate.
    + rewrite Hleg. reflexivity.
    + rewrite Hleg, diceRollReplace_directive, Ev by assumption. reflexivity.
    + exact (Hsrc eq_refl).
    + exact (proj1 (Hin _ env varEscape w (Hsrc eq_refl))).
    + exact (proj2 (Hin _ env varEscape w (Hsrc eq_refl))).
Qed.

End DiceFacts.

(** ** The stand-in collaborators meet the assumptions *)

Lemma sample_passes_inert : passes_inert Sample.collaborators.
Proof. intros content env varEscape w _. split; reflexivity. Qed.

Lemma sample_passes_keep (content : JsString) :
  passes_keep Sample.collaborators content.
Proof. intros env varEscape w. split; reflexivity. Qed.

Ltac sample_roll :=
  cbn [droll_roll_total Sample.collaborators]; unfold Sample.roll_total;
  match goal with
  | |- context [Sample.parse ?f] =>
      let v := eval vm_compute in (Sample.parse f) in
      change (Sample.parse f) with v
  end;
  cbv beta iota zeta;
  repeat match goal with
    | |- context [Sample.number_of ?a ?b] =>
        let v := eval vm_compute in (Sample.number_of a b) in
        change (Sample.number_of a b) with v
    end.

Lemma sample_rolls_1d20 : droll_rolls Sample.collaborators (js "1d20") 1 20.
Proof.
  split; [ reflexivity | ]. intros n. sample_roll.
  change (Z.to_nat 1) with 1. cbn [seq fold_left].
  pose proof (Z.mod_pos_bound (Z.of_nat n + Z.of_nat 0) 20 eq_refl). lia.
Qed.

Lemma sample_rolls_2d6 : droll_rolls Sample.collaborators (js "2d6") 2 12.
Proof.
  split; [ reflexivity | ]. intros n. sample_roll.
  change (Z.to_nat 2) with 2. cbn [seq fold_left].
  pose proof (Z.mod_pos_bound (Z.of_nat n + Z.of_nat 0) 6 eq_refl).
  pose proof (Z.mod_pos_bound (Z.of_nat n + Z.of_nat 1) 6 eq_refl). lia.
Qed.

(** ** Trimming *)

Lemma trimStart_head (c : code_unit) (s : JsString) :
  is_whitespace c = false -> trimStart (c :: s) = c :: s.
Proof. intros H. cbn [trimStart]. now rewrite H. Qed.

Lemma trim_no_whitespace (s : JsString) :
  forallb (fun c => negb (is_whitespace c)) s = true -> trim s = s.
Proof.
  intros H. unfold trim.
  assert (T : forall t, forallb (fun c => negb (is_whitespace c)) t = true ->
                        trimStart t = t).
  { intros [ | c t ] Ht; [ reflexivity | ].
    cbn [forallb] in Ht. apply andb_prop in Ht as [Hc _].
    apply trimStart_head. now apply negb_true_iff. }
  rewrite (T s H), T, rev_involutive; [ reflexivity | ].
  apply forallb_forall. intros x Hx. apply in_rev in Hx.
  revert x Hx. now apply forallb_forall.
Qed.

Lemma digit_not_whitespace (c : code_unit) :
  is_digit c = true -> is_whitespace c = false.
Proof.
  unfold is_digit. intros H.
  apply andb_prop in H as [H1 H2]. apply N.leb_le in H1, H2.
  destruct (is_whitespace c) eqn:E; [ | reflexivity ].
  unfold is_whitespace in E.
  repeat (apply orb_prop in E; destruct E as [E | E]);
    try (apply andb_prop in E; destruct E as [E1 E2]; apply N.leb_le in E1, E2; lia);
    apply N.eqb_eq in E; lia.
Qed.

Lemma digits_no_whitespace (s : JsString) :
  forallb is_digit s = true ->
  forallb (fun c => negb (is_whitespace c)) s = true.
Proof.
  intros H. apply forallb_forall. intros x Hx.
  apply negb_true_iff, digit_not_whitespace.
  revert x Hx. now apply forallb_forall.
Qed.

Lemma digits_not_rbrace (s : JsString) :
  forallb is_digit s = true -> forallb not_rbrace s = true.
Proof.
  intros H. apply forallb_forall. intros x Hx.
  assert (Hd : is_digit x = true) by (revert x Hx; now apply forallb_forall).
  unfold is_digit in Hd. apply andb_prop in Hd as [_ Hd]. apply N.leb_le in Hd.
  unfold not_rbrace. destruct (N.eqb_spec x 125); [ lia | reflexivity ].
Qed.

Lemma isDigitsOnly_spec (s : JsString) :
  isDigitsOnly s = true -> s <> [] /\ forallb is_digit s = true.
Proof.
  destruct s as [ | c s ]; [ discriminate | ].
  intros H. split; [ discriminate | exact H ].
Qed.

(** The formula of an argument that is only digits. *)
Lemma normalized_formula_digits (digits : JsString) :
  isDigitsOnly digits = true ->
  normalized_formula digits = js "1d" ++ digits.
Proof.
  intros H. unfold normalized_formula. cbv zeta.
  destruct (isDigitsOnly_spec digits H) as [_ Hd].
  rewrite trim_no_whitespace by now apply digits_no_whitespace.
  now rewrite H.
Qed.

(** The formula of the same digits behind [1d]. *)
Lemma normalized_formula_1d (digits : JsString) :
  isDigitsOnly digits = true ->
  normalized_formula (js "1d" ++ digits) = js "1d" ++ digits.
Proof.
  intros H. unfold normalized_formula. cbv zeta.
  destruct (isDigitsOnly_spec digits H) as [_ Hd].
  rewrite trim_no_whitespace.
  - reflexivity.
  - change (js "1d" ++ digits) with (49%N :: 100%N :: digits).
    cbn [forallb]. rewrite digits_no_whitespace by assumption. reflexivity.
Qed.

Lemma digits_lack_angle (digits : JsString) :
  forallb is_digit digits = true -> lacks 60%N digits = true.
Proof.
  induction digits as [ | c s IH ]; intros H; [ reflexivity | ].
  cbn [forallb] in H. apply andb_prop in H as [Hc Hs].
  cbn [lacks forallb]. fold (lacks 60%N s). rewrite (IH Hs), andb_true_r.
  unfold is_digit in Hc. apply andb_prop in Hc as [_ Hc]. apply N.leb_le in Hc.
  apply negb_true_iff. apply N.eqb_neq. lia.
Qed.

(** C7.  A [roll] directive whose trimmed argument is only digits [N] is
    rolled as one die with that many sides.  The callback of the dice
    pass hands [1dN] to the dice library: when the library accepts it, the
    result is the escaped decimal notation of the total that the library
    rolls for [1dN], and the placeholder otherwise.  The pass does so on
    the text [{{roll:N}}], which it treats as it treats [{{roll:1dN}}],
    and the evaluation of [{{roll:N}}] is the decimal notation of the
    total for [1dN].  With a dice library whose totals for [1d20] lie in
    1..20 and for [2d6] in 2..12, evaluating [{{roll:20}}] gives what
    evaluating [{{roll:1d20}}] gives, the decimal notation of the total
    for [1d20], a number in 1..20, and evaluating [{{roll:2d6}}] gives the
    decimal notation of the total for [2d6], a number in 2..12.  Here the
    passes of the other modules leave a text without macros alone and no
    key of [env] or of the registry is one that [new RegExp] reads as a
    quantifier. *)
Theorem roll_digits_as_single_die (C : Collaborators) (env : EnvObject)
  (varEscape : EscapeFn) (w : World) :
  passes_inert C ->
  literal_keys env = true -> literal_keys (macros w) = true ->
  droll_rolls C (js "1d20") 1 20 ->
  droll_rolls C (js "2d6") 2 12 ->
  (forall placeholder esc m w',
      let digits := trim (capture_str (m_caps m) 1) in
      isDigitsOnly digits = true ->
      normalized_formula (capture_str (m_caps m) 1) = js "1d" ++ digits /\
      roll_callback C placeholder esc m w' =
      (if droll_validate C (js "1d" ++ digits)
       then (js_String (esc_call esc
               (VString (Z_to_js (droll_roll_total C (js "1d" ++ digits) (ticks w'))))),
             tick w')
       else (js_String placeholder, w')) /\
      roll_callback C placeholder esc m w' =
      roll_callback C placeholder esc
        {| m_text := m_text m; m_caps := [(1, js "1d" ++ digits)];
           m_offset := m_offset m; m_input := m_input m |} w') /\
  (forall digits placeholder esc w',
      isDigitsOnly digits = true ->
      diceRollReplace C (js "{{roll:" ++ digits ++ js "}}") placeholder esc w' =
      (if droll_validate C (js "1d" ++ digits)
       then (js_String (esc_call esc
               (VString (Z_to_js (droll_roll_total C (js "1d" ++ digits) (ticks w'))))),
             tick w')
       else (js_String placeholder, w')) /\
      diceRollReplace C (js "{{roll:" ++ digits ++ js "}}") placeholder esc w' =
      diceRollReplace C (js "{{roll:1d" ++ digits ++ js "}}") placeholder esc w') /\
  (forall digits,
      isDigitsOnly digits = true ->
      droll_validate C (js "1d" ++ digits) = true ->
      fst (evaluateMacros C (js "{{roll:" ++ digits ++ js "}}") env varEscape w) =
      Z_to_js (droll_roll_total C (js "1d" ++ digits) (ticks w)) /\
      fst (evaluateMacros C (js "{{roll:1d" ++ digits ++ js "}}") env varEscape w) =
      Z_to_js (droll_roll_total C (js "1d" ++ digits) (ticks w))) /\
  (fst (evaluateMacros C (js "{{roll:20}}") env varEscape w) =
     Z_to_js (droll_roll_total C (js "1d20") (ticks w)) /\
   fst (evaluateMacros C (js "{{roll:1d20}}") env varEscape w) =
     Z_to_js (droll_roll_total C (js "1d20") (ticks w)) /\
   (1 <= droll_roll_total C (js "1d20") (ticks w) <= 20)%Z) /\
  (fst (evaluateMacros C (js "{{roll:2d6}}") env varEscape w) =
     Z_to_js (droll_roll_total C (js "2d6") (ticks w)) /\
   (2 <= droll_roll_total C (js "2d6") (ticks w) <= 12)%Z).
Proof.
  intros Hin _ _ [V20 R20] [V6 R6].
  assert (Pass : forall digits placeholder esc w',
             isDigitsOnly digits = true ->
             diceRollReplace C (js "{{roll:" ++ digits ++ js "}}") placeholder esc w' =
             (if droll_validate C (js "1d" ++ digits)
              then (js_String (esc_call esc
                      (VString (Z_to_js (droll_roll_total C (js "1d" ++ digits)
                                           (ticks w'))))),
                    tick w')
              else (js_String placeholder, w'))).
  { intros digits placeholder esc w' Hd.
    destruct (isDigitsOnly_spec digits Hd) as [Hne Hall].
    rewrite diceRollReplace_directive
      by (try assumption; now apply digits_not_rbrace).
    now rewrite normalized_formula_digits. }
  assert (Eval : forall digits,
             isDigitsOnly digits = true ->
             droll_validate C (js "1d" ++ digits) = true ->
             fst (evaluateMacros C (js "{{roll:" ++ digits ++ js "}}") env varEscape w) =
             Z_to_js (droll_roll_total C (js "1d" ++ digits) (ticks w)) /\
             fst (evaluateMacros C (js "{{roll:1d" ++ digits ++ js "}}") env varEscape w) =
             Z_to_js (droll_roll_total C (js "1d" ++ digits) (ticks w))).
  { intros digits Hd Hv.
    destruct (isDigitsOnly_spec digits Hd) as [Hne Hall]. split.
    - pose proof (evaluateMacros_roll_directive C digits env varEscape w Hin Hne
                    (digits_not_rbrace digits Hall) (digits_lack_angle digits Hall)) as H.
      rewrite normalized_formula_digits, Hv in H by assumption.
      apply H. discriminate.
    - pose proof (evaluateMacros_roll_directive C (js "1d" ++ digits) env varEscape w
                    Hin) as H.
      rewrite normalized_formula_1d, Hv in H by assumption.
      change (js "{{roll:" ++ (js "1d" ++ digits) ++ js "}}")
        with (js "{{roll:1d" ++ digits ++ js "}}") in H.
      apply H.
      + discriminate.
      + change (js "1d" ++ digits) with (49%N :: 100%N :: digits).
        cbn [forallb]. rewrite digits_not_rbrace by assumption. reflexivity.
      + change (js "1d" ++ digits) with (49%N :: 100%N :: digits).
        cbn [lacks forallb]. fold (lacks 60%N digits).
        rewrite digits_lack_angle by assumption. reflexivity.
      + discriminate. }
  split; [ | split; [ | split; [ exact Eval | split ] ] ].
  - intros placeholder esc m w' digits Hd.
    assert (E : normalized_formula (capture_str (m_caps m) 1) = js "1d" ++ digits).
    { unfold normalized_formula. cbv zeta. fold digits. now rewrite Hd. }
    split; [ exact E | ].
    rewrite !roll_callback_formula. cbn [m_caps].
    change (capture_str [(1, js "1d" ++ digits)] 1) with (js "1d" ++ digits).
    rewrite E, normalized_formula_1d by assumption. split; reflexivity.
  - intros digits placeholder esc w' Hd. split; [ now apply Pass | ].
    destruct (isDigitsOnly_spec digits Hd) as [Hne Hall].
    rewrite Pass by assumption.
    change (js "{{roll:1d" ++ digits ++ js "}}")
      with (js "{{roll:" ++ (js "1d" ++ digits) ++ js "}}").
    rewrite diceRollReplace_directive.
    + now rewrite normalized_formula_1d.
    + discriminate.
    + change (js "1d" ++ digits) with (49%N :: 100%N :: digits).
      cbn [forallb]. rewrite digits_not_rbrace by assumption. reflexivity.
  - destruct (Eval (js "20") eq_refl V20) as [E1 E2].
    split; [ exact E1 | split; [ exact E2 | apply R20 ] ].
  - split; [ | apply R6 ].
    pose proof (evaluateMacros_roll_directive C (js "2d6") env varEscape w Hin) as H.
    change (normalized_formula (js "2d6")) with (js "2d6") in H.
    rewrite V6 in H. apply H; try reflexivity; discriminate.
Qed.

Lemma roll_digits_as_single_die_witness :
  (fst (evaluateMacros Sample.collaborators (js "{{roll:20}}") [] bracket_escape
          Sample.world) =
     Z_to_js (droll_roll_total Sample.collaborators (js "1d20") (ticks Sample.world)) /\
   fst (evaluateMacros Sample.collaborators (js "{{roll:1d20}}") [] bracket_escape
          Sample.world) =
     Z_to_js (droll_roll_total Sample.collaborators (js "1d20") (ticks Sample.world)) /\
   (1 <= droll_roll_total Sample.collaborators (js "1d20") (ticks Sample.world) <= 20)%Z) /\
  (fst (evaluateMacros Sample.collaborators (js "{{roll:2d6}}") [] bracket_escape
          Sample.world) =
     Z_to_js (droll_roll_total Sample.collaborators (js "2d6") (ticks Sample.world)) /\
   (2 <= droll_roll_total Sample.collaborators (js "2d6") (ticks Sample.world) <= 12)%Z).
Proof.
  exact (proj2 (proj2 (proj2 (roll_digits_as_single_die Sample.collaborators []
                  bracket_escape Sample.world sample_passes_inert eq_refl eq_refl
                  sample_rolls_1d20 sample_rolls_2d6)))).
Defined.

(** ** Texts that are one directive *)

Section DirectiveEvaluation.

Variable C : Collaborators.

Lemma floor_mul_one (u : UnitFloat) : floor_mul u 1 = 0.
Proof. pose proof (floor_mul_lt u 1). lia. Qed.

Lemma populateEnv_empty (env : EnvObject) (w : World) :
  macros w = [] -> populateEnv env (tick w) = env.
Proof. intros H. unfold populateEnv. cbn [macros tick]. now rewrite H. Qed.

(** The stages of the evaluation of a text that the legacy substitutions,
    the dice pass, the passes of the other modules and the simple
    substitutions leave as it is, with an empty [env] and nothing
    registered. *)
Lemma evaluateMacros_plain_stages (content c6 : JsString) (varEscape : EscapeFn)
  (w : World) :
  passes_keep C content -> macros w = [] ->
  content <> [] -> lacks 60%N content = true ->
  includes content (js "{{") = true ->
  diceRollReplace C content (escape_as_value varEscape) identity_escape w = (content, w) ->
  simpleSubstitutions C content varEscape w = content ->
  builtinSubstitutions C content varEscape (tick w) = c6 ->
  evaluateMacros C content [] varEscape w =
  (let '(content', w2) := bannedWordsReplace C c6 (tick w) in
   let '(content', w2) :=
     randomReplace C content' (escape_as_value varEscape) identity_escape w2 in
   let '(content', w2) :=
     pickReplace C content' content (escape_as_value varEscape) identity_escape w2 in
   (content', w2)).
Proof.
  intros Hk Hm Hne Hlt Hinc Hdice Hsimple Hbuiltin.
  apply (@evaluateMacros_stages C content content content content content content
           content c6 [] varEscape w w); try assumption.
  - apply legacySubstitutions_lacks. assumption.
  - exact (proj1 (Hk [] varEscape w)).
  - exact (proj2 (Hk [] varEscape w)).
  - rewrite populateEnv_empty by assumption. reflexivity.
Qed.

(** The pass of [random] on a text that is one directive with one item. *)
Lemma randomReplace_single (placeholder : JsVal) (w : World) :
  randomReplace C (js "{{random::a}}") placeholder identity_escape w =
  (js "a", tick w).
Proof.
  unfold randomReplace.
  rewrite (@replace_st_whole_match World (unicode_upper C) true 123%N randomPattern _
             (js "{{random::a}}") [(1, js "a")] w eq_refl eq_refl).
  - unfold random_callback. cbv zeta.
    change (parse_list C (capture_str (m_caps _) 1)) with [js "a"].
    cbn [length Nat.eqb]. rewrite floor_mul_one. reflexivity.
  - discriminate.
  - exact (rexec_randomPattern (unicode_upper C) true (js "a") [] ltac:(discriminate) eq_refl).
Qed.

(** The pass of [pick] on a text that is one directive with one item. *)
Lemma pickReplace_single (rawContent : JsString) (placeholder : JsVal) (w : World) :
  fst (pickReplace C (js "{{pick::a}}") rawContent placeholder identity_escape w) =
  js "a".
Proof.
  unfold pickReplace. destruct (getChatIdHash C w) as [h w']. cbn [fst].
  pose proof (@replace_fn_one_match (unicode_upper C) true 123%N eq_refl pickPattern
                (pick_callback C h (getStringHash C (VString rawContent)) placeholder
                   identity_escape)
                [] (js "{{pick::a}}") [] [(1, js "a")] eq_refl eq_refl eq_refl
                ltac:(discriminate)
                (rexec_pickPattern (unicode_upper C) true (js "a") []
                   ltac:(discriminate) eq_refl)) as H.
  cbn [app] in H. rewrite app_nil_r in H. rewrite H. rewrite app_nil_r.
  unfold pick_callback. cbv zeta.
  change (parse_list C (capture_str (m_caps _) 1)) with [js "a"].
  cbn [length Nat.eqb]. rewrite floor_mul_one. reflexivity.
Qed.

End DirectiveEvaluation.

(** ** Escaping of dice rolls and picks *)

(** C1 (fails on the code).  The values substituted for [roll], [random]
    and [pick] directives are not passed to the escaping function of the
    call: whatever that function is, a valid roll evaluates to the plain
    decimal notation of its total, and a [random] or [pick] directive with
    the one item [a] evaluates to the plain [a]. *)
Theorem rolls_and_picks_bypass_escape (C : Collaborators) (varEscape : EscapeFn)
  (w : World) :
  passes_inert C ->
  passes_keep C (js "{{random::a}}") -> passes_keep C (js "{{pick::a}}") ->
  droll_validate C (js "1d6") = true ->
  macros w = [] ->
  fst (evaluateMacros C (js "{{roll:1d6}}") [] varEscape w) =
    Z_to_js (droll_roll_total C (js "1d6") (ticks w)) /\
  fst (evaluateMacros C (js "{{random::a}}") [] varEscape w) = js "a" /\
  fst (evaluateMacros C (js "{{pick::a}}") [] varEscape w) = js "a".
Proof.
  intros Hin Hrandom Hpick Hvalid Hm. split; [ | split ].
  - pose proof (evaluateMacros_roll_directive C (js "1d6") [] varEscape w Hin) as H.
    change (normalized_formula (js "1d6")) with (js "1d6") in H.
    rewrite Hvalid in H. apply H; try reflexivity; discriminate.
  - assert (Hd : diceRollReplace C (js "{{random::a}}") (escape_as_value varEscape)
                   identity_escape w = (js "{{random::a}}", w))
      by (vm_compute; reflexivity).
    assert (Hs : simpleSubstitutions C (js "{{random::a}}") varEscape w
                 = js "{{random::a}}")
      by (unfold simpleSubstitutions; cbv zeta;
          destruct (esc_call varEscape (VString [10%N])); vm_compute; reflexivity).
    assert (Hb : builtinSubstitutions C (js "{{random::a}}") varEscape (tick w)
                 = js "{{random::a}}") by (vm_compute; reflexivity).
    rewrite (evaluateMacros_plain_stages C (js "{{random::a}}") (js "{{random::a}}")
               varEscape w Hrandom Hm ltac:(discriminate) eq_refl eq_refl Hd Hs Hb).
    rewrite bannedWordsReplace_unmatched by (vm_compute; reflexivity).
    replace (replace_str (unicode_upper C) true banPattern [] (js "{{random::a}}"))
      with (js "{{random::a}}") by (vm_compute; reflexivity).
    rewrite randomReplace_single.
    pose proof (pickReplace_lacks C (js "a") (js "{{random::a}}")
                  (escape_as_value varEscape) identity_escape (tick (tick w)) eq_refl) as P.
    destruct (pickReplace C (js "a") _ _ _ _) as [c' w']. exact P.
  - assert (Hd : diceRollReplace C (js "{{pick::a}}") (escape_as_value varEscape)
                   identity_escape w = (js "{{pick::a}}", w))
      by (vm_compute; reflexivity).
    assert (Hs : simpleSubstitutions C (js "{{pick::a}}") varEscape w
                 = js "{{pick::a}}")
      by (unfold simpleSubstitutions; cbv zeta;
          destruct (esc_call varEscape (VString [10%N])); vm_compute; reflexivity).
    assert (Hb : builtinSubstitutions C (js "{{pick::a}}") varEscape (tick w)
                 = js "{{pick::a}}") by (vm_compute; reflexivity).
    rewrite (evaluateMacros_plain_stages C (js "{{pick::a}}") (js "{{pick::a}}")
               varEscape w Hpick Hm ltac:(discriminate) eq_refl eq_refl Hd Hs Hb).
    rewrite bannedWordsReplace_unmatched by (vm_compute; reflexivity).
    replace (replace_str (unicode_upper C) true banPattern [] (js "{{pick::a}}"))
      with (js "{{pick::a}}") by (vm_compute; reflexivity).
    replace (randomReplace C (js "{{pick::a}}") (escape_as_value varEscape)
               identity_escape (tick w))
      with (js "{{pick::a}}", tick w) by (vm_compute; reflexivity).
    pose proof (pickReplace_single C (js "{{pick::a}}") (escape_as_value varEscape)
                  (tick w)) as P.
    destruct (pickReplace C (js "{{pick::a}}") _ _ _ _) as [c' w']. exact P.
Qed.

Lemma rolls_and_picks_bypass_escape_witness :
  fst (evaluateMacros Sample.collaborators (js "{{roll:1d6}}") [] bracket_escape
         Sample.world) = js "1" /\
  fst (evaluateMacros Sample.collaborators (js "{{random::a}}") [] bracket_escape
         Sample.world) = js "a" /\
  fst (evaluateMacros Sample.collaborators (js "{{pick::a}}") [] bracket_escape
         Sample.world) = js "a".
Proof.
  exact (rolls_and_picks_bypass_escape Sample.collaborators bracket_escape Sample.world
           sample_passes_inert (sample_passes_keep _) (sample_passes_keep _)
           eq_refl eq_refl).
Defined.

(** C4 (fails on the code).  For a formula that the dice library rejects,
    the directive is replaced by the source text of the escaping function
    of the call, which [evaluateMacros] hands to [diceRollReplace] in the
    place of the placeholder; with the default function the text is
    [x => x], not the empty string. *)
Theorem invalid_roll_yields_escape_source (C : Collaborators) (env : EnvObject)
  (varEscape : EscapeFn) (w : World) :
  passes_inert C ->
  droll_validate C (js "notaformula") = false ->
  lacks 123%N (esc_src varEscape) = true ->
  fst (evaluateMacros C (js "{{roll:notaformula}}") env varEscape w) = esc_src varEscape.
Proof.
  intros Hin Hinvalid Hsrc.
  pose proof (evaluateMacros_roll_directive C (js "notaformula") env varEscape w Hin) as H.
  change (normalized_formula (js "notaformula")) with (js "notaformula") in H.
  rewrite Hinvalid in H. apply H; try reflexivity; try discriminate.
  intros _. exact Hsrc.
Qed.

Lemma invalid_roll_yields_escape_source_witness :
  fst (evaluateMacros Sample.collaborators (js "{{roll:notaformula}}") []
         identity_escape Sample.world) = js "x => x".
Proof.
  exact (invalid_roll_yields_escape_source Sample.collaborators [] identity_escape
           Sample.world sample_passes_inert eq_refl eq_refl).
Defined.

(** ** The index of the current swipe *)

(** C9 (fails on the code).  For the last message of a chat,
    [getCurrentSwipeId] is its swipe index plus one when the index is a
    number and [null] when it is [null], but [NaN] when the message has no
    swipe index; with an empty chat it adds one to [undefined] as well, and
    the macro is replaced by [NaN], not by the empty string. *)
Theorem currentSwipeId_of_empty_chat (C : Collaborators) (w : World) :
  passes_keep C (js "{{currentSwipeId}}") ->
  chat w = [] -> macros w = [] ->
  (forall w' before m,
      chat w' = before ++ [m] ->
      getCurrentSwipeId w' =
      match swipe_id m with
      | SwipeNumber n => VNumber (Int (n + 1))
      | SwipeNull => VNull
      | SwipeUndefined => VNumber NaN
      end) /\
  getCurrentSwipeId w = VNumber NaN /\
  fst (evaluateMacros C (js "{{currentSwipeId}}") [] identity_escape w) = js "NaN".
Proof.
  intros Hk Hchat Hm.
  split.
  { intros w' before m H. unfold getCurrentSwipeId, getLastMessageId, chat_at.
    rewrite H, rev_app_distr. cbn [rev app getLastMessageId_loop andb].
    rewrite length_rev, nth_error_app2, Nat.sub_diag by lia. cbn [nth_error].
    now destruct (swipe_id m). }
  split; [ unfold getCurrentSwipeId, getLastMessageId; now rewrite Hchat | ].
  assert (Hd : diceRollReplace C (js "{{currentSwipeId}}")
                 (escape_as_value identity_escape) identity_escape w
               = (js "{{currentSwipeId}}", w)) by (vm_compute; reflexivity).
  assert (Hs : simpleSubstitutions C (js "{{currentSwipeId}}") identity_escape w
               = js "{{currentSwipeId}}") by (vm_compute; reflexivity).
  assert (Hb : builtinSubstitutions C (js "{{currentSwipeId}}") identity_escape (tick w)
               = js "NaN").
  { destruct w; cbn [chat] in Hchat; subst. vm_compute. reflexivity. }
  rewrite (evaluateMacros_plain_stages C (js "{{currentSwipeId}}") (js "NaN")
             identity_escape w Hk Hm ltac:(discriminate) eq_refl eq_refl Hd Hs Hb).
  apply final_passes_lacks. reflexivity.
Qed.

Lemma currentSwipeId_of_empty_chat_witness :
  getCurrentSwipeId Sample.world = VNumber NaN /\
  fst (evaluateMacros Sample.collaborators (js "{{currentSwipeId}}") []
         identity_escape Sample.world) = js "NaN".
Proof.
  exact (proj2 (currentSwipeId_of_empty_chat Sample.collaborators Sample.world
                  (sample_passes_keep _) eq_refl eq_refl)).
Defined.

(** ** Registered macros and the environment *)

Lemma entries_get_set_same (m : Entries) (key : JsString) (v : JsVal) :
  entries_get (entries_set m key v) key = v.
Proof.
  induction m as [ | [k v0] m IH ]; simpl.
  - now rewrite str_eqb_refl.
  - destruct (str_eqb k key) eqn:E; simpl; now rewrite E.
Qed.

Lemma entries_get_set_other (m : Entries) (key k : JsString) (v : JsVal) :
  k <> key -> entries_get (entries_set m key v) k = entries_get m k.
Proof.
  intros Hk. induction m as [ | [k0 v0] m IH ]; simpl.
  - destruct (str_eqb key k) eqn:E; [ | reflexivity ].
    apply str_eqb_eq in E. congruence.
  - destruct (str_eqb k0 key) eqn:E; simpl.
    + apply str_eqb_eq in E. subst k0.
      destruct (str_eqb key k) eqn:F; [ | reflexivity ].
      apply str_eqb_eq in F. congruence.
    + now rewrite IH.
Qed.

Lemma fold_set_other (l : Entries) (env : EnvObject) (key : JsString) :
  ~ In key (map fst l) ->
  entries_get (fold_left (fun env kv => entries_set env (fst kv) (snd kv)) l env) key =
  entries_get env key.
Proof.
  revert env. induction l as [ | [k v] l IH ]; intros env Hk; simpl; [ reflexivity | ].
  simpl in Hk. rewrite IH by tauto.
  apply entries_get_set_other. intros E. apply Hk. now left.
Qed.


(** ** The seed of a pick *)

(** C2 (as amended).  Every match of the [pick] pattern in the text that
    the pass is given is replaced by the item that the generator seeded
    with [hash(chatIdHash-hash(rawContent)-offset)] selects, [offset]
    being the offset that [replace] reports for the match.  That is the
    place of the directive in the text given to the pass, not in the raw
    content: in a text with one directive, after a part [pre] and before a
    part [post] that have no opening brace, it is the length of [pre].
    Hence two runs of the pass on the same text with the same raw content
    and the same chat-id hash give the same text. *)
Theorem pick_seed_uses_offset_in_processed_text (C : Collaborators)
  (pre body post rawContent : JsString) (placeholder : JsVal)
  (varEscape : EscapeFn) (w : World) :
  lacks 123%N pre = true -> lacks 123%N post = true ->
  body <> [] -> forallb not_rbrace body = true ->
  (let chatIdHash := fst (getChatIdHash C w) in
   let rawContentHash := getStringHash C (VString rawContent) in
   let list := parse_list C body in
   let finalSeed :=
     getStringHash C
       (VString (combinedSeedString chatIdHash rawContentHash (length pre))) in
   fst (pickReplace C (pre ++ js "{{pick::" ++ body ++ js "}}" ++ post)
          rawContent placeholder varEscape w) =
   pre ++ js_String (esc_call varEscape
                       (list_at list (floor_mul (seedrandom C finalSeed) (length list))))
       ++ post) /\
  (forall input,
      fst (pickReplace C input rawContent placeholder varEscape w) =
      replace_fn (unicode_upper C) true pickPattern
        (fun m =>
           let list := parse_list C (capture_str (m_caps m) 1) in
           let finalSeed :=
             getStringHash C
               (VString (combinedSeedString (fst (getChatIdHash C w))
                           (getStringHash C (VString rawContent)) (m_offset m))) in
           js_String (esc_call varEscape
                        (list_at list (floor_mul (seedrandom C finalSeed) (length list)))))
        input) /\
  (forall input w',
      fst (getChatIdHash C w') = fst (getChatIdHash C w) ->
      fst (pickReplace C input rawContent placeholder varEscape w') =
      fst (pickReplace C input rawContent placeholder varEscape w)).
Proof.
  intros Hpre Hpost Hne Hbody. split; [ | split ].
  - cbv zeta. unfold pickReplace. destruct (getChatIdHash C w) as [h w1]. cbn [fst].
    pose proof (@replace_fn_one_match (unicode_upper C) true 123%N eq_refl pickPattern
                  (pick_callback C h (getStringHash C (VString rawContent)) placeholder
                     varEscape)
                  pre (js "{{pick::" ++ body ++ js "}}") post [(1, body)]
                  eq_refl Hpre Hpost ltac:(discriminate)) as H.
    rewrite <- !app_assoc in H.
    rewrite (H (rexec_pickPattern (unicode_upper C) true body post Hne Hbody)).
    f_equal. f_equal.
    unfold pick_callback. cbv zeta. cbn [m_caps m_offset capture_str capture Nat.eqb js_String].
    pose proof (parse_list_not_nil C body) as Hl.
    destruct (parse_list C body) as [ | item items ]; [ congruence | reflexivity ].
  - intros input. unfold pickReplace. destruct (getChatIdHash C w) as [h w1].
    cbn [fst]. apply replace_fn_ext. intros m. unfold pick_callback. cbv zeta.
    pose proof (parse_list_not_nil C (capture_str (m_caps m) 1)) as Hl.
    destruct (parse_list C (capture_str (m_caps m) 1)) as [ | item items ];
      [ congruence | reflexivity ].
  - intros input w' E. unfold pickReplace.
    destruct (getChatIdHash C w') as [h' w1']. destruct (getChatIdHash C w) as [h w1].
    cbn [fst] in *. now subst.
Qed.

Lemma pick_seed_uses_offset_in_processed_text_witness :
  fst (pickReplace Sample.collaborators (js "Al" ++ js "{{pick::" ++ js "a,b,c" ++ js "}}" ++ [])
         (js "<USER>{{pick::a,b,c}}") VUndefined identity_escape Sample.world) =
  js "Al" ++ js "a" ++ [].
Proof.
  exact (proj1 (pick_seed_uses_offset_in_processed_text Sample.collaborators
                  (js "Al") (js "a,b,c") [] (js "<USER>{{pick::a,b,c}}") VUndefined
                  identity_escape Sample.world eq_refl eq_refl ltac:(discriminate) eq_refl)).
Defined.

(** C2, the claim as stated fails.  The directive stands at offset 6 of
    the raw content [<USER>{{pick::a,b,c}}].  With the user name [Al] the
    pass meets it at offset 2 and seeds the generator with that offset,
    with the name [Bob] at offset 3: the two evaluations of the same raw
    content in the same chat differ in the item they pick, and the first
    differs from the item that the seed with offset 6 selects. *)
Lemma pick_offset_is_not_that_of_the_raw_content :
  let raw := js "<USER>{{pick::a,b,c}}" in
  let S := Sample.collaborators in
  let chatIdHash := fst (getChatIdHash S Sample.world) in
  let picked offset :=
    pick_callback S chatIdHash (getStringHash S (VString raw)) VUndefined identity_escape
      {| m_text := js "{{pick::a,b,c}}"; m_caps := [(1, js "a,b,c")];
         m_offset := offset; m_input := raw |} in
  map m_offset (match_all (unicode_upper S) true pickPattern raw) = [6] /\
  fst (evaluateMacros S raw [(js "user", VString (js "Al"))] identity_escape Sample.world)
    = js "Al" ++ picked 2 /\
  fst (evaluateMacros S raw [(js "user", VString (js "Bob"))] identity_escape Sample.world)
    = js "Bob" ++ picked 3 /\
  picked 2 = js "a" /\ picked 3 = js "b" /\ picked 6 = js "b" /\
  combinedSeedString chatIdHash (getStringHash S (VString raw)) 2
    <> combinedSeedString chatIdHash (getStringHash S (VString raw)) 6.
Proof. vm_compute. repeat split; try reflexivity. discriminate. Qed.

(* ================================================================== *)
(** * Further properties of the registry *)

Lemma trimStart_split (s : JsString) :
  exists p, s = p ++ trimStart s /\ forallb is_whitespace p = true.
Proof.
  induction s as [ | c s [p [E Hp]] ].
  - exists []. split; reflexivity.
  - cbn [trimStart]. destruct (is_whitespace c) eqn:Hc.
    + exists (c :: p). split; [ cbn [app]; congruence | cbn [forallb]; now rewrite Hc ].
    + exists []. split; reflexivity.
Qed.

Lemma trimStart_fixed (s : JsString) :
  match s with [] => True | c :: _ => is_whitespace c = false end ->
  trimStart s = s.
Proof.
  destruct s as [ | c s ]; [ reflexivity | ].
  intros H. cbn [trimStart]. now rewrite H.
Qed.

Lemma trimStart_head_kept (s : JsString) :
  match trimStart s with [] => True | c :: _ => is_whitespace c = false end.
Proof.
  induction s as [ | c s IH ]; [ exact I | ].
  cbn [trimStart]. destruct (is_whitespace c) eqn:Hc; [ exact IH | exact Hc ].
Qed.

(** Trimming leaves nothing to trim. *)
Lemma trim_idempotent (s : JsString) : trim (trim s) = trim s.
Proof.
  unfold trim.
  set (t := trimStart s). set (u := trimStart (rev t)).
  assert (Hu : match u with [] => True | c :: _ => is_whitespace c = false end)
    by apply trimStart_head_kept.
  assert (Ht : match t with [] => True | c :: _ => is_whitespace c = false end)
    by apply trimStart_head_kept.
  assert (Hru : trimStart (rev u) = rev u).
  { apply trimStart_fixed.
    destruct (trimStart_split (rev t)) as [p [E _]]. fold u in E.
    assert (E' : t = rev u ++ rev p).
    { rewrite <- (rev_involutive t), E, rev_app_distr. reflexivity. }
    destruct (rev u) as [ | c ru ] eqn:Eru; [ exact I | ].
    rewrite E' in Ht. exact Ht. }
  rewrite Hru, rev_involutive. f_equal. now apply trimStart_fixed.
Qed.

Lemma entries_has_set_same (m : Entries) (key : JsString) (v : JsVal) :
  entries_has (entries_set m key v) key = true.
Proof.
  induction m as [ | [k v0] m IH ]; simpl.
  - now rewrite str_eqb_refl.
  - destruct (str_eqb k key) eqn:E; simpl; rewrite E; [ reflexivity | exact IH ].
Qed.

Lemma entries_set_keys (m : Entries) (key : JsString) (v : JsVal) :
  map fst (entries_set m key v) =
  if entries_has m key then map fst m else map fst m ++ [key].
Proof.
  induction m as [ | [k v0] m IH ]; simpl; [ reflexivity | ].
  destruct (str_eqb k key) eqn:E; simpl; [ reflexivity | ].
  rewrite IH. now destruct (entries_has m key).
Qed.

Lemma entries_delete_set_absent (m : Entries) (key : JsString) (v : JsVal) :
  entries_has m key = false -> entries_delete (entries_set m key v) key = m.
Proof.
  induction m as [ | [k v0] m IH ]; simpl; intros H.
  - now rewrite str_eqb_refl.
  - apply orb_false_elim in H as [Hk Hm]. rewrite Hk. simpl. rewrite Hk.
    now rewrite IH.
Qed.

Lemma entries_set_Forall (P : JsString * JsVal -> Prop) (m : Entries)
  (key : JsString) (v : JsVal) :
  Forall P m -> P (key, v) -> (forall k v0, P (k, v0) -> k = key -> P (k, v)) ->
  Forall P (entries_set m key v).
Proof.
  intros Hm Hkv Hrepl. induction Hm as [ | [k v0] m Hx Hm IH ]; simpl.
  - now constructor.
  - destruct (str_eqb k key) eqn:E.
    + constructor; [ | assumption ]. apply str_eqb_eq in E. eapply Hrepl; eauto.
    + constructor; assumption.
Qed.

Lemma entries_delete_incl (m : Entries) (key : JsString) :
  forall kv, In kv (entries_delete m key) -> In kv m.
Proof.
  induction m as [ | [k v] m IH ]; simpl; intros kv H; [ contradiction | ].
  destruct (str_eqb k key); [ now right | ].
  destruct H as [H | H]; [ now left | right; now apply IH ].
Qed.

Lemma entries_delete_NoDup (m : Entries) (key : JsString) :
  NoDup (map fst m) -> NoDup (map fst (entries_delete m key)).
Proof.
  induction m as [ | [k v] m IH ]; simpl; intros H; [ constructor | ].
  inversion H as [ | ? ? Hk Hm ]; subst.
  destruct (str_eqb k key); [ assumption | ].
  simpl. constructor; [ | now apply IH ].
  intros Hin. apply Hk. apply in_map_iff in Hin as [kv [E Hin]].
  apply in_map_iff. exists kv. split; [ exact E | ].
  eapply entries_delete_incl; eassumption.
Qed.

(** What an accepted registration tells about the key. *)
Lemma registerMacro_Ok_inv (key value : JsVal) (w w' : World) :
  registerMacro key value w = Ok w' ->
  exists s,
    key = VString s /\ trim s <> [] /\
    startsWith (trim s) (js "{{") = false /\ endsWith (trim s) (js "}}") = false /\
    w' = set_macros (entries_set (macros w) (trim s) (stored_value value)) w.
Proof.
  destruct key as [ | | ? | ? | s | ? ? | | ? ? | ? ? ]; try discriminate.
  unfold registerMacro. destruct (trim s) as [ | c t ] eqn:Et; [ discriminate | ].
  destruct (startsWith (c :: t) (js "{{")) eqn:Es; [ discriminate | ].
  destruct (endsWith (c :: t) (js "}}")) eqn:Ee; [ discriminate | ].
  cbn [orb]. intros H. injection H as <-.
  exists s. rewrite Et. repeat split; try assumption; try discriminate.
Qed.

(** X1.  After a registration that succeeds, looking up the trimmed key
    gives the value as it is stored (the value itself when it is a string
    or a function, its sanitized text otherwise); every other key has the
    value it had, and nothing but the registry has changed. *)
Theorem registerMacro_then_lookup (key value : JsVal) (w w' : World) :
  registerMacro key value w = Ok w' ->
  exists s,
    key = VString s /\
    entries_has (macros w') (trim s) = true /\
    entries_get (macros w') (trim s) = stored_value value /\
    (forall k, k <> trim s -> entries_get (macros w') k = entries_get (macros w) k) /\
    w' = set_macros (macros w') w.
Proof.
  intros H. destruct (registerMacro_Ok_inv key value w w' H) as [s [-> [_ [_ [_ ->]]]]].
  exists s. destruct w; cbn [macros set_macros].
  repeat split.
  - apply entries_has_set_same.
  - apply entries_get_set_same.
  - intros k Hk. now apply entries_get_set_other.
Qed.

Lemma registerMacro_then_lookup_witness :
  exists s,
    VString (js " foo ") = VString s /\
    entries_has (macros (set_macros [(js "foo", VString (js "42"))] Sample.world))
      (trim s) = true /\
    entries_get (macros (set_macros [(js "foo", VString (js "42"))] Sample.world))
      (trim s) = stored_value (VNumber (Int 42)) /\
    (forall k, k <> trim s ->
       entries_get (macros (set_macros [(js "foo", VString (js "42"))] Sample.world)) k
       = entries_get (macros Sample.world) k) /\
    set_macros [(js "foo", VString (js "42"))] Sample.world =
    set_macros (macros (set_macros [(js "foo", VString (js "42"))] Sample.world))
      Sample.world.
Proof.
  exact (registerMacro_then_lookup (VString (js " foo ")) (VNumber (Int 42))
           Sample.world _ eq_refl).
Defined.

(** X2.  The registry stays well formed: starting from a well-formed
    registry (the empty one is), every registration and every removal that
    succeeds leaves distinct keys, each trimmed, not empty and without
    surrounding braces, and values that are strings or functions. *)
Theorem registry_stays_well_formed (w : World) :
  registry_ok (macros w) ->
  registry_ok [] /\
  (forall key value w', registerMacro key value w = Ok w' -> registry_ok (macros w')) /\
  (forall key w', unregisterMacro key w = Ok w' -> registry_ok (macros w')).
Proof.
  intros [Hnd Hall]. split; [ | split ].
  - split; constructor.
  - intros key value w' H.
    destruct (registerMacro_Ok_inv key value w w' H) as [s [-> [Hne [Hs [He ->]]]]].
    destruct w; cbn [macros set_macros] in *. split.
    + rewrite entries_set_keys. destruct (entries_has macros0 (trim s)) eqn:Eh;
        [ assumption | ].
      apply NoDup_app; [ assumption | repeat constructor; intros [] | ].
      intros k Hin [<- | []]. apply entries_has_In in Hin. congruence.
    + apply entries_set_Forall; [ assumption | | ].
      * cbn [fst snd]. split; [ | now destruct value ].
        repeat split; try assumption. apply trim_idempotent.
      * intros k v0 [Hk _] _. cbn [fst snd] in *. split; [ assumption | ].
        now destruct value.
  - intros key w' H.
    destruct key as [ | | ? | ? | s | ? ? | | ? ? | ? ? ]; try discriminate.
    unfold unregisterMacro in H. destruct (trim s) as [ | c t ]; [ discriminate | ].
    injection H as <-. destruct w; cbn [macros set_macros] in *. split.
    + now apply entries_delete_NoDup.
    + apply Forall_forall. intros kv Hin.
      apply entries_delete_incl in Hin. revert kv Hin. now apply Forall_forall.
Qed.

Lemma registry_stays_well_formed_witness :
  registry_ok [] /\
  (forall key value w',
      registerMacro key value Sample.world = Ok w' -> registry_ok (macros w')) /\
  (forall key w', unregisterMacro key Sample.world = Ok w' -> registry_ok (macros w')).
Proof.
  exact (registry_stays_well_formed Sample.world
           (conj (NoDup_nil _) (Forall_nil _))).
Defined.

(** X3.  Registering a key that the registry does not hold and then
    unregistering it gives the state of before; registering a key that the
    registry holds keeps the keys and their order, and a new key goes
    last. *)
Theorem registerMacro_unregisterMacro_round_trip (key value : JsVal) (w w1 : World) :
  registerMacro key value w = Ok w1 ->
  exists s,
    key = VString s /\
    (entries_has (macros w) (trim s) = false ->
     unregisterMacro key w1 = Ok w /\
     map fst (macros w1) = map fst (macros w) ++ [trim s]) /\
    (entries_has (macros w) (trim s) = true ->
     map fst (macros w1) = map fst (macros w)).
Proof.
  intros H.
  destruct (registerMacro_Ok_inv key value w w1 H) as [s [-> [Hne [_ [_ ->]]]]].
  exists s. split; [ reflexivity | ].
  destruct w; cbn [macros set_macros]. split; intros Hh.
  - split.
    + unfold unregisterMacro. destruct (trim s) as [ | c t ] eqn:Et; [ congruence | ].
      cbn [macros set_macros]. now rewrite entries_delete_set_absent.
    + now rewrite entries_set_keys, Hh.
  - now rewrite entries_set_keys, Hh.
Qed.

Lemma registerMacro_unregisterMacro_round_trip_witness :
  exists s,
    VString (js "bar") = VString s /\
    (entries_has (macros Sample.two_macros) (trim s) = false ->
     unregisterMacro (VString (js "bar"))
       (set_macros (macros Sample.two_macros ++ [(js "bar", VString (js "x"))])
          Sample.world) = Ok Sample.two_macros /\
     map fst (macros (set_macros
                        (macros Sample.two_macros ++ [(js "bar", VString (js "x"))])
                        Sample.world)) =
     map fst (macros Sample.two_macros) ++ [trim s]) /\
    (entries_has (macros Sample.two_macros) (trim s) = true ->
     map fst (macros (set_macros
                        (macros Sample.two_macros ++ [(js "bar", VString (js "x"))])
                        Sample.world)) =
     map fst (macros Sample.two_macros)).
Proof.
  exact (registerMacro_unregisterMacro_round_trip (VString (js "bar"))
           (VString (js "x")) Sample.two_macros _ eq_refl).
Defined.

(* ================================================================== *)
(** * Further properties of the environment and of the chat *)

Lemma entries_has_set_other (m : Entries) (key k : JsString) (v : JsVal) :
  entries_has m k = true -> entries_has (entries_set m key v) k = true.
Proof.
  induction m as [ | [k0 v0] m IH ]; simpl; [ discriminate | ].
  intros H. destruct (str_eqb k0 key) eqn:E; simpl.
  - apply orb_prop in H as [H | H]; rewrite H; [ reflexivity | apply orb_true_r ].
  - apply orb_prop in H as [H | H]; [ now rewrite H | ].
    rewrite IH by assumption. apply orb_true_r.
Qed.

Lemma fold_set_keys (l : Entries) (env : EnvObject) :
  exists added,
    map fst (fold_left (fun env kv => entries_set env (fst kv) (snd kv)) l env) =
    map fst env ++ added /\
    forall k, In k added -> entries_has env k = false /\ entries_has l k = true.
Proof.
  revert env. induction l as [ | [k v] l IH ]; intros env.
  - exists []. rewrite app_nil_r. split; [ reflexivity | intros k [] ].
  - cbn [fold_left fst snd]. destruct (IH (entries_set env k v)) as [added [E H]].
    rewrite E, entries_set_keys. destruct (entries_has env k) eqn:Eh.
    + exists added. split; [ reflexivity | ].
      intros k' Hin. destruct (H k' Hin) as [H1 H2]. split.
      * destruct (entries_has env k') eqn:E'; [ | reflexivity ].
        rewrite entries_has_set_other in H1 by assumption. discriminate.
      * cbn [entries_has]. rewrite H2. apply orb_true_r.
    + exists (k :: added). rewrite <- app_assoc. split; [ reflexivity | ].
      intros k' [<- | Hin].
      * split; [ assumption | ]. cbn [entries_has]. now rewrite str_eqb_refl.
      * destruct (H k' Hin) as [H1 H2]. split.
        -- destruct (entries_has env k') eqn:E'; [ | reflexivity ].
           rewrite entries_has_set_other in H1 by assumption. discriminate.
        -- cbn [entries_has]. rewrite H2. apply orb_true_r.
Qed.

(** X4.  [populateEnv] touches only the registered names: a name that is
    not registered has in [env] the value it had, the keys that [env] had
    keep their places, the keys that come after them are registered names
    that [env] did not have, and with nothing registered [env] is
    unchanged. *)
Theorem populateEnv_keeps_the_rest (env : EnvObject) (w : World) :
  (forall key,
      entries_has (macros w) key = false ->
      entries_get (populateEnv env w) key = entries_get env key) /\
  (exists added,
      map fst (populateEnv env w) = map fst env ++ added /\
      forall k, In k added ->
                entries_has env k = false /\ entries_has (macros w) k = true) /\
  (macros w = [] -> populateEnv env w = env).
Proof.
  unfold populateEnv. split; [ | split ].
  - intros key H. destruct (macros w) as [ | kv l ] eqn:E; [ reflexivity | ].
    apply fold_set_other. intros Hin. apply entries_has_In in Hin. congruence.
  - destruct (macros w) as [ | kv l ] eqn:E.
    + exists []. rewrite app_nil_r. split; [ reflexivity | intros k [] ].
    + apply fold_set_keys.
  - intros H. now rewrite H.
Qed.

(** X5.  [getChatIdHash] caches: a second call returns the hash of the
    first and changes nothing more.  The first call changes at most the
    cached hash; a truthy cached hash is returned as it is, and otherwise
    the hash is that of the main chat when the metadata name one and of
    the current chat id when they do not. *)
Theorem getChatIdHash_caches (C : Collaborators) (w : World) :
  getChatIdHash C (snd (getChatIdHash C w)) = getChatIdHash C w /\
  snd (getChatIdHash C w) = set_chat_id_hash (chat_id_hash (snd (getChatIdHash C w))) w /\
  (js_truthy (chat_id_hash w) = true -> getChatIdHash C w = (chat_id_hash w, w)) /\
  (js_truthy (chat_id_hash w) = false ->
   fst (getChatIdHash C w) =
   VNumber (Int (getStringHash C
                   (match main_chat w with
                    | VUndefined | VNull => currentChatId w
                    | chatId => chatId
                    end))) /\
   chat_id_hash (snd (getChatIdHash C w)) = fst (getChatIdHash C w)).
Proof.
  unfold getChatIdHash. destruct (js_truthy (chat_id_hash w)) eqn:Et; cbn [negb fst snd].
  - rewrite Et. cbn [negb].
    split; [ reflexivity | split; [ destruct w; reflexivity | ] ].
    split; [ reflexivity | discriminate ].
  - split; [ | split; [ destruct w; reflexivity | ] ].
    + destruct w; cbn [chat_id_hash set_chat_id_hash main_chat currentChatId js_truthy].
      match goal with |- (if ?b then _ else _) = _ => destruct b end; reflexivity.
    + split; [ discriminate | intros _ ].
      split; [ unfold nullish; destruct (main_chat w); reflexivity | ].
      destruct w; reflexivity.
Qed.

Lemma getLastMessageId_loop_spec (ex : bool) (filter : option (Message -> bool))
  (rchat : list Message) :
  match getLastMessageId_loop ex filter rchat with
  | Some i =>
      exists later m earlier,
        rchat = later ++ m :: earlier /\ i = length earlier /\
        message_accepted ex filter m = true /\
        Forall (fun m' => message_accepted ex filter m' = false) later
  | None => Forall (fun m' => message_accepted ex filter m' = false) rchat
  end.
Proof.
  induction rchat as [ | message before IH ]; [ constructor | ].
  cbn [getLastMessageId_loop].
  change (match swipes message with
          | Some sw =>
              match swipe_id message with
              | SwipeUndefined => false
              | SwipeNull => (Z.of_nat (length sw) <=? 0)%Z
              | SwipeNumber n => (Z.of_nat (length sw) <=? n)%Z
              end
          | None => false
          end) with (swipe_in_progress message).
  assert (Hacc : message_accepted ex filter message =
                 negb (ex && swipe_in_progress message)
                 && match filter with None => true | Some f => f message end)
    by reflexivity.
  destruct (ex && swipe_in_progress message) eqn:E1; cbn [negb andb] in Hacc.
  - destruct (getLastMessageId_loop ex filter before) as [ i | ].
    + destruct IH as [later [m [earlier [E [Ei [Hm Hl]]]]]].
      exists (message :: later), m, earlier. subst before.
      repeat split; try assumption. now constructor.
    + now constructor.
  - destruct (match filter with None => true | Some f => f message end) eqn:E2.
    + exists [], message, before. repeat split; [ assumption | constructor ].
    + destruct (getLastMessageId_loop ex filter before) as [ i | ].
      * destruct IH as [later [m [earlier [E [Ei [Hm Hl]]]]]].
        exists (message :: later), m, earlier. subst before.
        repeat split; try assumption. now constructor.
      * now constructor.
Qed.

(** The last accepted message of the chat, by cases on the result of
    [getLastMessageId]. *)
Lemma getLastMessageId_cases (ex : bool) (filter : option (Message -> bool))
  (w : World) :
  match getLastMessageId ex filter w with
  | Some i =>
      (exists m, nth_error (chat w) i = Some m /\ message_accepted ex filter m = true) /\
      (forall j m', i < j -> nth_error (chat w) j = Some m' ->
                    message_accepted ex filter m' = false)
  | None =>
      forall j m', nth_error (chat w) j = Some m' ->
                   message_accepted ex filter m' = false
  end.
Proof.
  unfold getLastMessageId.
  pose proof (getLastMessageId_loop_spec ex filter (rev (chat w))) as H.
  destruct (getLastMessageId_loop ex filter (rev (chat w))) as [ i | ].
  - destruct H as [later [m [earlier [E [Ei [Hm Hl]]]]]].
    assert (Ec : chat w = rev earlier ++ m :: rev later).
    { rewrite <- (rev_involutive (chat w)), E, rev_app_distr. cbn [rev].
      now rewrite <- app_assoc. }
    split.
    + exists m. split; [ | assumption ].
      rewrite Ec, nth_error_app2 by (rewrite length_rev; lia).
      rewrite length_rev, Ei, Nat.sub_diag. reflexivity.
    + intros j m' Hj Hn. rewrite Ec in Hn.
      rewrite nth_error_app2 in Hn by (rewrite length_rev; lia).
      rewrite length_rev in Hn.
      destruct (j - length earlier) as [ | n ] eqn:En; [ lia | ].
      cbn [nth_error] in Hn. apply nth_error_In, in_rev in Hn.
      revert m' Hn. now apply Forall_forall.
  - intros j m' Hn. apply nth_error_In, in_rev in Hn.
    revert m' Hn. now apply Forall_forall.
Qed.

(** X6.  [getLastMessageId] returns the index of the last message of the
    chat that is accepted (it passes the filter, and is not being swiped
    when such messages are to be skipped): it returns [i] exactly when the
    message at index [i] is accepted and no message after it is, and it
    returns [null] exactly when no message of the chat is accepted, as in
    an empty chat. *)
Theorem getLastMessageId_is_last_accepted (ex : bool)
  (filter : option (Message -> bool)) (w : World) :
  (forall i,
      getLastMessageId ex filter w = Some i <->
      (exists m, nth_error (chat w) i = Some m /\ message_accepted ex filter m = true) /\
      (forall j m', i < j -> nth_error (chat w) j = Some m' ->
                    message_accepted ex filter m' = false)) /\
  (getLastMessageId ex filter w = None <->
   forall j m', nth_error (chat w) j = Some m' ->
                message_accepted ex filter m' = false).
Proof.
  pose proof (getLastMessageId_cases ex filter w) as H.
  destruct (getLastMessageId ex filter w) as [ i0 | ].
  - destruct H as [[m0 [Hn0 Ha0]] Hlast0]. split.
    + intros i. split.
      * intros E. injection E as <-. split; [ now exists m0 | exact Hlast0 ].
      * intros [[m [Hn Ha]] Hlast]. f_equal.
        destruct (Nat.lt_trichotomy i0 i) as [Hlt | [Heq | Hgt]].
        -- rewrite (Hlast0 i m Hlt Hn) in Ha. discriminate.
        -- exact Heq.
        -- rewrite (Hlast i0 m0 Hgt Hn0) in Ha0. discriminate.
    + split; [ discriminate | ].
      intros Hall. rewrite (Hall i0 m0 Hn0) in Ha0. discriminate.
  - split.
    + intros i. split; [ discriminate | ].
      intros [[m [Hn Ha]] _]. rewrite (H i m Hn) in Ha. discriminate.
    + split; [ intros _; exact H | reflexivity ].
Qed.

(** X7.  The text of [lastMessage], [lastUserMessage] and
    [lastCharMessage]: the [mes] of a message of the chat that is not
    being swiped and that is, for the last two, not a system message and
    sent by the user, respectively not sent by the user; the empty text
    when that message has no [mes], and when the chat has no such message
    at all.  It is never [undefined] or [null]. *)
Theorem last_message_texts (w : World) :
  let text_of (filter : option (Message -> bool)) (result : JsVal) :=
    ((exists i m,
         nth_error (chat w) i = Some m /\ message_accepted true filter m = true /\
         (forall j m', i < j -> nth_error (chat w) j = Some m' ->
                       message_accepted true filter m' = false) /\
         result = match mes m with
                  | VUndefined | VNull => VString []
                  | text => text
                  end) \/
     ((forall m, In m (chat w) -> message_accepted true filter m = false) /\
      result = VString [])) /\
    result <> VUndefined /\ result <> VNull in
  text_of None (getLastMessage w) /\
  text_of (Some (fun m => is_user m && negb (is_system m))) (getLastUserMessage w) /\
  text_of (Some (fun m => negb (is_user m) && negb (is_system m)))
          (getLastCharMessage w).
Proof.
  assert (L : forall filter,
             let result := mes_or_empty w (getLastMessageId true filter w) in
             ((exists i m,
                  nth_error (chat w) i = Some m /\ message_accepted true filter m = true /\
                  (forall j m', i < j -> nth_error (chat w) j = Some m' ->
                                message_accepted true filter m' = false) /\
                  result = match mes m with
                           | VUndefined | VNull => VString []
                           | text => text
                           end) \/
              ((forall m, In m (chat w) -> message_accepted true filter m = false) /\
               result = VString [])) /\
             result <> VUndefined /\ result <> VNull).
  { intros filter. cbv zeta. unfold mes_or_empty, chat_at.
    pose proof (getLastMessageId_cases true filter w) as H.
    destruct (getLastMessageId true filter w) as [ i | ].
    - destruct H as [[m [Hn Ha]] Hlast]. rewrite Hn. split.
      + left. exists i, m.
        split; [ assumption | split; [ assumption | split; [ assumption | ] ] ].
        unfold nullish. destruct (mes m); reflexivity.
      + unfold nullish. destruct (mes m); split; discriminate.
    - split; [ | split; discriminate ].
      right. split; [ | reflexivity ].
      intros m Hin. apply In_nth_error in Hin as [j Hj]. exact (H j m Hj). }
  cbv zeta. split; [ exact (L None) | split ].
  - exact (L (Some (fun m => is_user m && negb (is_system m)))).
  - exact (L (Some (fun m => negb (is_user m) && negb (is_system m)))).
Qed.

(* ================================================================== *)
(** * The time since the last message *)

(** The message that the loop of [getTimeSinceLastMessage] stops at. *)
Lemma idle_loop_some (rchat : list Message) :
  forall takeNext m,
    idle_loop rchat takeNext = Some m ->
    is_user m = true /\ is_system m = false /\
    exists later earlier,
      rchat = later ++ m :: earlier /\
      if takeNext
      then Forall (fun x => is_system x || negb (is_user x) = true) later
      else exists sys l mid,
          later = sys ++ l :: mid /\
          Forall (fun x => is_system x = true) sys /\
          is_system l = false /\
          Forall (fun x => is_system x || negb (is_user x) = true) mid.
Proof.
  induction rchat as [ | x r IH ]; intros takeNext m H; [ discriminate | ].
  cbn [idle_loop] in H. destruct (is_system x) eqn:Es.
  - destruct (IH _ _ H) as [Hu [Hs [later [earlier [E Hl]]]]].
    split; [ assumption | split; [ assumption | ] ].
    exists (x :: later), earlier. split; [ now rewrite E | ].
    destruct takeNext.
    + constructor; [ now rewrite Es | assumption ].
    + destruct Hl as [sys [l [mid [El [Hsys [Hl Hmid]]]]]].
      exists (x :: sys), l, mid. rewrite El. repeat split; try assumption.
      now constructor.
  - destruct (is_user x && takeNext) eqn:Eu.
    + injection H as <-. apply andb_prop in Eu as [Eu Et]. subst takeNext.
      split; [ assumption | split; [ assumption | ] ].
      exists [], r. split; [ reflexivity | constructor ].
    + destruct (IH _ _ H) as [Hu [Hs [later [earlier [E Hl]]]]].
      split; [ assumption | split; [ assumption | ] ].
      exists (x :: later), earlier. split; [ now rewrite E | ].
      destruct takeNext.
      * rewrite andb_true_r in Eu. constructor; [ now rewrite Es, Eu | assumption ].
      * exists [], x, later. repeat split; [ constructor | assumption | assumption ].
Qed.

(** When the loop finds no message. *)
Lemma idle_loop_none (rchat : list Message) :
  forall takeNext,
    idle_loop rchat takeNext = None ->
    forall later m earlier,
      rchat = later ++ m :: earlier ->
      is_user m = true -> is_system m = false ->
      takeNext = false /\ Forall (fun x => is_system x = true) later.
Proof.
  induction rchat as [ | x r IH ]; intros takeNext H later m earlier E Hu Hs.
  - destruct later; discriminate.
  - cbn [idle_loop] in H. destruct later as [ | y later ]; cbn [app] in E.
    + injection E as -> ->. rewrite Hs, Hu in H. cbn [andb] in H.
      destruct takeNext; [ discriminate | ]. split; [ reflexivity | constructor ].
    + injection E as -> E. destruct (is_system y) eqn:Ey.
      * destruct (IH _ H _ _ _ E Hu Hs) as [Ht Hl].
        split; [ assumption | now constructor ].
      * destruct (is_user y && takeNext); [ discriminate | ].
        destruct (IH _ H _ _ _ E Hu Hs) as [Ht _]. discriminate.
Qed.

(** X8.  [getTimeSinceLastMessage] measures from the last message of the
    user that has an answer: a message [m] sent by the user, not a system
    message, that is followed by a message [l] that is not a system
    message, with only system messages after [l] and no user message but
    system ones between [m] and [l]; the result is the humanized time
    since [m.send_date], or [just now] when [m] has no date.  When no
    user message of the chat is followed by a message that is not a
    system message, as in an empty chat or when the user spoke last, the
    result is [just now]. *)
Theorem getTimeSinceLastMessage_measures (C : Collaborators) (w : World) :
  (exists before m mid l tail,
      chat w = before ++ m :: mid ++ l :: tail /\
      is_user m = true /\ is_system m = false /\
      Forall (fun x => is_system x || negb (is_user x) = true) mid /\
      is_system l = false /\
      Forall (fun x => is_system x = true) tail /\
      getTimeSinceLastMessage C w =
      if js_truthy (send_date m) then moment_since_humanize C (send_date m)
      else js "just now") \/
  ((forall before m after,
       chat w = before ++ m :: after ->
       is_user m = true -> is_system m = false ->
       Forall (fun x => is_system x = true) after) /\
   getTimeSinceLastMessage C w = js "just now").
Proof.
  unfold getTimeSinceLastMessage.
  destruct (idle_loop (rev (chat w)) false) as [ m | ] eqn:E.
  - left. destruct (idle_loop_some _ _ _ E)
      as [Hu [Hs [later [earlier [Er [sys [l [mid [El [Hsys [Hl Hmid]]]]]]]]]]].
    assert (Ec : chat w = rev earlier ++ m :: rev mid ++ l :: rev sys).
    { rewrite <- (rev_involutive (chat w)), Er, El, rev_app_distr. cbn [rev].
      rewrite rev_app_distr. cbn [rev]. now rewrite <- !app_assoc. }
    exists (rev earlier), m, (rev mid), l, (rev sys).
    split; [ exact Ec | ].
    repeat split; try assumption; try (now apply Forall_rev).
    destruct (chat w); [ destruct (rev earlier); discriminate | reflexivity ].
  - right. split.
    + intros before m after Ec Hu Hs.
      assert (Er : rev (chat w) = rev after ++ m :: rev before).
      { rewrite Ec, rev_app_distr. cbn [rev]. now rewrite <- app_assoc. }
      destruct (idle_loop_none _ _ E _ _ _ Er Hu Hs) as [_ H].
      rewrite <- (rev_involutive after). now apply Forall_rev.
    + now destruct (chat w).
Qed.

(* ================================================================== *)
(** * The passes that change the state of the page *)

Section GreedyAndLazy.

Variable upper : code_unit -> code_unit.
Variable ignoreCase : bool.

Lemma rmatch_seq_group (i : nat) (r tail : regex) (s : JsString)
  (caps : captures) (k : Cont) :
  rmatch upper ignoreCase (RSeq (RGroup i r) tail) s caps k =
  rmatch upper ignoreCase r s caps (fun s1 caps1 =>
    rmatch upper ignoreCase tail s1
      ((i, firstn (length s - length s1) s) :: caps1) k).
Proof. reflexivity. Qed.

Lemma rmatch_char_head (c : code_unit) (r : regex) (s : JsString)
  (caps : captures) (k : Cont) :
  rmatch upper ignoreCase (RSeq (RChar c) r) (c :: s) caps k =
  rmatch upper ignoreCase r s caps k.
Proof. cbn [rmatch]. now rewrite N.eqb_refl. Qed.

(** One step of a greedy [p*]. *)
Lemma rmatch_star_class_cons (p : code_unit -> bool) (x : code_unit)
  (s : JsString) (caps : captures) (k : Cont) :
  rmatch upper ignoreCase (RStar (RClass p)) (x :: s) caps k =
  if p x
  then match rmatch upper ignoreCase (RStar (RClass p)) s caps k with
       | Some r => Some r
       | None => k (x :: s) caps
       end
  else k (x :: s) caps.
Proof.
  unfold RStar. cbn [rmatch length]. destruct (p x); [ | reflexivity ].
  replace (length s <? S (length s)) with true
    by (symmetry; apply Nat.ltb_lt; lia).
  reflexivity.
Qed.

(** One step of a lazy [p*?]. *)
Lemma rmatch_lazy_class_cons (p : code_unit -> bool) (x : code_unit)
  (s : JsString) (caps : captures) (k : Cont) :
  rmatch upper ignoreCase (RStarLazy (RClass p)) (x :: s) caps k =
  match k (x :: s) caps with
  | Some r => Some r
  | None =>
      if p x then rmatch upper ignoreCase (RStarLazy (RClass p)) s caps k else None
  end.
Proof.
  unfold RStarLazy. cbn [rmatch length]. destruct (k (x :: s) caps); [ reflexivity | ].
  destruct (p x); [ | reflexivity ].
  replace (length s <? S (length s)) with true
    by (symmetry; apply Nat.ltb_lt; lia).
  reflexivity.
Qed.

(** A greedy [p*] in front of code units that [p] accepts finds what it
    finds after them. *)
Lemma rmatch_star_class_app (p : code_unit -> bool) (body rest : JsString)
  (caps : captures) (k : Cont) (r : JsString * captures) :
  forallb p body = true ->
  rmatch upper ignoreCase (RStar (RClass p)) rest caps k = Some r ->
  rmatch upper ignoreCase (RStar (RClass p)) (body ++ rest) caps k = Some r.
Proof.
  intros Hbody Hrest. induction body as [ | x body IH ]; [ exact Hrest | ].
  cbn [forallb] in Hbody. apply andb_prop in Hbody as [Hx Hbody].
  cbn [app]. rewrite rmatch_star_class_cons, Hx, (IH Hbody). reflexivity.
Qed.

(** A greedy [p*] fails when what follows it fails everywhere. *)
Lemma rmatch_star_class_none (p : code_unit -> bool) (caps : captures) (k : Cont) :
  forall s,
    (forall pre suf, s = pre ++ suf -> k suf caps = None) ->
    rmatch upper ignoreCase (RStar (RClass p)) s caps k = None.
Proof.
  induction s as [ | x s IH ]; intros H.
  - exact (H [] [] eq_refl).
  - rewrite rmatch_star_class_cons.
    rewrite IH by (intros pre suf E; apply (H (x :: pre)); now rewrite E).
    rewrite (H [] (x :: s) eq_refl). now destruct (p x).
Qed.

(** A lazy [p*?] stops at the first place where what follows it
    succeeds. *)
Lemma rmatch_lazy_class_app (p : code_unit -> bool) (rest : JsString)
  (caps : captures) (k : Cont) (r : JsString * captures) :
  forall body,
    forallb p body = true ->
    (forall pre suf, body = pre ++ suf -> suf <> [] -> k (suf ++ rest) caps = None) ->
    k rest caps = Some r ->
    rmatch upper ignoreCase (RStarLazy (RClass p)) (body ++ rest) caps k = Some r.
Proof.
  induction body as [ | x body IH ]; intros Hbody Hfail Hk.
  - cbn [app]. destruct rest as [ | y rest' ].
    + exact Hk.
    + rewrite rmatch_lazy_class_cons, Hk. reflexivity.
  - cbn [forallb] in Hbody. apply andb_prop in Hbody as [Hx Hbody].
    cbn [app]. rewrite rmatch_lazy_class_cons.
    pose proof (Hfail [] (x :: body) eq_refl ltac:(discriminate)) as F.
    cbn [app] in F. rewrite F.
    rewrite Hx. apply IH; try assumption.
    intros pre suf E Hne. apply (Hfail (x :: pre)); [ now rewrite E | assumption ].
Qed.

(** A pattern that starts with the symbol [b] fails on a text that does
    not. *)
Lemma rmatch_char_lacks (b : code_unit) (r : regex) (s : JsString)
  (caps : captures) (k : Cont) :
  is_symbol b = true -> lacks b s = true ->
  rmatch upper ignoreCase (RSeq (RChar b) r) s caps k = None.
Proof.
  intros Hb Hs. destruct s as [ | x s ]; [ reflexivity | ].
  cbn [rmatch].
  destruct (N.eqb (canonicalize upper ignoreCase b) (canonicalize upper ignoreCase x)) eqn:E;
    [ | reflexivity ].
  apply (canonicalize_symbol upper ignoreCase b Hb) in E. subst x.
  cbn [lacks forallb] in Hs. rewrite N.eqb_refl in Hs. discriminate.
Qed.

Lemma lacks_suffix (b : code_unit) (s pre suf : JsString) :
  lacks b s = true -> s = pre ++ suf -> lacks b suf = true.
Proof.
  intros H E. rewrite E, lacks_app in H. now apply andb_prop in H as [_ H].
Qed.

(** The directive of a banned word: the greedy group runs to the last
    double quote that is followed by the closing braces. *)
Lemma rexec_banPattern (word post : JsString) :
  forallb dot word = true -> lacks 34%N post = true ->
  rexec upper ignoreCase banPattern
    (js "{{banned " ++ 34%N :: word ++ 34%N :: js "}}" ++ post)
  = Some (post, [(1, word)]).
Proof.
  intros Hword Hpost. unfold rexec, banPattern. cbn [RSeqs].
  rewrite rmatch_lit, rmatch_char_head, rmatch_seq_group.
  apply rmatch_star_class_app; [ assumption | ].
  rewrite rmatch_star_class_cons.
  change (dot 34%N) with true. cbv iota.
  rewrite rmatch_star_class_none.
  - match goal with
    | |- context [firstn ?n ?l] =>
        replace (firstn n l) with word
          by (rewrite length_app, Nat.add_sub, firstn_app, Nat.sub_diag, firstn_all;
              cbn [firstn]; now rewrite app_nil_r)
    end.
    change (js "}}") with [125%N; 125%N].
    cbn [RLit app rmatch]. now rewrite !N.eqb_refl.
  - intros pre suf E. apply rmatch_char_lacks; [ reflexivity | ].
    apply (lacks_suffix 34%N (js "}}" ++ post) pre suf); [ | assumption ].
    rewrite lacks_app, Hpost. reflexivity.
Qed.

Section LeftToRight.

Context {St : Type}.
Variable re : regex.
Variable f : MatchInfo -> St -> JsString * St.

(** The callback looks at the matched text and at the groups only. *)
Hypothesis f_local :
  forall text caps offset input offset' input' st,
    f {| m_text := text; m_caps := caps; m_offset := offset; m_input := input |} st =
    f {| m_text := text; m_caps := caps; m_offset := offset'; m_input := input' |} st.

Lemma replace_go_shift :
  forall s input input' pos pos' skip st,
    replace_go upper ignoreCase re f input s pos skip st =
    replace_go upper ignoreCase re f input' s pos' skip st.
Proof.
  induction s as [ | c s IH ]; intros input input' pos pos' skip st.
  - cbn [replace_go]. destruct skip; [ | reflexivity ].
    destruct (rexec upper ignoreCase re []) as [ [rest caps] | ];
      [ apply f_local | reflexivity ].
  - cbn [replace_go]. destruct skip as [ | n ]; [ | apply IH ].
    destruct (rexec upper ignoreCase re (c :: s)) as [ [rest caps] | ].
    + rewrite (f_local _ caps pos input pos' input' st).
      destruct (f _ st) as [out st1].
      destruct (length (c :: s) - length rest);
        now rewrite (IH input input' (S pos) (S pos')).
    + now rewrite (IH input input' (S pos) (S pos')).
Qed.

(** The first match of a text, after a part that lacks the symbol that
    the pattern begins with: the part is kept, the callback is run on the
    match, and the replacement goes on with the rest of the text. *)
Lemma replace_st_first_match (b : code_unit) (pre d rest : JsString)
  (caps : captures) (st : St) :
  is_symbol b = true -> begins b re = true ->
  lacks b pre = true -> d <> [] ->
  rexec upper ignoreCase re (d ++ rest) = Some (rest, caps) ->
  replace_st upper ignoreCase re f (pre ++ d ++ rest) st =
  (let '(out, st1) :=
     f {| m_text := d; m_caps := caps; m_offset := 0; m_input := d |} st in
   let '(tl, st2) := replace_st upper ignoreCase re f rest st1 in
   (pre ++ out ++ tl, st2)).
Proof.
  intros Hb Hre Hpre Hd Hexec. unfold replace_st.
  rewrite (@replace_go_prefix upper ignoreCase b Hb St re f Hre pre (d ++ rest)
             (pre ++ d ++ rest) 0 st Hpre).
  rewrite (@replace_go_match upper ignoreCase St re f d rest caps _ _ st Hd Hexec).
  rewrite (f_local d caps (0 + length pre) (pre ++ d ++ rest) 0 d st).
  destruct (f _ st) as [out st1].
  rewrite (replace_go_shift rest (pre ++ d ++ rest) rest (0 + length pre + length d) 0 0 st1).
  destruct (replace_go upper ignoreCase re f rest rest 0 0 st1) as [tl st2].
  reflexivity.
Qed.

End LeftToRight.

(** A text with one match, after a part that lacks the symbol that the
    pattern begins with and before a part that lacks a symbol that it
    needs. *)
Lemma replace_st_one_match_between (St : Type) (re : regex)
  (f : MatchInfo -> St -> JsString * St) (b b' : code_unit)
  (pre d post : JsString) (caps : captures) (st : St) :
  is_symbol b = true -> begins b re = true ->
  is_symbol b' = true -> needs b' re = true ->
  lacks b pre = true -> lacks b' post = true -> d <> [] ->
  rexec upper ignoreCase re (d ++ post) = Some (post, caps) ->
  replace_st upper ignoreCase re f (pre ++ d ++ post) st =
  (let '(out, st1) :=
     f {| m_text := d; m_caps := caps; m_offset := length pre;
          m_input := pre ++ d ++ post |} st in
   (pre ++ out ++ post, st1)).
Proof.
  intros Hb Hre Hb' Hre' Hpre Hpost Hd Hexec. unfold replace_st.
  rewrite (@replace_go_prefix upper ignoreCase b Hb St re f Hre pre (d ++ post)
             (pre ++ d ++ post) 0 st Hpre).
  rewrite (@replace_go_match upper ignoreCase St re f d post caps _ _ st Hd Hexec).
  cbn [Nat.add]. destruct (f _ st) as [out st1].
  rewrite (@replace_go_lacks upper ignoreCase b' Hb' St re f Hre' post _ _ st1 Hpost).
  reflexivity.
Qed.

End GreedyAndLazy.

(** X9.  A directive [{{banned "word"}}] is removed from the text, and the
    word between the quotes is added to the list of banned words exactly
    when the main API is [textgenerationwebui].  The word runs to the last
    double quote of the line that the closing braces follow: here the text
    before the directive has no opening brace and the text after it no
    double quote, and the word is any text of one line.  Whatever the
    text, the state of the page is as it was for another main API, and the
    text returned does not depend on the state. *)
Theorem bannedWordsReplace_directive (C : Collaborators)
  (pre word post : JsString) (w : World) :
  lacks 123%N pre = true -> lacks 34%N post = true ->
  forallb dot word = true ->
  bannedWordsReplace C
    (pre ++ js "{{banned " ++ 34%N :: word ++ 34%N :: js "}}" ++ post) w =
  (pre ++ post,
   if str_eqb (main_api w) (js "textgenerationwebui")
   then push_banned word w else w) /\
  (forall inText,
      main_api w <> js "textgenerationwebui" ->
      snd (bannedWordsReplace C inText w) = w) /\
  (forall inText w',
      fst (bannedWordsReplace C inText w') = fst (bannedWordsReplace C inText w)).
Proof.
  intros Hpre Hpost Hword. split; [ | split ].
  - set (d := js "{{banned " ++ 34%N :: word ++ 34%N :: js "}}").
    assert (Ed : js "{{banned " ++ 34%N :: word ++ 34%N :: js "}}" ++ post = d ++ post).
    { unfold d. change (js "{{banned ") with [123; 123; 98; 97; 110; 110; 101; 100; 32]%N.
      cbn [app]. now rewrite <- app_assoc. }
    assert (Hd : d <> []) by discriminate.
    assert (Hexec : rexec (unicode_upper C) true banPattern (d ++ post)
                    = Some (post, [(1, word)])).
    { rewrite <- Ed. now apply rexec_banPattern. }
    rewrite Ed. unfold bannedWordsReplace.
    destruct (pre ++ d ++ post) as [ | c0 t0 ] eqn:Et.
    { destruct pre; discriminate. }
    rewrite <- Et. unfold match_all, replace_str, replace_fn.
    rewrite !(@replace_st_one_match_between (unicode_upper C) true _ banPattern _
                123%N 34%N pre d post [(1, word)] _
                eq_refl eq_refl eq_refl eq_refl Hpre Hpost Hd Hexec).
    cbn [fst snd app fold_left m_caps capture_str capture Nat.eqb js_String
         get_substitution].
    now destruct (str_eqb (main_api w) (js "textgenerationwebui")).
  - intros inText Hapi. unfold bannedWordsReplace.
    destruct inText as [ | c t ]; [ reflexivity | ].
    apply str_eqb_neq in Hapi. now rewrite Hapi.
  - intros inText w'. unfold bannedWordsReplace.
    destruct inText as [ | c t ]; reflexivity.
Qed.

Lemma bannedWordsReplace_directive_witness :
  bannedWordsReplace Sample.collaborators
    (js "Say " ++ js "{{banned " ++ 34%N :: js "cat" ++ 34%N :: js "}}" ++ js "hello")
    Sample.world =
  (js "Say " ++ js "hello",
   if str_eqb (main_api Sample.world) (js "textgenerationwebui")
   then push_banned (js "cat") Sample.world else Sample.world).
Proof.
  exact (proj1 (bannedWordsReplace_directive Sample.collaborators (js "Say ") (js "cat") (js "hello")
                  Sample.world eq_refl eq_refl eq_refl)).
Defined.

Lemma roll_directive_split (sep : code_unit) (arg rest : JsString) :
  js "{{roll" ++ sep :: arg ++ js "}}" ++ rest =
  (js "{{roll" ++ sep :: arg ++ js "}}") ++ rest.
Proof.
  change (js "{{roll") with [123; 123; 114; 111; 108; 108]%N.
  cbn [app]. now rewrite <- app_assoc.
Qed.

(** X10.  [diceRollReplace] works from left to right.  The text before
    the first directive, which has no opening brace, is kept; the
    directive, with a space or a colon after [roll], becomes the escaped
    total of the formula (a digits-only argument taken as one die) when
    the dice library accepts it, at the cost of one draw, and the
    placeholder for invalid rolls otherwise, no draw being made; the pass
    then goes on with the rest of the text and the state so reached. *)
Theorem diceRollReplace_left_to_right (C : Collaborators)
  (pre arg rest : JsString) (sep : code_unit)
  (invalidRollPlaceholder : JsVal) (varEscape : EscapeFn) (w : World) :
  lacks 123%N pre = true ->
  sep = 32%N \/ sep = 58%N ->
  arg <> [] -> forallb not_rbrace arg = true ->
  diceRollReplace C (pre ++ js "{{roll" ++ sep :: arg ++ js "}}" ++ rest)
    invalidRollPlaceholder varEscape w =
  (let '(out, w1) :=
     if droll_validate C (normalized_formula arg)
     then (js_String (esc_call varEscape
             (VString (Z_to_js (droll_roll_total C (normalized_formula arg) (ticks w))))),
           tick w)
     else (js_String invalidRollPlaceholder, w) in
   let '(tl, w2) := diceRollReplace C rest invalidRollPlaceholder varEscape w1 in
   (pre ++ out ++ tl, w2)).
Proof.
  intros Hpre Hsep Hne Hbody. unfold diceRollReplace.
  rewrite roll_directive_split.
  rewrite (@replace_st_first_match (unicode_upper C) true World rollPattern
             (roll_callback C invalidRollPlaceholder varEscape)
             ltac:(reflexivity) 123%N pre
             (js "{{roll" ++ sep :: arg ++ js "}}") rest [(1, arg)] w
             eq_refl eq_refl Hpre).
  - rewrite roll_callback_formula.
    cbn [m_caps capture_str capture Nat.eqb js_String].
    destruct (droll_validate C (normalized_formula arg)); reflexivity.
  - discriminate.
  - rewrite <- roll_directive_split. now apply rexec_rollPattern.
Qed.

Lemma diceRollReplace_left_to_right_witness :
  diceRollReplace Sample.collaborators
    (js "You roll " ++ js "{{roll" ++ 32%N :: js "20" ++ js "}}" ++ js " and {{roll:x}}")
    (VString (js "?")) bracket_escape Sample.world =
  (js "You roll [1] and ?", tick Sample.world).
Proof.
  exact (eq_trans
           (diceRollReplace_left_to_right Sample.collaborators (js "You roll ") (js "20")
              (js " and {{roll:x}}") 32%N (VString (js "?")) bracket_escape Sample.world
              eq_refl (or_introl eq_refl) ltac:(discriminate) eq_refl)
           ltac:(vm_compute; reflexivity)).
Defined.

Lemma random_directive_split (body rest : JsString) :
  js "{{random::" ++ body ++ js "}}" ++ rest =
  (js "{{random::" ++ body ++ js "}}") ++ rest.
Proof. now rewrite <- !app_assoc. Qed.

(** X11.  [randomReplace] works from left to right and makes one draw of
    randomness for each directive: the text before the first directive,
    which has no opening brace, is kept; the directive becomes the escaped
    item that the next draw selects in its list, which is an item of the
    list; the pass then goes on with the rest of the text after that
    draw. *)
Theorem randomReplace_left_to_right (C : Collaborators) (pre body rest : JsString)
  (emptyListPlaceholder : JsVal) (varEscape : EscapeFn) (w : World) :
  lacks 123%N pre = true ->
  body <> [] -> forallb not_rbrace body = true ->
  exists item,
    In item (parse_list C body) /\
    list_at (parse_list C body)
      (floor_mul (seedrandom_entropy C (ticks w)) (length (parse_list C body)))
    = VString item /\
    randomReplace C (pre ++ js "{{random::" ++ body ++ js "}}" ++ rest)
      emptyListPlaceholder varEscape w =
    (let '(tl, w2) :=
       randomReplace C rest emptyListPlaceholder varEscape (tick w) in
     (pre ++ js_String (esc_call varEscape (VString item)) ++ tl, w2)).
Proof.
  intros Hpre Hne Hbody.
  assert (L : 1 <= length (parse_list C body)).
  { pose proof (parse_list_not_nil C body) as H.
    destruct (parse_list C body); [ congruence | simpl; lia ]. }
  destruct (list_at_In (parse_list C body)
              (floor_mul (seedrandom_entropy C (ticks w)) (length (parse_list C body))))
    as [item [Hin Hat]]; [ apply floor_mul_lt; lia | ].
  exists item. split; [ exact Hin | split; [ exact Hat | ] ].
  unfold randomReplace. rewrite random_directive_split.
  rewrite (@replace_st_first_match (unicode_upper C) true World randomPattern
             (random_callback C emptyListPlaceholder varEscape)
             ltac:(reflexivity) 123%N pre
             (js "{{random::" ++ body ++ js "}}") rest [(1, body)] w
             eq_refl eq_refl Hpre).
  - unfold random_callback. cbv zeta.
    cbn [m_caps capture_str capture Nat.eqb js_String].
    destruct (Nat.eqb_spec (length (parse_list C body)) 0) as [E | E]; [ lia | ].
    rewrite Hat. reflexivity.
  - discriminate.
  - rewrite <- random_directive_split. now apply rexec_randomPattern.
Qed.

Lemma randomReplace_left_to_right_witness :
  exists item,
    In item (parse_list Sample.collaborators (js "a,b")) /\
    list_at (parse_list Sample.collaborators (js "a,b"))
      (floor_mul (seedrandom_entropy Sample.collaborators (ticks Sample.world))
         (length (parse_list Sample.collaborators (js "a,b"))))
    = VString item /\
    randomReplace Sample.collaborators
      (js "One of " ++ js "{{random::" ++ js "a,b" ++ js "}}" ++ js "!")
      VUndefined identity_escape Sample.world =
    (let '(tl, w2) :=
       randomReplace Sample.collaborators (js "!") VUndefined identity_escape
         (tick Sample.world) in
     (js "One of " ++ js_String (esc_call identity_escape (VString item)) ++ tl, w2)).
Proof.
  exact (randomReplace_left_to_right Sample.collaborators (js "One of ") (js "a,b") (js "!") VUndefined
           identity_escape Sample.world eq_refl ltac:(discriminate) eq_refl).
Defined.

(* ================================================================== *)
(** * What the evaluation leaves alone *)

Lemma page_extends_refl (w : World) : page_extends w w.
Proof.
  unfold page_extends. do 8 (split; [ reflexivity | ]).
  split; [ lia | ]. exists []. now rewrite app_nil_r.
Qed.

Lemma page_extends_trans (w1 w2 w3 : World) :
  page_extends w1 w2 -> page_extends w2 w3 -> page_extends w1 w3.
Proof.
  unfold page_extends.
  intros [A1 [A2 [A3 [A4 [A5 [A6 [A7 [A8 [A9 [a Ha]]]]]]]]]]
         [B1 [B2 [B3 [B4 [B5 [B6 [B7 [B8 [B9 [b Hb]]]]]]]]]].
  do 8 (split; [ congruence | ]).
  split; [ lia | ]. exists (a ++ b). now rewrite Hb, Ha, app_assoc.
Qed.

Lemma page_extends_tick (w : World) : page_extends w (tick w).
Proof.
  unfold page_extends. cbn [tick macros chat main_chat currentChatId main_api
    send_textarea maxContextSize lastInContext_mesid ticks
    textgenerationwebui_banned_in_macros].
  do 8 (split; [ reflexivity | ]).
  split; [ lia | ]. exists []. now rewrite app_nil_r.
Qed.

Lemma page_extends_push_banned (word : JsString) (w : World) :
  page_extends w (push_banned word w).
Proof.
  unfold page_extends. cbn [push_banned macros chat main_chat currentChatId main_api
    send_textarea maxContextSize lastInContext_mesid ticks
    textgenerationwebui_banned_in_macros].
  do 8 (split; [ reflexivity | ]).
  split; [ lia | ]. now exists [word].
Qed.

Lemma page_extends_set_chat_id_hash (h : JsVal) (w : World) :
  page_extends w (set_chat_id_hash h w).
Proof.
  unfold page_extends. cbn [set_chat_id_hash macros chat main_chat currentChatId
    main_api send_textarea maxContextSize lastInContext_mesid ticks
    textgenerationwebui_banned_in_macros].
  do 8 (split; [ reflexivity | ]).
  split; [ lia | ]. exists []. now rewrite app_nil_r.
Qed.

(** A replacement whose callback moves the state along a preorder moves
    it along that preorder. *)
Lemma replace_go_preorder (St : Type) (R : St -> St -> Prop)
  (upper : code_unit -> code_unit) (ignoreCase : bool) (re : regex)
  (f : MatchInfo -> St -> JsString * St) :
  (forall st, R st st) ->
  (forall a b c, R a b -> R b c -> R a c) ->
  (forall m st, R st (snd (f m st))) ->
  forall s input pos skip st,
    R st (snd (replace_go upper ignoreCase re f input s pos skip st)).
Proof.
  intros Hrefl Htrans Hf. induction s as [ | c s IH ]; intros input pos skip st.
  - cbn [replace_go]. destruct skip; [ | apply Hrefl ].
    destruct (rexec upper ignoreCase re []) as [ [rest caps] | ];
      [ apply Hf | apply Hrefl ].
  - cbn [replace_go]. destruct skip as [ | n ]; [ | apply IH ].
    destruct (rexec upper ignoreCase re (c :: s)) as [ [rest caps] | ].
    + match goal with
      | |- context [f ?m st] =>
          pose proof (Hf m st) as H1; destruct (f m st) as [out st1]
      end.
      cbn [snd] in H1.
      destruct (length (c :: s) - length rest) as [ | n ].
      * pose proof (IH input (S pos) 0 st1) as H2.
        destruct (replace_go upper ignoreCase re f input s (S pos) 0 st1) as [tl st2].
        cbn [snd] in *. eapply Htrans; eassumption.
      * pose proof (IH input (S pos) n st1) as H2.
        destruct (replace_go upper ignoreCase re f input s (S pos) n st1) as [tl st2].
        cbn [snd] in *. eapply Htrans; eassumption.
    + pose proof (IH input (S pos) 0 st) as H2.
      destruct (replace_go upper ignoreCase re f input s (S pos) 0 st) as [tl st1].
      exact H2.
Qed.

Section Frame.

Variable C : Collaborators.

Lemma diceRollReplace_extends (content : JsString) (placeholder : JsVal)
  (varEscape : EscapeFn) (w : World) :
  page_extends w (snd (diceRollReplace C content placeholder varEscape w)).
Proof.
  unfold diceRollReplace, replace_st.
  apply replace_go_preorder;
    [ exact page_extends_refl | exact page_extends_trans | ].
  intros m st. rewrite roll_callback_formula.
  destruct (droll_validate C _); cbn [snd];
    [ apply page_extends_tick | apply page_extends_refl ].
Qed.

Lemma randomReplace_extends (content : JsString) (placeholder : JsVal)
  (varEscape : EscapeFn) (w : World) :
  page_extends w (snd (randomReplace C content placeholder varEscape w)).
Proof.
  unfold randomReplace, replace_st.
  apply replace_go_preorder;
    [ exact page_extends_refl | exact page_extends_trans | ].
  intros m st. unfold random_callback. cbv zeta.
  destruct (Nat.eqb _ 0); cbn [snd];
    [ apply page_extends_refl | apply page_extends_tick ].
Qed.

Lemma fold_push_banned_extends (g : MatchInfo -> JsString) (l : list MatchInfo) :
  forall w,
    page_extends w (fold_left (fun w banCase => push_banned (g banCase) w) l w).
Proof.
  induction l as [ | m l IH ]; intros w; [ apply page_extends_refl | ].
  cbn [fold_left]. eapply page_extends_trans; [ apply page_extends_push_banned | apply IH ].
Qed.

Lemma bannedWordsReplace_extends (content : JsString) (w : World) :
  page_extends w (snd (bannedWordsReplace C content w)).
Proof.
  unfold bannedWordsReplace.
  destruct content as [ | c content ]; [ apply page_extends_refl | ].
  cbn [snd]. destruct (str_eqb (main_api w) (js "textgenerationwebui"));
    [ | apply page_extends_refl ].
  apply (fold_push_banned_extends (fun banCase => capture_str (m_caps banCase) 1)).
Qed.

Lemma pickReplace_extends (content rawContent : JsString) (placeholder : JsVal)
  (varEscape : EscapeFn) (w : World) :
  page_extends w (snd (pickReplace C content rawContent placeholder varEscape w)).
Proof.
  unfold pickReplace, getChatIdHash.
  destruct (negb (js_truthy (chat_id_hash w))); cbn [snd];
    [ apply page_extends_set_chat_id_hash | apply page_extends_refl ].
Qed.

End Frame.

(** X12.  The statements of [evaluateMacros] and of the replacers that
    it calls in this module leave the registry of macros, the chat, the
    chat metadata, the main API, the text of the input field, the size of
    the context and the first message of the context as they are,
    whatever the text is.  Of the state of the page they change at most
    the cached hash of the chat id, the number of draws of randomness
    made, which does not decrease, and the list of banned words, which
    they only add to at its end.  This is about the code of the module
    itself: the functions that come from outside (the escaping function,
    the functions held by [env] and by the registry, the passes and the
    libraries of the other modules) are values of the model that compute a
    result and do nothing else, and the entries that [populateEnv] writes
    into the object of the caller are not part of the state of the
    page. *)
Theorem evaluateMacros_keeps_the_page (C : Collaborators) (content : JsString)
  (env : EnvObject) (varEscape : EscapeFn) (w : World) :
  page_extends w (snd (evaluateMacros C content env varEscape w)).
Proof.
  unfold evaluateMacros. destruct content as [ | c content ];
    [ apply page_extends_refl | ].
  destruct (negb (includes _ (js "{{"))); [ apply page_extends_refl | ].
  match goal with
  | |- context [diceRollReplace C ?t ?p ?e w] =>
      pose proof (diceRollReplace_extends C t p e w) as H1;
      destruct (diceRollReplace C t p e w) as [c1 w1]
  end.
  cbn [snd] in H1.
  match goal with
  | |- context [bannedWordsReplace C ?t ?x] =>
      pose proof (bannedWordsReplace_extends C t x) as H2;
      destruct (bannedWordsReplace C t x) as [c2 w2]
  end.
  cbn [snd] in H2.
  match goal with
  | |- context [randomReplace C ?t ?p ?e ?x] =>
      pose proof (randomReplace_extends C t p e x) as H3;
      destruct (randomReplace C t p e x) as [c3 w3]
  end.
  cbn [snd] in H3.
  match goal with
  | |- context [pickReplace C ?t ?r ?p ?e ?x] =>
      pose proof (pickReplace_extends C t r p e x) as H4;
      destruct (pickReplace C t r p e x) as [c4 w4]
  end.
  cbn [snd] in *.
  eapply page_extends_trans; [ exact H1 | ].
  eapply page_extends_trans; [ apply page_extends_tick | ].
  eapply page_extends_trans; [ exact H2 | ].
  eapply page_extends_trans; [ exact H3 | exact H4 ].
Qed.

(* ================================================================== *)
(** * The legacy tags *)

Lemma get_substitution_plain (matched before after repl : JsString) :
  lacks 36%N repl = true ->
  get_substitution matched before after repl = repl.
Proof.
  induction repl as [ | c r IH ]; intros H; [ reflexivity | ].
  cbn [lacks forallb] in H. apply andb_prop in H as [Hc Hr].
  apply negb_true_iff in Hc.
  cbn [get_substitution]. destruct r as [ | d r' ]; [ reflexivity | ].
  rewrite Hc. f_equal. now apply IH.
Qed.

Lemma rmatch_RLit (upper : code_unit -> code_unit) (ignoreCase : bool)
  (lit : JsString) :
  forall s caps (k : Cont),
    rmatch upper ignoreCase (RLit lit) (lit ++ s) caps k = k s caps.
Proof.
  induction lit as [ | c lit IH ]; intros s caps k; [ reflexivity | ].
  cbn [RLit app rmatch]. rewrite N.eqb_refl. apply IH.
Qed.

(** [replace] with a value as its second argument, on a text with one
    match of the pattern. *)
Lemma replace_val_one_match (upper : code_unit -> code_unit) (ignoreCase : bool)
  (b : code_unit) (re : regex) (v : JsVal) (pre d post : JsString)
  (caps : captures) :
  is_symbol b = true -> begins b re = true ->
  lacks b pre = true -> lacks b post = true -> d <> [] ->
  rexec upper ignoreCase re (d ++ post) = Some (post, caps) ->
  (is_function v = false -> lacks 36%N (js_String v) = true) ->
  replace_val upper ignoreCase re v (pre ++ d ++ post) =
  pre ++ replacement_of v d ++ post.
Proof.
  intros Hb Hre Hpre Hpost Hne Hexec Hv.
  assert (P : forall repl,
             lacks 36%N repl = true ->
             replace_str upper ignoreCase re repl (pre ++ d ++ post) =
             pre ++ repl ++ post).
  { intros repl Hrepl. unfold replace_str.
    rewrite (@replace_fn_one_match upper ignoreCase b Hb re _ pre d post caps
               Hre Hpre Hpost Hne Hexec).
    cbn [m_text m_offset m_input]. now rewrite get_substitution_plain. }
  destruct v; cbn [replace_val replacement_of is_function] in *;
    try (apply P; apply Hv; reflexivity).
  rewrite (@replace_fn_one_match upper ignoreCase b Hb re _ pre d post caps
             Hre Hpre Hpost Hne Hexec).
  reflexivity.
Qed.

(* ================================================================== *)
(** * Texts in which a pattern has no match *)

Section NoMatch.

Variable upper : code_unit -> code_unit.
Variable ignoreCase : bool.

(** A match hands on an end of the text. *)
Lemma rmatch_cont_fails (P : JsString -> Prop) :
  (forall x s, P (x :: s) -> P s) ->
  forall r s caps (k : Cont),
    P s ->
    (forall s' caps', P s' -> k s' caps' = None) ->
    rmatch upper ignoreCase r s caps k = None.
Proof.
  intros Hsuf.
  induction r as [ | c | p | r1 IH1 r2 IH2 | greedy bound r1 IH1 | i r1 IH1 ];
    intros s caps k Hs Hk.
  - cbn [rmatch]. now apply Hk.
  - cbn [rmatch]. destruct s as [ | x s' ]; [ reflexivity | ].
    destruct (N.eqb _ _); [ | reflexivity ]. apply Hk. exact (Hsuf _ _ Hs).
  - cbn [rmatch]. destruct s as [ | x s' ]; [ reflexivity | ].
    destruct (p x); [ | reflexivity ]. apply Hk. exact (Hsuf _ _ Hs).
  - cbn [rmatch]. apply IH1; [ assumption | ].
    intros s' caps' Hs'. now apply IH2.
  - cbn [rmatch].
    generalize (match bound with Some n => n | None => length s end).
    intros fuel. revert s caps Hs.
    induction fuel as [ | fuel IHf ]; intros s caps Hs.
    + now apply Hk.
    + cbn beta iota. destruct greedy.
      * rewrite IH1; [ now apply Hk | assumption | ].
        intros s' caps' Hs'. destruct (length s' <? length s); [ | reflexivity ].
        now apply IHf.
      * rewrite (Hk s caps Hs). apply IH1; [ assumption | ].
        intros s' caps' Hs'. destruct (length s' <? length s); [ | reflexivity ].
        now apply IHf.
  - cbn [rmatch]. apply IH1; [ assumption | ].
    intros s' caps' Hs'. now apply Hk.
Qed.

Lemma never_matches_tail (re : regex) (x : code_unit) (s : JsString) :
  never_matches upper ignoreCase re (x :: s) -> never_matches upper ignoreCase re s.
Proof. intros H a t caps k E. apply (H (x :: a)). now rewrite E. Qed.

(** What comes in front of a pattern without a match does not give it
    one. *)
Lemma never_matches_seq (r tail : regex) (s : JsString) :
  never_matches upper ignoreCase tail s -> never_matches upper ignoreCase (RSeq r tail) s.
Proof.
  intros H a t caps k E. cbn [rmatch].
  apply (rmatch_cont_fails (never_matches upper ignoreCase tail)).
  - intros x s'. apply never_matches_tail.
  - intros a' t' caps' k' E'. apply (H (a ++ a')). now rewrite E, E', app_assoc.
  - intros s' caps' Hs'. exact (Hs' [] s' caps' k eq_refl).
Qed.

(** A text whose only two opening braces stand side by side, for a
    pattern that begins with one and matches at neither of them. *)
Lemma never_matches_braces (re : regex) (pre rest : JsString) :
  begins 123%N re = true ->
  lacks 123%N pre = true -> lacks 123%N rest = true ->
  (forall caps k, rmatch upper ignoreCase re (123%N :: 123%N :: rest) caps k = None) ->
  (forall caps k, rmatch upper ignoreCase re (123%N :: rest) caps k = None) ->
  never_matches upper ignoreCase re (pre ++ 123%N :: 123%N :: rest).
Proof.
  intros Hre Hpre Hrest H2 H1. induction pre as [ | c pre IH ]; intros a t caps k E.
  - cbn [app] in E. destruct a as [ | x a ]; cbn [app] in E.
    + subst t. apply H2.
    + injection E as _ E. destruct a as [ | y a ]; cbn [app] in E.
      * subst t. apply H1.
      * injection E as _ E.
        apply (@rmatch_needs upper ignoreCase 123%N eq_refl);
          [ now apply begins_needs | ].
        apply (lacks_suffix 123%N rest a t); assumption.
  - cbn [lacks forallb] in Hpre. apply andb_prop in Hpre as [Hc Hpre].
    destruct a as [ | x a ]; cbn [app] in E.
    + subst t. apply (@rmatch_begins upper ignoreCase 123%N eq_refl); [ assumption | ].
      apply negb_true_iff in Hc. now apply N.eqb_neq in Hc.
    + injection E as _ E. exact (IH Hpre a t caps k E).
Qed.

Lemma replace_go_never (St : Type) (re : regex)
  (f : MatchInfo -> St -> JsString * St) :
  forall s input pos st,
    never_matches upper ignoreCase re s ->
    replace_go upper ignoreCase re f input s pos 0 st = (s, st).
Proof.
  induction s as [ | c s IH ]; intros input pos st H.
  - cbn [replace_go]. unfold rexec. now rewrite (H [] [] _ _ eq_refl).
  - cbn [replace_go]. unfold rexec. rewrite (H [] (c :: s) _ _ eq_refl).
    rewrite IH by (eapply never_matches_tail; eassumption). reflexivity.
Qed.

Lemma replace_st_never (St : Type) (re : regex)
  (f : MatchInfo -> St -> JsString * St) (s : JsString) (st : St) :
  never_matches upper ignoreCase re s ->
  replace_st upper ignoreCase re f s st = (s, st).
Proof. intros H. unfold replace_st. now apply replace_go_never. Qed.

Lemma replace_fn_never (re : regex) (f : MatchInfo -> JsString) (s : JsString) :
  never_matches upper ignoreCase re s -> replace_fn upper ignoreCase re f s = s.
Proof. intros H. unfold replace_fn. now rewrite replace_st_never. Qed.

Lemma replace_str_never (re : regex) (repl s : JsString) :
  never_matches upper ignoreCase re s -> replace_str upper ignoreCase re repl s = s.
Proof. intros H. unfold replace_str. now apply replace_fn_never. Qed.

Lemma replace_val_never (re : regex) (v : JsVal) (s : JsString) :
  never_matches upper ignoreCase re s -> replace_val upper ignoreCase re v s = s.
Proof.
  intros H. unfold replace_val.
  destruct v; (now apply replace_str_never) || (now apply replace_fn_never).
Qed.

End NoMatch.

Lemma includes_app (pre s p : JsString) :
  startsWith s p = true -> includes (pre ++ s) p = true.
Proof.
  intros H. induction pre as [ | c pre IH ].
  - cbn [app]. destruct s; cbn [includes]; now rewrite H.
  - cbn [app includes]. rewrite IH. apply orb_true_r.
Qed.

Section BuiltinOnly.

Variable C : Collaborators.

(** The evaluation of a text whose only macro is one that the passes of
    the built-in macros replace, with an empty [env] and nothing
    registered. *)
Lemma evaluateMacros_builtin_only (pre rest c6 : JsString) (varEscape : EscapeFn)
  (w : World) :
  passes_keep C (pre ++ 123%N :: 123%N :: rest) -> macros w = [] ->
  lacks 123%N pre = true -> lacks 123%N rest = true ->
  lacks 60%N pre = true -> lacks 60%N rest = true ->
  early_passes_unmatched (unicode_upper C) rest ->
  builtinSubstitutions C (pre ++ 123%N :: 123%N :: rest) varEscape (tick w) = c6 ->
  lacks 123%N c6 = true ->
  fst (evaluateMacros C (pre ++ 123%N :: 123%N :: rest) [] varEscape w) = c6.
Proof.
  intros Hk Hm Hpre Hrest Hpre' Hrest' Hearly Hb Hc6.
  unfold early_passes_unmatched in Hearly.
  destruct (Forall_inv Hearly) as [Ha1 Ha2].
  apply Forall_inv_tail in Hearly. destruct (Forall_inv Hearly) as [Hb1 Hb2].
  apply Forall_inv_tail in Hearly. destruct (Forall_inv Hearly) as [Hc1 Hc2].
  apply Forall_inv_tail in Hearly. destruct (Forall_inv Hearly) as [Hd1 Hd2].
  apply Forall_inv_tail in Hearly. destruct (Forall_inv Hearly) as [He1 He2].
  clear Hearly.
  assert (Hdice : diceRollReplace C (pre ++ 123%N :: 123%N :: rest)
                    (escape_as_value varEscape) identity_escape w
                  = (pre ++ 123%N :: 123%N :: rest, w)).
  { unfold diceRollReplace. apply replace_st_never.
    apply never_matches_braces; [ reflexivity | assumption .. ]. }
  assert (Hsimple : simpleSubstitutions C (pre ++ 123%N :: 123%N :: rest) varEscape w
                    = pre ++ 123%N :: 123%N :: rest).
  { unfold simpleSubstitutions. cbv zeta.
    rewrite (@replace_val_never (unicode_upper C) true (RLit (js "{{newline}}")) _
               (pre ++ 123%N :: 123%N :: rest))
      by (apply never_matches_braces; [ reflexivity | assumption .. ]).
    rewrite (@replace_str_never (unicode_upper C) true _ []
               (pre ++ 123%N :: 123%N :: rest))
      by (apply never_matches_seq, never_matches_braces;
          [ reflexivity | assumption .. ]).
    rewrite (@replace_str_never (unicode_upper C) true (RLit (js "{{noop}}")) _
               (pre ++ 123%N :: 123%N :: rest))
      by (apply never_matches_braces; [ reflexivity | assumption .. ]).
    apply replace_fn_never.
    apply never_matches_braces; [ reflexivity | assumption .. ]. }
  rewrite (@evaluateMacros_plain_stages C (pre ++ 123%N :: 123%N :: rest) c6
             varEscape w Hk Hm).
  - apply final_passes_lacks. assumption.
  - destruct pre; discriminate.
  - rewrite lacks_app, Hpre'. cbn [lacks forallb andb]. exact Hrest'.
  - apply includes_app. change (js "{{") with [123%N; 123%N].
    cbn [startsWith]. rewrite !N.eqb_refl. now destruct rest.
  - exact Hdice.
  - exact Hsimple.
  - exact Hb.
Qed.

End BuiltinOnly.

(* ================================================================== *)
(** * Comments and the idle time *)

(** The directive of a comment: the lazy group stops at the first pair
    of closing braces. *)
Lemma rexec_commentPattern (upper : code_unit -> code_unit) (ignoreCase : bool)
  (comment post : JsString) :
  lacks 125%N comment = true ->
  rexec upper ignoreCase
    (RSeqs [RLit (js "{{//"); RGroup 1 (RStarLazy (RClass any_char)); RLit (js "}}")])
    (js "{{//" ++ comment ++ js "}}" ++ post)
  = Some (post, [(1, comment)]).
Proof.
  intros Hc. unfold rexec. cbn [RSeqs].
  rewrite rmatch_lit, rmatch_seq_group.
  apply rmatch_lazy_class_app.
  - clear Hc. induction comment as [ | x l IH ]; [ reflexivity | exact IH ].
  - intros pre suf E Hne.
    apply (@rmatch_begins upper ignoreCase 125%N eq_refl); [ reflexivity | ].
    destruct suf as [ | x suf ]; [ congruence | ]. cbn [app].
    apply (lacks_suffix 125%N comment pre (x :: suf)) in Hc; [ | assumption ].
    cbn [lacks forallb] in Hc. apply andb_prop in Hc as [Hx _].
    apply negb_true_iff in Hx. now apply N.eqb_neq in Hx.
  - match goal with
    | |- context [firstn ?n ?l] =>
        replace (firstn n l) with comment
          by (rewrite length_app, Nat.add_sub, firstn_app, Nat.sub_diag, firstn_all;
              cbn [firstn]; now rewrite app_nil_r)
    end.
    apply rmatch_closing.
Qed.

Lemma comment_directive_split (comment post : JsString) :
  js "{{//" ++ comment ++ js "}}" ++ post = (js "{{//" ++ comment ++ js "}}") ++ post.
Proof. now rewrite <- !app_assoc. Qed.

Section Builtins.

Variable C : Collaborators.

(** The passes of the built-in macros on a text whose only macro is a
    comment. *)
Lemma builtinSubstitutions_comment (pre comment post : JsString)
  (varEscape : EscapeFn) (w : World) :
  lacks 123%N pre = true -> lacks 123%N comment = true -> lacks 123%N post = true ->
  lacks 125%N comment = true ->
  builtinSubstitutions C (pre ++ js "{{//" ++ comment ++ js "}}" ++ post) varEscape w =
  pre ++ post.
Proof.
  intros Hpre Hcomment Hpost Hclose.
  set (R := 47%N :: 47%N :: comment ++ js "}}" ++ post).
  assert (HR : lacks 123%N R = true).
  { unfold R. change (47%N :: 47%N :: comment ++ js "}}" ++ post)
      with (js "//" ++ comment ++ js "}}" ++ post).
    rewrite !lacks_app, Hcomment, Hpost. reflexivity. }
  assert (Hall : lacks 123%N (pre ++ post) = true)
    by (rewrite lacks_app, Hpre, Hpost; reflexivity).
  assert (Ecomment :
            replace_str (unicode_upper C) false
              (RSeqs [RLit (js "{{//"); RGroup 1 (RStarLazy (RClass any_char));
                      RLit (js "}}")]) [] (pre ++ 123%N :: 123%N :: R) = pre ++ post).
  { change (123%N :: 123%N :: R) with (js "{{//" ++ comment ++ js "}}" ++ post).
    rewrite comment_directive_split. unfold replace_str.
    rewrite (@replace_fn_one_match (unicode_upper C) false 123%N eq_refl
               (RSeqs [RLit (js "{{//"); RGroup 1 (RStarLazy (RClass any_char));
                       RLit (js "}}")]) _ pre
               (js "{{//" ++ comment ++ js "}}") post [(1, comment)]
               eq_refl Hpre Hpost ltac:(discriminate)).
    - reflexivity.
    - rewrite <- comment_directive_split. now apply rexec_commentPattern. }
  change (js "{{//" ++ comment ++ js "}}" ++ post) with (123%N :: 123%N :: R).
  unfold builtinSubstitutions. cbv zeta.
  repeat rewrite (@replace_fn_never (unicode_upper C) true _ _ (pre ++ 123%N :: 123%N :: R))
    by (apply never_matches_braces;
        [ reflexivity | exact Hpre | exact HR
        | intros; reflexivity | intros; reflexivity ]).
  rewrite Ecomment.
  repeat rewrite (@replace_fn_lacks _ _ 123%N eq_refl _ _ (pre ++ post))
    by (reflexivity || assumption).
  now apply timeDiffReplace_lacks.
Qed.

(** The passes of the built-in macros on a text whose only macro is
    [{{idle_duration}}]. *)
Lemma builtinSubstitutions_idle_duration (pre post : JsString)
  (varEscape : EscapeFn) (w : World) :
  lacks 123%N pre = true -> lacks 123%N post = true ->
  lacks 123%N (getTimeSinceLastMessage C w) = true ->
  builtinSubstitutions C (pre ++ js "{{idle_duration}}" ++ post) varEscape w =
  pre ++ getTimeSinceLastMessage C w ++ post.
Proof.
  intros Hpre Hpost Hidle.
  set (R := js "idle_duration}}" ++ post).
  assert (HR : lacks 123%N R = true).
  { unfold R. rewrite lacks_app, Hpost. reflexivity. }
  assert (Hall : lacks 123%N (pre ++ getTimeSinceLastMessage C w ++ post) = true)
    by (rewrite !lacks_app, Hpre, Hidle, Hpost; reflexivity).
  assert (Eidle :
            replace_fn (unicode_upper C) true (RLit (js "{{idle_duration}}"))
              (fun _ => getTimeSinceLastMessage C w) (pre ++ 123%N :: 123%N :: R)
            = pre ++ getTimeSinceLastMessage C w ++ post).
  { change (123%N :: 123%N :: R) with (js "{{idle_duration}}" ++ post).
    rewrite (@replace_fn_one_match (unicode_upper C) true 123%N eq_refl
               (RLit (js "{{idle_duration}}")) _ pre
               (js "{{idle_duration}}") post []
               eq_refl Hpre Hpost ltac:(discriminate)).
    - reflexivity.
    - unfold rexec. apply rmatch_RLit. }
  change (js "{{idle_duration}}" ++ post) with (123%N :: 123%N :: R).
  unfold builtinSubstitutions. cbv zeta.
  repeat rewrite (@replace_fn_never (unicode_upper C) true _ _ (pre ++ 123%N :: 123%N :: R))
    by (apply never_matches_braces;
        [ reflexivity | exact Hpre | exact HR
        | intros; reflexivity | intros; reflexivity ]).
  rewrite (@replace_str_never (unicode_upper C) false _ [] (pre ++ 123%N :: 123%N :: R))
    by (apply never_matches_braces;
        [ reflexivity | exact Hpre | exact HR
        | intros; reflexivity | intros; reflexivity ]).
  repeat rewrite (@replace_fn_never (unicode_upper C) true _ _ (pre ++ 123%N :: 123%N :: R))
    by (apply never_matches_braces;
        [ reflexivity | exact Hpre | exact HR
        | intros; reflexivity | intros; reflexivity ]).
  rewrite Eidle.
  repeat rewrite (@replace_fn_lacks _ _ 123%N eq_refl _ _
                    (pre ++ getTimeSinceLastMessage C w ++ post))
    by (reflexivity || assumption).
  now apply timeDiffReplace_lacks.
Qed.

End Builtins.

(** X14.  A comment [{{// ... }}] evaluates to nothing: the text before it
    and the text after the first pair of closing braces are joined, the
    escaping function is not applied, and a comment may run over several
    lines.  Here the comment has no brace inside it, the text around it no
    opening brace, neither has a [<], [env] is empty and no macro is
    registered, and the passes of the other modules leave the text as it
    is. *)
Theorem comment_evaluates_to_nothing (C : Collaborators)
  (pre comment post : JsString) (varEscape : EscapeFn) (w : World) :
  passes_keep C (pre ++ js "{{//" ++ comment ++ js "}}" ++ post) ->
  macros w = [] ->
  lacks 123%N pre = true -> lacks 123%N comment = true -> lacks 123%N post = true ->
  lacks 60%N pre = true -> lacks 60%N comment = true -> lacks 60%N post = true ->
  lacks 125%N comment = true ->
  fst (evaluateMacros C (pre ++ js "{{//" ++ comment ++ js "}}" ++ post) []
         varEscape w) = pre ++ post.
Proof.
  intros Hk Hm Hpre Hcomment Hpost Hpre' Hcomment' Hpost' Hclose.
  pose proof (builtinSubstitutions_comment C pre comment post varEscape (tick w)
                Hpre Hcomment Hpost Hclose) as Hb.
  change (js "{{//" ++ comment ++ js "}}" ++ post)
    with (123%N :: 123%N :: js "//" ++ comment ++ js "}}" ++ post) in *.
  apply evaluateMacros_builtin_only; try assumption.
  - rewrite !lacks_app, Hcomment, Hpost. reflexivity.
  - rewrite !lacks_app, Hcomment', Hpost'. reflexivity.
  - unfold early_passes_unmatched. repeat constructor; intros; reflexivity.
  - rewrite lacks_app, Hpre, Hpost. reflexivity.
Qed.

Lemma comment_evaluates_to_nothing_witness :
  fst (evaluateMacros Sample.collaborators
         (js "Hi " ++ js "{{//" ++ js " a note" ++ js "}}" ++ js "there }} you") []
         bracket_escape Sample.world) = js "Hi " ++ js "there }} you".
Proof.
  exact (comment_evaluates_to_nothing Sample.collaborators (js "Hi ") (js " a note")
           (js "there }} you") bracket_escape Sample.world
           (sample_passes_keep _) eq_refl eq_refl eq_refl eq_refl eq_refl eq_refl
           eq_refl eq_refl).
Defined.

(** X15.  [{{idle_duration}}] evaluates to the time since the last
    message as [getTimeSinceLastMessage] words it, and this text is not
    passed to the escaping function: the result is the same for every
    escaping function.  Here the text around the macro has neither an
    opening brace nor a [<], the wording has no opening brace, [env] is
    empty and no macro is registered, and the passes of the other modules
    leave the text as it is. *)
Theorem idle_duration_is_not_escaped (C : Collaborators) (pre post : JsString)
  (varEscape : EscapeFn) (w : World) :
  passes_keep C (pre ++ js "{{idle_duration}}" ++ post) ->
  macros w = [] ->
  lacks 123%N pre = true -> lacks 123%N post = true ->
  lacks 60%N pre = true -> lacks 60%N post = true ->
  lacks 123%N (getTimeSinceLastMessage C w) = true ->
  fst (evaluateMacros C (pre ++ js "{{idle_duration}}" ++ post) [] varEscape w) =
  pre ++ getTimeSinceLastMessage C w ++ post.
Proof.
  intros Hk Hm Hpre Hpost Hpre' Hpost' Hidle.
  pose proof (builtinSubstitutions_idle_duration C pre post varEscape (tick w)
                Hpre Hpost Hidle) as Hb.
  change (getTimeSinceLastMessage C (tick w)) with (getTimeSinceLastMessage C w) in Hb.
  change (js "{{idle_duration}}" ++ post)
    with (123%N :: 123%N :: js "idle_duration}}" ++ post) in *.
  apply evaluateMacros_builtin_only; try assumption.
  - unfold early_passes_unmatched. repeat constructor; intros; reflexivity.
  - rewrite !lacks_app, Hpre, Hidle, Hpost. reflexivity.
Qed.

Lemma idle_duration_is_not_escaped_witness :
  fst (evaluateMacros Sample.collaborators
         (js "Idle: " ++ js "{{idle_duration}}" ++ js ".") [] bracket_escape
         Sample.world) =
  js "Idle: " ++ getTimeSinceLastMessage Sample.collaborators Sample.world ++ js ".".
Proof.
  exact (idle_duration_is_not_escaped Sample.collaborators (js "Idle: ") (js ".")
           bracket_escape Sample.world (sample_passes_keep _) eq_refl eq_refl eq_refl
           eq_refl eq_refl eq_refl).
Defined.

(* ================================================================== *)
(** * The lists of [random] and [pick] *)

Lemma startsWith_nil (s : JsString) : startsWith s [] = true.
Proof. now destruct s. Qed.

Lemma startsWith_app (p rest : JsString) : startsWith (p ++ rest) p = true.
Proof.
  induction p as [ | c p IH ]; [ apply startsWith_nil | ].
  cbn [app startsWith]. now rewrite N.eqb_refl, IH.
Qed.

Lemma startsWith_other (c h : code_unit) (s t : JsString) :
  negb (c =? h)%N = true -> startsWith (c :: s) (h :: t) = false.
Proof. intros H. apply negb_true_iff in H. cbn [startsWith]. now rewrite H. Qed.

Lemma includes_lacks (h : code_unit) (t s : JsString) :
  lacks h s = true -> includes s (h :: t) = false.
Proof.
  induction s as [ | c s IH ]; intros H; [ reflexivity | ].
  cbn [lacks forallb] in H. apply andb_prop in H as [Hc Hs].
  cbn [includes]. rewrite (startsWith_other c h s t Hc). now apply IH.
Qed.

Lemma lacks_rev (b : code_unit) (s : JsString) : lacks b (rev s) = lacks b s.
Proof.
  induction s as [ | c s IH ]; [ reflexivity | ].
  cbn [rev]. rewrite lacks_app, IH. cbn [lacks forallb].
  rewrite andb_true_r. apply andb_comm.
Qed.

Lemma lacks_trimStart (b : code_unit) (s : JsString) :
  lacks b s = true -> lacks b (trimStart s) = true.
Proof.
  induction s as [ | c s IH ]; intros H; [ reflexivity | ].
  cbn [trimStart]. destruct (is_whitespace c); [ | exact H ].
  cbn [lacks forallb] in H. apply andb_prop in H as [_ H]. now apply IH.
Qed.

Lemma lacks_trim (b : code_unit) (s : JsString) :
  lacks b s = true -> lacks b (trim s) = true.
Proof.
  intros H. unfold trim. rewrite lacks_rev. apply lacks_trimStart.
  rewrite lacks_rev. now apply lacks_trimStart.
Qed.

Section Splitting.

Variable h : code_unit.
Variable t : JsString.

Lemma split_go_item (item : JsString) :
  forall rest acc,
    lacks h item = true ->
    split_go (h :: t) (item ++ rest) acc 0 =
    split_go (h :: t) rest (rev item ++ acc) 0.
Proof.
  induction item as [ | c item IH ]; intros rest acc H; [ reflexivity | ].
  cbn [lacks forallb] in H. apply andb_prop in H as [Hc H].
  cbn [app split_go]. rewrite (startsWith_other c h _ t Hc).
  rewrite IH by assumption. cbn [rev]. now rewrite <- app_assoc.
Qed.

Lemma split_go_pass (a : JsString) :
  forall rest acc,
    split_go (h :: t) (a ++ rest) acc (length a) = split_go (h :: t) rest acc 0.
Proof.
  induction a as [ | c a IH ]; intros rest acc; [ reflexivity | ].
  cbn [app length split_go]. apply IH.
Qed.

Lemma split_go_separator (rest acc : JsString) :
  split_go (h :: t) ((h :: t) ++ rest) acc 0 =
  rev acc :: split_go (h :: t) rest [] 0.
Proof.
  pose proof (startsWith_app (h :: t) rest) as E.
  cbn [app split_go] in *. rewrite E.
  replace (length (h :: t) - 1) with (length t) by (cbn [length]; lia).
  now rewrite split_go_pass.
Qed.

(** Splitting what was joined. *)
Lemma js_split_joined (items : list JsString) (last : JsString) :
  Forall (fun item => lacks h item = true) items -> lacks h last = true ->
  js_split (concat (map (fun item => item ++ h :: t) items) ++ last) (h :: t) =
  items ++ [last].
Proof.
  intros Hitems Hlast. unfold js_split.
  induction Hitems as [ | item items Hitem Hitems IH ].
  - cbn [map concat app]. rewrite <- (app_nil_r last) at 1.
    rewrite split_go_item by assumption. cbn [split_go].
    now rewrite app_nil_r, rev_involutive.
  - cbn [map concat]. rewrite <- !app_assoc.
    rewrite split_go_item by assumption.
    rewrite split_go_separator, IH, app_nil_r, rev_involutive. reflexivity.
Qed.

End Splitting.

Lemma lacks_joined (b c : code_unit) (items : list JsString) (last : JsString) :
  negb (c =? b)%N = true ->
  Forall (fun item => lacks b item = true) items -> lacks b last = true ->
  lacks b (concat (map (fun item => item ++ [c]) items) ++ last) = true.
Proof.
  intros Hc Hitems Hlast. induction Hitems as [ | item items Hitem Hitems IH ].
  - exact Hlast.
  - cbn [map concat]. rewrite <- !app_assoc. rewrite lacks_app, Hitem.
    cbn [app lacks forallb andb]. rewrite Hc. exact IH.
Qed.

(** X16.  The list of a [random] or [pick] directive.  Items joined by
    commas, none of which has a comma, a backslash, a colon or a hash
    sign, are parsed into the items with the white space around each
    removed.  Items joined by double colons, none of which has a colon,
    are parsed into the items as they stand when there are two at least:
    white space and commas stay in them. *)
Theorem parse_list_of_joined_items (C : Collaborators) :
  (forall items last,
      Forall (fun item =>
                lacks 44%N item = true /\ lacks 92%N item = true /\
                lacks 58%N item = true /\ lacks 35%N item = true) (last :: items) ->
      parse_list C (concat (map (fun item => item ++ js ",") items) ++ last) =
      map trim (items ++ [last])) /\
  (forall first items last,
      Forall (fun item => lacks 58%N item = true) (first :: last :: items) ->
      parse_list C
        (first ++ js "::" ++ concat (map (fun item => item ++ js "::") items) ++ last) =
      first :: items ++ [last]).
Proof.
  split.
  - intros items last H.
    assert (Hall : forall b,
               (fun b => b = 44%N \/ b = 92%N \/ b = 58%N \/ b = 35%N) b ->
               Forall (fun item => lacks b item = true) (last :: items)).
    { intros b Hb. eapply Forall_impl; [ | exact H ].
      intros item [H1 [H2 [H3 H4]]].
      destruct Hb as [-> | [-> | [-> | ->]]]; assumption. }
    pose proof (Hall 44%N (or_introl eq_refl)) as H44.
    pose proof (Hall 92%N (or_intror (or_introl eq_refl))) as H92.
    pose proof (Hall 58%N (or_intror (or_intror (or_introl eq_refl)))) as H58.
    pose proof (Hall 35%N (or_intror (or_intror (or_intror eq_refl)))) as H35.
    change (js ",") with [44%N].
    unfold parse_list.
    rewrite (includes_lacks 58%N [58%N])
      by (apply lacks_joined;
          [ reflexivity | exact (Forall_inv_tail H58) | exact (Forall_inv H58) ]).
    rewrite (@replace_str_lacks (unicode_upper C) false 92%N eq_refl)
      by (reflexivity ||
          (apply lacks_joined;
           [ reflexivity | exact (Forall_inv_tail H92) | exact (Forall_inv H92) ])).
    change (js ",") with [44%N].
    match goal with
    | |- map _ ?l = _ =>
        replace l with (items ++ [last])
          by (symmetry;
              exact (js_split_joined 44%N [] items last
                       (Forall_inv_tail H44) (Forall_inv H44)))
    end.
    apply map_ext_in. intros item Hin.
    apply (@replace_str_lacks (unicode_upper C) false 35%N eq_refl); [ reflexivity | ].
    apply lacks_trim.
    apply in_app_or in Hin as [Hin | [<- | []]].
    + exact (proj1 (Forall_forall _ _) (Forall_inv_tail H35) item Hin).
    + exact (Forall_inv H35).
  - intros first items last H.
    pose proof (Forall_inv H) as Hfirst.
    pose proof (Forall_inv (Forall_inv_tail H)) as Hlast.
    pose proof (Forall_inv_tail (Forall_inv_tail H)) as Hitems.
    change (js "::") with [58%N; 58%N].
    unfold parse_list.
    rewrite includes_app by apply (startsWith_app [58%N; 58%N]).
    change (js "::") with [58%N; 58%N].
    match goal with
    | |- js_split ?l _ = _ =>
        replace l
          with (concat (map (fun item => item ++ [58%N; 58%N]) (first :: items)) ++ last)
          by (cbn [map concat]; now rewrite <- !app_assoc)
    end.
    exact (js_split_joined 58%N [58%N] (first :: items) last
             (Forall_cons _ Hfirst Hitems) Hlast).
Qed.

Lemma parse_list_of_joined_items_witness :
  parse_list Sample.collaborators
    (concat (map (fun item => item ++ js ",") [js "red"; js " green "]) ++ js "blue ") =
  map trim ([js "red"; js " green "] ++ [js "blue "]) /\
  parse_list Sample.collaborators
    (js "red, or so" ++ js "::" ++
     concat (map (fun item => item ++ js "::") [js " green "]) ++ js "blue ") =
  js "red, or so" :: [js " green "] ++ [js "blue "].
Proof.
  split.
  - apply (proj1 (parse_list_of_joined_items Sample.collaborators)).
    repeat constructor.
  - apply (proj2 (parse_list_of_joined_items Sample.collaborators)).
    repeat constructor.
Defined.

(* ================================================================== *)
(** * Swipes *)

Lemma getLastMessageId_loop_bound (ex : bool) (filter : option (Message -> bool))
  (rchat : list Message) (i : nat) :
  getLastMessageId_loop ex filter rchat = Some i -> i < length rchat.
Proof.
  intros H. pose proof (getLastMessageId_loop_spec ex filter rchat) as S.
  rewrite H in S. destruct S as [later [m [earlier [E [Ei _]]]]].
  rewrite E, length_app. cbn [length]. lia.
Qed.

(** X17.  [lastSwipeId] and [currentSwipeId] speak of the last message of
    the chat, also while a swipe of it is being generated, when
    [lastMessage] and [lastMessageId] pass over that message.  For a last
    message with swipes and a numeric swipe index, [lastSwipeId] is the
    number of swipes and [currentSwipeId] the index plus one; the second
    exceeds the first exactly when a swipe is being generated, and exactly
    then [getLastMessageId], asked to exclude such messages, does not
    return the last index of the chat. *)
Theorem swipe_ids_of_last_message (w : World) (before : list Message)
  (m : Message) (sw : list JsString) (n : Z) :
  chat w = before ++ [m] ->
  swipes m = Some sw -> swipe_id m = SwipeNumber n ->
  getLastMessageId false None w = Some (length before) /\
  getLastSwipeId w = VNumber (Int (Z.of_nat (length sw))) /\
  getCurrentSwipeId w = VNumber (Int (n + 1)) /\
  if (Z.of_nat (length sw) <=? n)%Z
  then getLastMessageId true None w <> Some (length before) /\
       (Z.of_nat (length sw) < n + 1)%Z
  else getLastMessageId true None w = Some (length before) /\
       (n + 1 <= Z.of_nat (length sw))%Z.
Proof.
  intros Hchat Hsw Hid.
  assert (Hlast : getLastMessageId false None w = Some (length before)).
  { unfold getLastMessageId. rewrite Hchat, rev_app_distr.
    cbn [rev app getLastMessageId_loop andb]. now rewrite length_rev. }
  assert (Hat : nth_error (chat w) (length before) = Some m).
  { rewrite Hchat, nth_error_app2, Nat.sub_diag by lia. reflexivity. }
  split; [ exact Hlast | ].
  split; [ unfold getLastSwipeId, chat_at; now rewrite Hlast, Hat, Hsw | ].
  split; [ unfold getCurrentSwipeId, chat_at; now rewrite Hlast, Hat, Hid | ].
  unfold getLastMessageId. rewrite Hchat, rev_app_distr.
  cbn [rev app getLastMessageId_loop andb]. rewrite Hsw, Hid.
  destruct (Z.leb_spec (Z.of_nat (length sw)) n) as [Hle | Hgt].
  - split; [ | lia ]. intros E.
    apply getLastMessageId_loop_bound in E. rewrite length_rev in E. lia.
  - rewrite length_rev. split; [ reflexivity | lia ].
Qed.

Lemma swipe_ids_of_last_message_witness :
  let m := {| is_user := false; is_system := false; mes := VString (js "Hi");
              swipes := Some [js "Hi"; js "Hello"]; swipe_id := SwipeNumber 2;
              send_date := VUndefined |} in
  let w := set_chat [m] Sample.world in
  getLastMessageId false None w = Some 0 /\
  getLastSwipeId w = VNumber (Int 2) /\
  getCurrentSwipeId w = VNumber (Int 3) /\
  getLastMessageId true None w <> Some 0 /\ (2 < 3)%Z.
Proof.
  exact (swipe_ids_of_last_message
           (set_chat [{| is_user := false; is_system := false; mes := VString (js "Hi");
                         swipes := Some [js "Hi"; js "Hello"]; swipe_id := SwipeNumber 2;
                         send_date := VUndefined |}] Sample.world)
           [] _ [js "Hi"; js "Hello"] 2 eq_refl eq_refl eq_refl).
Defined.

(* ================================================================== *)
(** * The variables of the caller and the difference of two times *)

Lemma env_directive_split (key post : JsString) :
  js "{{" ++ key ++ js "}}" ++ post = (js "{{" ++ key ++ js "}}") ++ post.
Proof. now rewrite <- !app_assoc. Qed.

(** X18.  A macro [{{key}}] of an [env] with the one entry [key] becomes
    the escaped text of the value: the value itself when it is not a
    function and the result of calling it with the nonce when it is,
    turned into text by [sanitizeMacroValue]; the text around the macro,
    which has no opening brace, is kept.  Here the key is not one that
    [new RegExp] reads as a quantifier (digits, digits and a comma, or
    digits, a comma and digits). *)
Theorem substituteEnv_single_entry (C : Collaborators) (pre key post : JsString)
  (value : JsVal) (nonce : JsString) (varEscape : EscapeFn) :
  braced_quantifier key = false ->
  lacks 123%N pre = true -> lacks 123%N post = true ->
  substituteEnv C (pre ++ js "{{" ++ key ++ js "}}" ++ post) [(key, value)] nonce
    varEscape =
  pre ++ js_String
           (esc_call varEscape
              (VString (sanitizeMacroValue
                          (match value with
                           | VFunction _ call => call (Some nonce)
                           | _ => value
                           end))))
      ++ post.
Proof.
  intros _ Hpre Hpost. unfold substituteEnv.
  assert (Hkeys : for_in_keys [(key, value)] = [key]).
  { unfold for_in_keys. cbn [flat_map fst app]. now destruct (array_index key). }
  rewrite Hkeys. cbn [fold_left]. rewrite env_directive_split.
  rewrite (@replace_fn_one_match (unicode_upper C) true 123%N eq_refl
             (envPattern key) _ pre (js "{{" ++ key ++ js "}}") post []
             eq_refl Hpre Hpost ltac:(discriminate)).
  - cbn [entries_get]. rewrite str_eqb_refl. reflexivity.
  - unfold rexec, envPattern. apply rmatch_RLit.
Qed.

Lemma substituteEnv_single_entry_witness :
  substituteEnv Sample.collaborators (js "I am " ++ js "{{" ++ js "age" ++ js "}}" ++ js ".")
    [(js "age", VFunction (js "() => 42") (fun _ => VNumber (Int 42)))] (js "nonce")
    bracket_escape =
  js "I am [42].".
Proof.
  exact (substituteEnv_single_entry Sample.collaborators (js "I am ") (js "age") (js ".")
           (VFunction (js "() => 42") (fun _ => VNumber (Int 42))) (js "nonce")
           bracket_escape eq_refl eq_refl eq_refl).
Defined.

Lemma forallb_dot_head (b : code_unit) (s pre suf : JsString) (x : code_unit) :
  lacks b s = true -> s = pre ++ x :: suf -> x <> b.
Proof.
  intros H E. apply (lacks_suffix b s pre (x :: suf)) in H; [ | assumption ].
  cbn [lacks forallb] in H. apply andb_prop in H as [Hx _].
  apply negb_true_iff in Hx. now apply N.eqb_neq in Hx.
Qed.

(** The directive of a difference of times: each lazy group stops at
    the first place where the pattern can go on. *)
Lemma rexec_timeDiffPattern (upper : code_unit -> code_unit) (ignoreCase : bool)
  (a b post : JsString) :
  forallb dot a = true -> lacks 58%N a = true ->
  forallb dot b = true -> lacks 125%N b = true ->
  rexec upper ignoreCase timeDiffPattern
    (js "{{timeDiff::" ++ a ++ js "::" ++ b ++ js "}}" ++ post)
  = Some (post, [(2, b); (1, a)]).
Proof.
  intros Ha Ha' Hb Hb'. unfold rexec, timeDiffPattern. cbn [RSeqs].
  rewrite rmatch_lit, rmatch_seq_group.
  apply rmatch_lazy_class_app; [ assumption | | ].
  - intros pre suf E Hne.
    apply (@rmatch_begins upper ignoreCase 58%N eq_refl); [ reflexivity | ].
    destruct suf as [ | x suf ]; [ congruence | ]. cbn [app].
    exact (forallb_dot_head 58%N a pre suf x Ha' E).
  - match goal with
    | |- context [firstn ?n ?l] =>
        replace (firstn n l) with a
          by (rewrite length_app, Nat.add_sub, firstn_app, Nat.sub_diag, firstn_all;
              cbn [firstn]; now rewrite app_nil_r)
    end.
    rewrite rmatch_lit, rmatch_seq_group.
    apply rmatch_lazy_class_app; [ assumption | | ].
    + intros pre suf E Hne.
      apply (@rmatch_begins upper ignoreCase 125%N eq_refl); [ reflexivity | ].
      destruct suf as [ | x suf ]; [ congruence | ]. cbn [app].
      exact (forallb_dot_head 125%N b pre suf x Hb' E).
    + match goal with
      | |- context [firstn ?n ?l] =>
          replace (firstn n l) with b
            by (rewrite length_app, Nat.add_sub, firstn_app, Nat.sub_diag, firstn_all;
                cbn [firstn]; now rewrite app_nil_r)
      end.
      apply rmatch_closing.
Qed.

Lemma timeDiff_directive_split (a b post : JsString) :
  js "{{timeDiff::" ++ a ++ js "::" ++ b ++ js "}}" ++ post =
  (js "{{timeDiff::" ++ a ++ js "::" ++ b ++ js "}}") ++ post.
Proof. now rewrite <- !app_assoc. Qed.

(** X19.  A directive [{{timeDiff::a::b}}] becomes the escaped humanized
    difference of the times [a] and [b], in this order: [a] is the text up
    to the first double colon and [b] the text up to the first pair of
    closing braces.  Here [a] has no colon and [b] no closing brace,
    neither runs over a line end, and the text around the directive has no
    opening brace. *)
Theorem timeDiffReplace_directive (C : Collaborators) (pre a b post : JsString)
  (varEscape : EscapeFn) :
  lacks 123%N pre = true -> lacks 123%N post = true ->
  forallb dot a = true -> lacks 58%N a = true ->
  forallb dot b = true -> lacks 125%N b = true ->
  timeDiffReplace C (pre ++ js "{{timeDiff::" ++ a ++ js "::" ++ b ++ js "}}" ++ post)
    varEscape =
  pre ++ js_String (esc_call varEscape (VString (moment_diff_humanize C a b))) ++ post.
Proof.
  intros Hpre Hpost Ha Ha' Hb Hb'. unfold timeDiffReplace.
  rewrite timeDiff_directive_split.
  rewrite (@replace_fn_one_match (unicode_upper C) true 123%N eq_refl
             timeDiffPattern _ pre
             (js "{{timeDiff::" ++ a ++ js "::" ++ b ++ js "}}") post [(2, b); (1, a)]
             eq_refl Hpre Hpost ltac:(discriminate)).
  - reflexivity.
  - rewrite <- timeDiff_directive_split. now apply rexec_timeDiffPattern.
Qed.

Lemma timeDiffReplace_directive_witness :
  timeDiffReplace Sample.collaborators
    (js "It was " ++ js "{{timeDiff::" ++ js "2024-01-02" ++ js "::" ++ js "2024-01-01"
       ++ js "}}" ++ js ".") bracket_escape =
  js "It was " ++
  js_String (esc_call bracket_escape
               (VString (moment_diff_humanize Sample.collaborators
                           (js "2024-01-02") (js "2024-01-01")))) ++ js ".".
Proof.
  exact (timeDiffReplace_directive Sample.collaborators (js "It was ") (js "2024-01-02")
           (js "2024-01-01") (js ".") bracket_escape
           eq_refl eq_refl eq_refl eq_refl eq_refl eq_refl).
Defined.

(* ================================================================== *)
(** * Macros that the engine does not know *)

Section LiteralPrefix.

Variable upper : code_unit -> code_unit.
Variable ignoreCase : bool.

Lemma matches_prefix_app (l1 l2 : JsString) :
  forall s,
    matches_prefix upper ignoreCase (l1 ++ l2) s =
    matches_prefix upper ignoreCase l1 s
    && matches_prefix upper ignoreCase l2 (skipn (length l1) s).
Proof.
  induction l1 as [ | c l1 IH ]; intros s; [ reflexivity | ].
  cbn [app matches_prefix length]. destruct s as [ | x s ]; [ reflexivity | ].
  cbn [skipn]. now rewrite IH, andb_assoc.
Qed.

(** Literal text matches what begins with it and goes on after it. *)
Lemma rmatch_is_lit (r : regex) :
  is_lit r = true ->
  forall s caps (k : Cont),
    rmatch upper ignoreCase r s caps k =
    if matches_prefix upper ignoreCase (lit_prefix r) s
    then k (skipn (length (lit_prefix r)) s) caps
    else None.
Proof.
  induction r as [ | c | p | r1 IH1 r2 IH2 | greedy bound r1 IH1 | i r1 IH1 ];
    intros Hr s caps k; cbn [is_lit] in Hr; try discriminate.
  - reflexivity.
  - cbn [rmatch lit_prefix matches_prefix length]. destruct s as [ | x s ]; [ reflexivity | ].
    cbn [skipn]. now rewrite andb_true_r.
  - apply andb_prop in Hr as [H1 H2].
    cbn [rmatch lit_prefix]. rewrite H1, (IH1 H1), matches_prefix_app.
    destruct (matches_prefix upper ignoreCase (lit_prefix r1) s); [ | reflexivity ].
    cbn [andb]. rewrite (IH2 H2), length_app, Nat.add_comm, <- skipn_skipn.
    reflexivity.
Qed.

(** A pattern fails on a text that does not begin as its matches do. *)
Lemma rmatch_prefix_mismatch (r : regex) :
  forall s caps (k : Cont),
    matches_prefix upper ignoreCase (lit_prefix r) s = false ->
    rmatch upper ignoreCase r s caps k = None.
Proof.
  induction r as [ | c | p | r1 IH1 r2 IH2 | greedy bound r1 IH1 | i r1 IH1 ];
    intros s caps k H; cbn [lit_prefix matches_prefix] in H; try discriminate.
  - cbn [rmatch]. destruct s as [ | x s ]; [ reflexivity | ].
    rewrite andb_true_r in H. now rewrite H.
  - cbn [rmatch]. destruct (is_lit r1) eqn:E1.
    + rewrite (rmatch_is_lit r1 E1). rewrite matches_prefix_app in H.
      destruct (matches_prefix upper ignoreCase (lit_prefix r1) s); [ | reflexivity ].
      cbn [andb] in H. now apply IH2.
    + now apply IH1.
  - cbn [rmatch]. now apply IH1.
Qed.

Lemma third_char_mismatch (re : regex) (c : code_unit) (l : JsString)
  (x : code_unit) (rest : JsString) (caps : captures) (k : Cont) :
  lit_prefix re = 123%N :: 123%N :: c :: l ->
  N.eqb (canonicalize upper ignoreCase c) (canonicalize upper ignoreCase x) = false ->
  rmatch upper ignoreCase re (123%N :: 123%N :: x :: rest) caps k = None.
Proof.
  intros E H. apply rmatch_prefix_mismatch. rewrite E.
  cbn [matches_prefix]. rewrite H. now rewrite !andb_false_r.
Qed.

Lemma second_char_mismatch (re : regex) (l : JsString)
  (x : code_unit) (rest : JsString) (caps : captures) (k : Cont) :
  lit_prefix re = 123%N :: 123%N :: l ->
  N.eqb (canonicalize upper ignoreCase 123%N) (canonicalize upper ignoreCase x) = false ->
  rmatch upper ignoreCase re (123%N :: x :: rest) caps k = None.
Proof.
  intros E H. apply rmatch_prefix_mismatch. rewrite E.
  cbn [matches_prefix]. rewrite H. now rewrite !andb_false_r.
Qed.

End LiteralPrefix.

Lemma initial_free_spec (upper : code_unit -> code_unit) (x : code_unit) :
  initial_free upper x = true ->
  forall c,
    existsb (N.eqb c) macro_initials = true ->
    N.eqb (canonicalize upper true c) (canonicalize upper true x) = false.
Proof.
  intros H c Hc. unfold initial_free in H.
  apply existsb_exists in Hc as [c' [Hin Hc]]. apply N.eqb_eq in Hc. subst c'.
  apply negb_true_iff. revert c Hin. now apply forallb_forall.
Qed.

Lemma initial_free_exact (upper : code_unit -> code_unit) (x c : code_unit) :
  initial_free upper x = true ->
  existsb (N.eqb c) macro_initials = true ->
  N.eqb c x = false.
Proof.
  intros H Hc. destruct (N.eqb_spec c x) as [-> | ]; [ | reflexivity ].
  pose proof (initial_free_spec upper x H x Hc) as E.
  now rewrite N.eqb_refl in E.
Qed.

Section Unknown.

Variable C : Collaborators.
Variable pre rest : JsString.
Variable x : code_unit.

Hypothesis pre_plain : lacks 123%N pre = true.
Hypothesis rest_plain : lacks 123%N rest = true.
Hypothesis x_free : initial_free (unicode_upper C) x = true.

Lemma unknown_lacks_brace : lacks 123%N (x :: rest) = true.
Proof.
  cbn [lacks forallb]. rewrite N.eqb_sym.
  rewrite (initial_free_exact (unicode_upper C) x 123%N x_free eq_refl).
  exact rest_plain.
Qed.

(** A pattern whose matches begin with two opening braces and the initial
    of a macro has no match in the text. *)
Lemma unknown_never_matches (ignoreCase : bool) (re : regex) (c : code_unit)
  (l : JsString) :
  begins 123%N re = true ->
  lit_prefix re = 123%N :: 123%N :: c :: l ->
  existsb (N.eqb c) macro_initials = true ->
  never_matches (unicode_upper C) ignoreCase re (pre ++ 123%N :: 123%N :: x :: rest).
Proof.
  intros Hre E Hc. apply never_matches_braces.
  - exact Hre.
  - exact pre_plain.
  - exact unknown_lacks_brace.
  - intros caps k.
    apply (third_char_mismatch (unicode_upper C) ignoreCase re c l); [ exact E | ].
    destruct ignoreCase.
    + exact (initial_free_spec (unicode_upper C) x x_free c Hc).
    + exact (initial_free_exact (unicode_upper C) x c x_free Hc).
  - intros caps k.
    apply (second_char_mismatch (unicode_upper C) ignoreCase re (c :: l)); [ exact E | ].
    destruct ignoreCase.
    + exact (initial_free_spec (unicode_upper C) x x_free 123%N eq_refl).
    + exact (initial_free_exact (unicode_upper C) x 123%N x_free eq_refl).
Qed.

End Unknown.

(** X20.  A macro that the engine does not know is left in the text: a text
    whose only two opening braces are followed by a code unit that is, in
    either case, the initial of no macro of the engine is returned as it
    is.  Here the text has no [<], [env] is empty and no macro is
    registered, and the passes of the other modules leave the text as it
    is. *)
Theorem unknown_macro_is_kept (C : Collaborators) (pre rest : JsString)
  (x : code_unit) (varEscape : EscapeFn) (w : World) :
  passes_keep C (pre ++ js "{{" ++ x :: rest) -> macros w = [] ->
  lacks 123%N pre = true -> lacks 123%N rest = true ->
  lacks 60%N pre = true -> lacks 60%N (x :: rest) = true ->
  initial_free (unicode_upper C) x = true ->
  fst (evaluateMacros C (pre ++ js "{{" ++ x :: rest) [] varEscape w) =
  pre ++ js "{{" ++ x :: rest.
Proof.
  intros Hk Hm Hpre Hrest Hpre' Hrest' Hfree.
  change (js "{{" ++ x :: rest) with (123%N :: 123%N :: x :: rest) in *.
  set (T := pre ++ 123%N :: 123%N :: x :: rest) in *.
  assert (U : forall ignoreCase re c l,
             begins 123%N re = true ->
             lit_prefix re = 123%N :: 123%N :: c :: l ->
             existsb (N.eqb c) macro_initials = true ->
             never_matches (unicode_upper C) ignoreCase re T)
    by exact (unknown_never_matches C pre rest x Hpre Hrest Hfree).
  assert (Hdice : diceRollReplace C T (escape_as_value varEscape) identity_escape w
                  = (T, w)).
  { unfold diceRollReplace. apply replace_st_never.
    eapply U; reflexivity. }
  assert (Hsimple : simpleSubstitutions C T varEscape w = T).
  { unfold simpleSubstitutions. cbv zeta.
    rewrite (@replace_val_never (unicode_upper C) true (RLit (js "{{newline}}")) _ T)
      by (eapply U; reflexivity).
    rewrite (@replace_str_never (unicode_upper C) true _ [] T)
      by (apply never_matches_seq; eapply U; reflexivity).
    rewrite (@replace_str_never (unicode_upper C) true (RLit (js "{{noop}}")) _ T)
      by (eapply U; reflexivity).
    apply replace_fn_never. eapply U; reflexivity. }
  assert (Hbuiltin : builtinSubstitutions C T varEscape (tick w) = T).
  { unfold builtinSubstitutions. cbv zeta.
    repeat rewrite (@replace_fn_never (unicode_upper C) true _ _ T)
      by (eapply U; reflexivity).
    rewrite (@replace_str_never (unicode_upper C) false _ [] T)
      by (eapply U; reflexivity).
    repeat rewrite (@replace_fn_never (unicode_upper C) true _ _ T)
      by (eapply U; reflexivity).
    unfold timeDiffReplace. apply replace_fn_never. eapply U; reflexivity. }
  rewrite (@evaluateMacros_plain_stages C T T varEscape w Hk Hm).
  - rewrite bannedWordsReplace_unmatched
      by (unfold match_all; rewrite replace_st_never by (eapply U; reflexivity);
          reflexivity).
    rewrite replace_str_never by (eapply U; reflexivity).
    unfold randomReplace. rewrite replace_st_never by (eapply U; reflexivity).
    unfold pickReplace. destruct (getChatIdHash C (tick w)) as [h w1]. cbn [fst].
    apply replace_fn_never. eapply U; reflexivity.
  - unfold T. destruct pre; discriminate.
  - unfold T. rewrite lacks_app, Hpre'. exact Hrest'.
  - unfold T. apply includes_app. change (js "{{") with [123%N; 123%N].
    cbn [startsWith]. now rewrite !N.eqb_refl.
  - exact Hdice.
  - exact Hsimple.
  - exact Hbuiltin.
Qed.

Lemma unknown_macro_is_kept_witness :
  fst (evaluateMacros Sample.collaborators (js "Hello " ++ js "{{" ++ 117%N :: js "ser}}!")
         [] bracket_escape Sample.world) =
  js "Hello " ++ js "{{" ++ 117%N :: js "ser}}!".
Proof.
  exact (unknown_macro_is_kept Sample.collaborators (js "Hello ") (js "ser}}!") 117%N
           bracket_escape Sample.world (sample_passes_keep _) eq_refl eq_refl eq_refl
           eq_refl eq_refl eq_refl).
Defined.

(* ================================================================== *)
(** * The legacy tags, one by one *)

Section Angle.

Variable upper : code_unit -> code_unit.
Variable ignoreCase : bool.

(** A text with one [<], for a pattern that begins with one and does not
    match at it. *)
Lemma never_matches_angle (re : regex) (pre rest : JsString) :
  begins 60%N re = true ->
  lacks 60%N pre = true -> lacks 60%N rest = true ->
  (forall caps k, rmatch upper ignoreCase re (60%N :: rest) caps k = None) ->
  never_matches upper ignoreCase re (pre ++ 60%N :: rest).
Proof.
  intros Hre Hpre Hrest H1. induction pre as [ | c pre IH ]; intros a t caps k E.
  - cbn [app] in E. destruct a as [ | x a ]; cbn [app] in E.
    + subst t. apply H1.
    + injection E as _ E.
      apply (@rmatch_needs upper ignoreCase 60%N eq_refl);
        [ now apply begins_needs | ].
      apply (lacks_suffix 60%N rest a t); assumption.
  - cbn [lacks forallb] in Hpre. apply andb_prop in Hpre as [Hc Hpre].
    destruct a as [ | x a ]; cbn [app] in E.
    + subst t. apply (@rmatch_begins upper ignoreCase 60%N eq_refl); [ assumption | ].
      apply negb_true_iff in Hc. now apply N.eqb_neq in Hc.
    + injection E as _ E. exact (IH Hpre a t caps k E).
Qed.

End Angle.

Section LegacyTags.

Variable C : Collaborators.
Variable pre post : JsString.

Hypothesis pre_plain : lacks 60%N pre = true.
Hypothesis post_plain : lacks 60%N post = true.

(** A pass of the legacy substitutions whose tag is another one. *)
Lemma legacy_pass_other (lit : JsString) (repl : JsVal) (tag : JsString) :
  begins 60%N (RLit lit) = true ->
  hd_error tag = Some 60%N -> lacks 60%N (tl tag) = true ->
  (forall caps k,
      rmatch (unicode_upper C) true (RLit lit) (tag ++ post) caps k = None) ->
  replace_val (unicode_upper C) true (RLit lit) repl (pre ++ tag ++ post) =
  pre ++ tag ++ post.
Proof.
  intros Hre Hhd Htl H. destruct tag as [ | c name ]; [ discriminate | ].
  cbn [hd_error tl] in *. injection Hhd as ->.
  apply replace_val_never. cbn [app].
  apply never_matches_angle; try assumption.
  rewrite lacks_app, Htl. exact post_plain.
Qed.

(** The pass of the legacy substitutions whose tag it is. *)
Lemma legacy_pass_same (lit tag : JsString) (v : JsVal) :
  begins 60%N (RLit lit) = true ->
  tag <> [] ->
  rexec (unicode_upper C) true (RLit lit) (tag ++ post) = Some (post, []) ->
  (is_function v = false -> lacks 36%N (js_String v) = true) ->
  replace_val (unicode_upper C) true (RLit lit) v (pre ++ tag ++ post) =
  pre ++ replacement_of v tag ++ post.
Proof.
  intros Hre Hne Hexec Hv.
  exact (replace_val_one_match (unicode_upper C) true 60%N (RLit lit) v pre tag post []
           eq_refl Hre pre_plain post_plain Hne Hexec Hv).
Qed.

End LegacyTags.

Ltac legacy_other :=
  match goal with
  | Hpre : lacks 60%N ?pre = true, Hpost : lacks 60%N ?post = true
    |- context [replace_val (unicode_upper ?C) true (RLit ?lit) ?repl
                  (?pre ++ ?tag ++ ?post)] =>
      rewrite (legacy_pass_other C pre post Hpre Hpost lit repl tag
                 eq_refl eq_refl eq_refl ltac:(intros; reflexivity))
  end.

Ltac legacy_same Hd :=
  match goal with
  | Hpre : lacks 60%N ?pre = true, Hpost : lacks 60%N ?post = true
    |- context [replace_val (unicode_upper ?C) true (RLit ?lit) ?v
                  (?pre ++ ?tag ++ ?post)] =>
      rewrite (legacy_pass_same C pre post Hpre Hpost lit tag v
                 eq_refl ltac:(discriminate) eq_refl Hd)
  end.

(** X13.  Each legacy tag, in upper or in lower case, becomes what
    [replace] makes of the escaped value of its entry of [env], a function
    in [env] being called for it: [<USER>] that of [user], [<BOT>] and
    [<CHAR>] that of [char], and both [<GROUP>] and [<CHARIFNOTGROUP>]
    that of [group].  The escaped value is the second argument of
    [replace]: when the escaping function returns a function, that
    function is called with the tag as it stands in the text and its
    result takes the place of the tag; any other value takes it as text.
    The text around the tag is kept.  Here the text around the tag has no
    [<], what takes the place of the tag has no [<] either, and an escaped
    value that is not a function has no dollar sign, which [replace] would
    read as a reference to the match. *)
Theorem legacy_tag_becomes_env_value (C : Collaborators) (pre tag key post : JsString)
  (env : EnvObject) (varEscape : EscapeFn) :
  In (tag, key) legacy_tags ->
  lacks 60%N pre = true -> lacks 60%N post = true ->
  let escaped := esc_call varEscape (env_value env key) in
  lacks 60%N (replacement_of escaped tag) = true ->
  (is_function escaped = false -> lacks 36%N (js_String escaped) = true) ->
  legacySubstitutions C (pre ++ tag ++ post) env varEscape =
  pre ++ replacement_of escaped tag ++ post.
Proof.
  intros Htag Hpre Hpost escaped Hv Hd.
  assert (Hall : lacks 60%N (pre ++ replacement_of escaped tag ++ post) = true)
    by (rewrite !lacks_app, Hpre, Hv, Hpost; reflexivity).
  unfold legacy_tags in Htag. cbn [In] in Htag.
  unfold legacySubstitutions. cbv zeta. subst escaped.
  repeat (destruct Htag as [Htag | Htag];
          [ injection Htag as <- <-;
            repeat legacy_other;
            legacy_same Hd;
            repeat rewrite (@replace_val_lacks _ _ 60%N eq_refl _ _
                              (pre ++ replacement_of
                                        (esc_call varEscape (env_value env _)) _
                                   ++ post))
              by (reflexivity || assumption);
            reflexivity
          | ]).
  destruct Htag.
Qed.

Lemma legacy_tag_becomes_env_value_witness :
  legacySubstitutions Sample.collaborators
    (js "Hello " ++ js "<charifnotgroup>" ++ js "!")
    [(js "group", VFunction (js "() => name") (fun _ => VString (js "Al")))]
    bracket_escape =
  js "Hello " ++ js "[Al]" ++ js "!".
Proof.
  exact (legacy_tag_becomes_env_value Sample.collaborators (js "Hello ")
           (js "<charifnotgroup>") (js "group") (js "!")
           [(js "group", VFunction (js "() => name") (fun _ => VString (js "Al")))]
           bracket_escape
           (or_intror (or_intror (or_intror (or_intror (or_intror (or_intror
              (or_intror (or_intror (or_introl eq_refl)))))))))
           eq_refl eq_refl eq_refl (fun _ => eq_refl)).
Defined.

(* ================================================================== *)
(** * The macro that trims *)

Section LineBreaks.

Variable upper : code_unit -> code_unit.
Variable ignoreCase : bool.

Lemma canonicalize_differs (b x : code_unit) :
  is_symbol b = true -> x <> b ->
  N.eqb (canonicalize upper ignoreCase b) (canonicalize upper ignoreCase x) = false.
Proof.
  intros Hb Hx.
  destruct (N.eqb (canonicalize upper ignoreCase b) (canonicalize upper ignoreCase x)) eqn:E;
    [ | reflexivity ].
  apply (canonicalize_symbol upper ignoreCase b Hb) in E. contradiction.
Qed.

Lemma rmatch_seq (r1 r2 : regex) (s : JsString) (caps : captures) (k : Cont) :
  rmatch upper ignoreCase (RSeq r1 r2) s caps k =
  rmatch upper ignoreCase r1 s caps (fun s1 caps1 => rmatch upper ignoreCase r2 s1 caps1 k).
Proof. reflexivity. Qed.

(** The greedy line breaks take a line feed. *)
Lemma rmatch_line_breaks_cons (s : JsString) (caps : captures) (k : Cont) :
  rmatch upper ignoreCase (RStar line_break) (10%N :: s) caps k =
  match rmatch upper ignoreCase (RStar line_break) s caps k with
  | Some r => Some r
  | None => k (10%N :: s) caps
  end.
Proof.
  unfold line_break, RStar, ROpt. cbn [rmatch length].
  rewrite (canonicalize_differs 13%N 10%N eq_refl) by discriminate.
  rewrite N.eqb_refl.
  replace (length s <? S (length s)) with true
    by (symmetry; apply Nat.ltb_lt; lia).
  reflexivity.
Qed.

(** They stop at the end of the text and in front of another code
    unit. *)
Lemma rmatch_line_breaks_stop (s : JsString) (caps : captures) (k : Cont) :
  match s with [] => True | c :: _ => c <> 10%N /\ c <> 13%N end ->
  rmatch upper ignoreCase (RStar line_break) s caps k = k s caps.
Proof.
  intros H. destruct s as [ | c s ]; [ reflexivity | ]. destruct H as [H10 H13].
  unfold line_break, RStar, ROpt. cbn [rmatch length].
  rewrite (canonicalize_differs 13%N c eq_refl) by assumption.
  rewrite (canonicalize_differs 10%N c eq_refl) by assumption.
  reflexivity.
Qed.

Lemma rmatch_line_breaks_repeat (n : nat) (s : JsString) (caps : captures)
  (k : Cont) (r : JsString * captures) :
  match s with [] => True | c :: _ => c <> 10%N /\ c <> 13%N end ->
  k s caps = Some r ->
  rmatch upper ignoreCase (RStar line_break) (repeat 10%N n ++ s) caps k = Some r.
Proof.
  intros Hs Hk. induction n as [ | n IH ].
  - cbn [repeat app]. now rewrite rmatch_line_breaks_stop.
  - cbn [repeat app]. now rewrite rmatch_line_breaks_cons, IH.
Qed.

(** The pattern of [{{trim}}] on the macro with its line feeds. *)
Lemma rexec_trimPattern (n1 n2 : nat) (post : JsString) :
  match post with [] => True | c :: _ => c <> 10%N /\ c <> 13%N end ->
  rexec upper ignoreCase
    (RSeqs [RStar line_break; RLit (js "{{trim}}"); RStar line_break])
    (repeat 10%N n1 ++ js "{{trim}}" ++ repeat 10%N n2 ++ post)
  = Some (post, []).
Proof.
  intros Hpost. unfold rexec. cbn [RSeqs]. rewrite rmatch_seq.
  apply rmatch_line_breaks_repeat; [ split; discriminate | ].
  rewrite rmatch_lit, rmatch_seq.
  apply rmatch_line_breaks_repeat; [ assumption | reflexivity ].
Qed.

(** It does not match at a code unit that is neither a line break nor an
    opening brace. *)
Lemma rexec_trimPattern_fails (c : code_unit) (s : JsString) :
  c <> 10%N -> c <> 13%N -> c <> 123%N ->
  rexec upper ignoreCase
    (RSeqs [RStar line_break; RLit (js "{{trim}}"); RStar line_break]) (c :: s)
  = None.
Proof.
  intros H10 H13 H123. unfold rexec. cbn [RSeqs]. rewrite rmatch_seq.
  rewrite rmatch_line_breaks_stop by (split; assumption).
  apply (@rmatch_begins upper ignoreCase 123%N eq_refl); [ reflexivity | assumption ].
Qed.

Section OneMatch.

Context {St : Type}.
Variable re : regex.
Variable f : MatchInfo -> St -> JsString * St.

(** The text in front of the first match. *)
Lemma replace_go_prefix_fails (s : JsString) :
  forall pre input pos st,
    (forall a c b, pre = a ++ c :: b -> rexec upper ignoreCase re (c :: b ++ s) = None) ->
    replace_go upper ignoreCase re f input (pre ++ s) pos 0 st =
    (let '(out, st') :=
       replace_go upper ignoreCase re f input s (pos + length pre) 0 st in
     (pre ++ out, st')).
Proof.
  induction pre as [ | c pre IH ]; intros input pos st H.
  - cbn [app length]. rewrite Nat.add_0_r. now destruct (replace_go _ _ _ _ _ _ _ _ _).
  - cbn [app replace_go]. rewrite (H [] c pre eq_refl).
    rewrite IH by (intros a c' b E; apply (H (c :: a)); now rewrite E).
    replace (S pos + length pre) with (pos + length (c :: pre)) by (cbn [length]; lia).
    now destruct (replace_go _ _ _ _ _ _ _ _ _).
Qed.

(** A text with one match. *)
Lemma replace_st_one_match_only (pre d post : JsString) (caps : captures) (st : St) :
  (forall a c b,
      pre = a ++ c :: b -> rexec upper ignoreCase re (c :: b ++ d ++ post) = None) ->
  d <> [] ->
  rexec upper ignoreCase re (d ++ post) = Some (post, caps) ->
  never_matches upper ignoreCase re post ->
  replace_st upper ignoreCase re f (pre ++ d ++ post) st =
  (let '(out, st1) :=
     f {| m_text := d; m_caps := caps; m_offset := length pre;
          m_input := pre ++ d ++ post |} st in
   (pre ++ out ++ post, st1)).
Proof.
  intros Hpre Hd Hexec Hpost. unfold replace_st.
  rewrite replace_go_prefix_fails by assumption.
  rewrite (@replace_go_match upper ignoreCase St re f d post caps _ _ st Hd Hexec).
  cbn [Nat.add]. destruct (f _ st) as [out st1].
  rewrite replace_go_never by assumption. reflexivity.
Qed.

End OneMatch.

End LineBreaks.

Lemma lacks_repeat (b c : N) (n : nat) :
  negb (c =? b)%N = true -> lacks b (repeat c n) = true.
Proof.
  intros H. induction n as [ | n IH ]; [ reflexivity | ].
  cbn [repeat lacks forallb]. rewrite H. exact IH.
Qed.

Lemma lacks_head (b : code_unit) (s a t : JsString) (c : code_unit) :
  lacks b s = true -> s = a ++ c :: t -> c <> b.
Proof. intros H E. exact (forallb_dot_head b s a t c H E). Qed.

Section Trim.

Variable C : Collaborators.
Variable pre post : JsString.
Variable n1 n2 : nat.

Hypothesis pre_brace : lacks 123%N pre = true.
Hypothesis pre_lf : lacks 10%N pre = true.
Hypothesis pre_cr : lacks 13%N pre = true.
Hypothesis post_brace : lacks 123%N post = true.
Hypothesis post_start :
  match post with [] => True | c :: _ => c <> 10%N /\ c <> 13%N end.

(** The text with the macro, as two opening braces after a part without
    one and before another. *)
Lemma trim_text_braces :
  pre ++ repeat 10%N n1 ++ js "{{trim}}" ++ repeat 10%N n2 ++ post =
  (pre ++ repeat 10%N n1) ++ 123%N :: 123%N :: js "trim}}" ++ repeat 10%N n2 ++ post.
Proof. now rewrite <- app_assoc. Qed.

Lemma trim_text_match :
  pre ++ repeat 10%N n1 ++ js "{{trim}}" ++ repeat 10%N n2 ++ post =
  pre ++ (repeat 10%N n1 ++ js "{{trim}}" ++ repeat 10%N n2) ++ post.
Proof. now rewrite <- !app_assoc. Qed.

Lemma trim_before_plain : lacks 123%N (pre ++ repeat 10%N n1) = true.
Proof. rewrite lacks_app, pre_brace. now apply lacks_repeat. Qed.

Lemma trim_after_plain :
  lacks 123%N (js "trim}}" ++ repeat 10%N n2 ++ post) = true.
Proof.
  rewrite !lacks_app, post_brace, (lacks_repeat 123%N 10%N n2 eq_refl). reflexivity.
Qed.

(** The four simple substitutions on the text with the macro. *)
Lemma simpleSubstitutions_trim (varEscape : EscapeFn) (w : World) :
  simpleSubstitutions C
    (pre ++ repeat 10%N n1 ++ js "{{trim}}" ++ repeat 10%N n2 ++ post) varEscape w =
  pre ++ post.
Proof.
  assert (Hall : lacks 123%N (pre ++ post) = true)
    by (rewrite lacks_app, pre_brace, post_brace; reflexivity).
  unfold simpleSubstitutions. cbv zeta.
  rewrite (@replace_val_never (unicode_upper C) true (RLit (js "{{newline}}")) _
             (pre ++ repeat 10%N n1 ++ js "{{trim}}" ++ repeat 10%N n2 ++ post)).
  2:{ rewrite trim_text_braces. apply never_matches_braces.
      - reflexivity.
      - exact trim_before_plain.
      - exact trim_after_plain.
      - intros; reflexivity.
      - intros; reflexivity. }
  assert (Etrim :
            replace_str (unicode_upper C) true
              (RSeqs [RStar (RSeq (ROpt (RChar 13)) (RChar 10)); RLit (js "{{trim}}");
                      RStar (RSeq (ROpt (RChar 13)) (RChar 10))]) []
              (pre ++ repeat 10%N n1 ++ js "{{trim}}" ++ repeat 10%N n2 ++ post)
            = pre ++ post).
  { rewrite trim_text_match. unfold replace_str, replace_fn.
    rewrite (@replace_st_one_match_only (unicode_upper C) true unit _ _ pre
               (repeat 10%N n1 ++ js "{{trim}}" ++ repeat 10%N n2) post [] tt).
    - reflexivity.
    - intros a c b E. apply rexec_trimPattern_fails.
      + exact (lacks_head 10%N pre a b c pre_lf E).
      + exact (lacks_head 13%N pre a b c pre_cr E).
      + exact (lacks_head 123%N pre a b c pre_brace E).
    - destruct n1; discriminate.
    - rewrite <- !app_assoc. now apply rexec_trimPattern.
    - intros a t caps k E.
      apply (@rmatch_needs (unicode_upper C) true 123%N eq_refl); [ reflexivity | ].
      exact (lacks_suffix 123%N post a t post_brace E). }
  rewrite Etrim.
  rewrite (@replace_str_lacks _ _ 123%N eq_refl _ _ (pre ++ post))
    by (reflexivity || assumption).
  now rewrite (@replace_fn_lacks _ _ 123%N eq_refl _ _ (pre ++ post))
    by (reflexivity || assumption).
Qed.

End Trim.

(** X21.  [{{trim}}] evaluates to nothing and takes the line feeds before
    and after it with it: the text before the line feeds and the text
    after them are joined.  Here no key of [env] or of the registry is
    one that [new RegExp] reads as a quantifier, the text before has no
    line break, the text after does not begin with one, neither has an
    opening brace or a [<], and the passes of the other modules leave the
    text as it is; what the entries of [env] and of the registry hold
    under such keys is of no account. *)
Theorem trim_takes_the_line_feeds (C : Collaborators) (pre post : JsString)
  (n1 n2 : nat) (env : EnvObject) (varEscape : EscapeFn) (w : World) :
  literal_keys env = true -> literal_keys (macros w) = true ->
  passes_keep C (pre ++ repeat 10%N n1 ++ js "{{trim}}" ++ repeat 10%N n2 ++ post) ->
  lacks 123%N pre = true -> lacks 10%N pre = true -> lacks 13%N pre = true ->
  lacks 60%N pre = true ->
  lacks 123%N post = true -> lacks 60%N post = true ->
  match post with [] => True | c :: _ => c <> 10%N /\ c <> 13%N end ->
  fst (evaluateMacros C
         (pre ++ repeat 10%N n1 ++ js "{{trim}}" ++ repeat 10%N n2 ++ post)
         env varEscape w) = pre ++ post.
Proof.
  intros _ _ Hk Hpre Hlf Hcr Hpre' Hpost Hpost' Hstart.
  set (T := pre ++ repeat 10%N n1 ++ js "{{trim}}" ++ repeat 10%N n2 ++ post) in *.
  assert (Hall : lacks 123%N (pre ++ post) = true)
    by (rewrite lacks_app, Hpre, Hpost; reflexivity).
  assert (Hlegacy : legacySubstitutions C T env varEscape = T).
  { apply legacySubstitutions_lacks. unfold T.
    rewrite !lacks_app, Hpre', Hpost', !lacks_repeat by reflexivity. reflexivity. }
  assert (Hdice : diceRollReplace C T (escape_as_value varEscape) identity_escape w
                  = (T, w)).
  { unfold diceRollReplace. apply replace_st_never. unfold T.
    rewrite trim_text_braces. apply never_matches_braces.
    - reflexivity.
    - now apply trim_before_plain.
    - now apply trim_after_plain.
    - intros; reflexivity.
    - intros; reflexivity. }
  apply (@evaluateMacros_stages_lacks C T T T T T (pre ++ post) (pre ++ post) (pre ++ post)
           env varEscape w w).
  - unfold T. destruct pre; [ destruct n1 | ]; discriminate.
  - exact Hlegacy.
  - unfold T. rewrite trim_text_braces. apply includes_app.
    change (js "{{") with [123%N; 123%N]. cbn [startsWith]. rewrite !N.eqb_refl.
    now destruct (js "trim}}" ++ repeat 10%N n2 ++ post).
  - exact Hdice.
  - exact (proj1 (Hk env varEscape w)).
  - exact (proj2 (Hk env varEscape w)).
  - now apply simpleSubstitutions_trim.
  - now apply substituteEnv_lacks.
  - now apply builtinSubstitutions_lacks.
  - exact Hall.
Qed.

Lemma trim_takes_the_line_feeds_witness :
  fst (evaluateMacros Sample.collaborators
         (js "one" ++ repeat 10%N 2 ++ js "{{trim}}" ++ repeat 10%N 1 ++ js "two")
         [] bracket_escape Sample.two_macros) = js "one" ++ js "two".
Proof.
  apply (trim_takes_the_line_feeds Sample.collaborators (js "one") (js "two") 2 1 []
           bracket_escape Sample.two_macros).
  - reflexivity.
  - reflexivity.
  - apply sample_passes_keep.
  - reflexivity.
  - reflexivity.
  - reflexivity.
  - reflexivity.
  - reflexivity.
  - reflexivity.
  - split; discriminate.
Defined.

(* ================================================================== *)
(** * The read-only macros *)

Section ReadOnly.

Variable C : Collaborators.
Variable pre post : JsString.
Variable varEscape : EscapeFn.

Hypothesis pre_plain : lacks 123%N pre = true.
Hypothesis post_plain : lacks 123%N post = true.

(** The text with a macro [{{name}}], as the passes meet it. *)
Lemma readonly_text (name : JsString) :
  pre ++ js "{{" ++ name ++ js "}}" ++ post =
  pre ++ (js "{{" ++ name ++ js "}}") ++ post.
Proof. now rewrite <- !app_assoc. Qed.

(** A pass of another macro. *)
Lemma readonly_pass_other (ignoreCase : bool) (re : regex)
  (f : MatchInfo -> JsString) (name : JsString) :
  begins 123%N re = true ->
  lacks 123%N name = true ->
  (forall caps k,
      rmatch (unicode_upper C) ignoreCase re
        (123%N :: 123%N :: name ++ js "}}" ++ post) caps k = None) ->
  (forall caps k,
      rmatch (unicode_upper C) ignoreCase re
        (123%N :: name ++ js "}}" ++ post) caps k = None) ->
  replace_fn (unicode_upper C) ignoreCase re f (pre ++ js "{{" ++ name ++ js "}}" ++ post) =
  pre ++ js "{{" ++ name ++ js "}}" ++ post.
Proof.
  intros Hre Hname H2 H1. apply replace_fn_never.
  change (js "{{" ++ name ++ js "}}" ++ post)
    with (123%N :: 123%N :: name ++ js "}}" ++ post).
  apply never_matches_braces; try assumption.
  rewrite !lacks_app, Hname, post_plain. reflexivity.
Qed.

(** The pass of the comments. *)
Lemma readonly_pass_comment (ignoreCase : bool) (re : regex) (repl name : JsString) :
  begins 123%N re = true ->
  lacks 123%N name = true ->
  (forall caps k,
      rmatch (unicode_upper C) ignoreCase re
        (123%N :: 123%N :: name ++ js "}}" ++ post) caps k = None) ->
  (forall caps k,
      rmatch (unicode_upper C) ignoreCase re
        (123%N :: name ++ js "}}" ++ post) caps k = None) ->
  replace_str (unicode_upper C) ignoreCase re repl
    (pre ++ js "{{" ++ name ++ js "}}" ++ post) =
  pre ++ js "{{" ++ name ++ js "}}" ++ post.
Proof. intros. unfold replace_str. now apply readonly_pass_other. Qed.

(** The pass of the macro itself. *)
Lemma readonly_pass_same (f : MatchInfo -> JsString) (name lit : JsString) :
  lit = js "{{" ++ name ++ js "}}" ->
  replace_fn (unicode_upper C) true (RLit lit) f
    (pre ++ js "{{" ++ name ++ js "}}" ++ post) =
  pre ++ f {| m_text := lit; m_caps := [];
              m_offset := length pre;
              m_input := pre ++ lit ++ post |} ++ post.
Proof.
  intros ->. rewrite readonly_text.
  apply (@replace_fn_one_match (unicode_upper C) true 123%N eq_refl
           (RLit (js "{{" ++ name ++ js "}}")) f pre (js "{{" ++ name ++ js "}}") post []
           eq_refl pre_plain post_plain ltac:(discriminate)).
  unfold rexec. apply rmatch_RLit.
Qed.

End ReadOnly.

Ltac readonly_other :=
  match goal with
  | Hpre : lacks 123%N ?pre = true, Hpost : lacks 123%N ?post = true
    |- context [replace_fn (unicode_upper ?C) true ?re ?f
                  (?pre ++ js "{{" ++ ?name ++ js "}}" ++ ?post)] =>
      rewrite (readonly_pass_other C pre post Hpre Hpost true re f name
                 eq_refl eq_refl
                 ltac:(intros; reflexivity) ltac:(intros; reflexivity))
  end.

Ltac readonly_comment :=
  match goal with
  | Hpre : lacks 123%N ?pre = true, Hpost : lacks 123%N ?post = true
    |- context [replace_str (unicode_upper ?C) false ?re ?repl
                  (?pre ++ js "{{" ++ ?name ++ js "}}" ++ ?post)] =>
      rewrite (readonly_pass_comment C pre post Hpre Hpost false re repl name
                 eq_refl eq_refl
                 ltac:(intros; reflexivity) ltac:(intros; reflexivity))
  end.

Ltac readonly_same :=
  match goal with
  | Hpre : lacks 123%N ?pre = true, Hpost : lacks 123%N ?post = true
    |- context [replace_fn (unicode_upper ?C) true (RLit ?lit) ?f
                  (?pre ++ js "{{" ++ ?name ++ js "}}" ++ ?post)] =>
      rewrite (readonly_pass_same C pre post Hpre Hpost f name lit eq_refl)
  end.

Ltac readonly_rest :=
  repeat match goal with
         | Hpre : lacks 123%N ?pre = true, Hpost : lacks 123%N ?post = true
           |- context [replace_fn ?u ?ic ?re ?f (?pre ++ ?v ++ ?post)] =>
             rewrite (@replace_fn_lacks u ic 123%N eq_refl re f (pre ++ v ++ post))
               by (reflexivity || assumption)
         | Hpre : lacks 123%N ?pre = true, Hpost : lacks 123%N ?post = true
           |- context [replace_str ?u ?ic ?re ?r (?pre ++ ?v ++ ?post)] =>
             rewrite (@replace_str_lacks u ic 123%N eq_refl re r (pre ++ v ++ post))
               by (reflexivity || assumption)
         end.

(** The passes of the built-in macros on a text whose only macro is a
    read-only one. *)
Lemma builtinSubstitutions_readonly (C : Collaborators) (pre name post : JsString)
  (v : JsVal) (varEscape : EscapeFn) (w : World) :
  In (name, v) (readonly_macros C w) ->
  lacks 123%N pre = true -> lacks 123%N post = true ->
  lacks 123%N (js_String (esc_call varEscape v)) = true ->
  builtinSubstitutions C (pre ++ js "{{" ++ name ++ js "}}" ++ post) varEscape w =
  pre ++ js_String (esc_call varEscape v) ++ post.
Proof.
  intros Hin Hpre Hpost Hv.
  assert (Hall : lacks 123%N (pre ++ js_String (esc_call varEscape v) ++ post) = true)
    by (rewrite !lacks_app, Hpre, Hv, Hpost; reflexivity).
  unfold readonly_macros in Hin. cbn [In] in Hin.
  unfold builtinSubstitutions. cbv zeta.
  repeat (destruct Hin as [Hin | Hin];
          [ injection Hin as <- <-;
            repeat readonly_other;
            try (readonly_comment; repeat readonly_other);
            readonly_same; cbv beta;
            readonly_rest;
            apply timeDiffReplace_lacks; exact Hall
          | ]).
  destruct Hin.
Qed.

Lemma readonly_names_plain (C : Collaborators) (w : World) (name post : JsString)
  (v : JsVal) :
  In (name, v) (readonly_macros C w) ->
  lacks 123%N name = true /\ lacks 60%N name = true /\
  early_passes_unmatched (unicode_upper C) (name ++ js "}}" ++ post).
Proof.
  intros Hin. unfold readonly_macros in Hin. cbn [In] in Hin.
  repeat (destruct Hin as [Hin | Hin];
          [ injection Hin as <- _;
            split; [ reflexivity | split; [ reflexivity | ] ];
            unfold early_passes_unmatched; repeat constructor; intros; reflexivity
          | ]).
  destruct Hin.
Qed.

(** X22.  The read-only macros: [{{maxPrompt}}], [{{lastMessage}}],
    [{{lastMessageId}}], [{{lastUserMessage}}], [{{lastCharMessage}}],
    [{{firstIncludedMessageId}}], [{{lastSwipeId}}], [{{currentSwipeId}}],
    [{{time}}], [{{date}}], [{{weekday}}], [{{isotime}}] and [{{isodate}}]
    each evaluate to the escaped text of their value, which is what the
    function or the format of the clock that the table names gives; the
    text around the macro is kept.  Here
    the text around the macro has neither an opening brace nor a [<], the
    escaped value has no opening brace, [env] is empty and no macro is
    registered, and the passes of the other modules leave the text as it
    is. *)
Theorem readonly_macro_evaluates_to_its_value (C : Collaborators)
  (pre name post : JsString) (v : JsVal) (varEscape : EscapeFn) (w : World) :
  In (name, v) (readonly_macros C w) ->
  passes_keep C (pre ++ js "{{" ++ name ++ js "}}" ++ post) ->
  macros w = [] ->
  lacks 123%N pre = true -> lacks 123%N post = true ->
  lacks 60%N pre = true -> lacks 60%N post = true ->
  lacks 123%N (js_String (esc_call varEscape v)) = true ->
  fst (evaluateMacros C (pre ++ js "{{" ++ name ++ js "}}" ++ post) [] varEscape w) =
  pre ++ js_String (esc_call varEscape v) ++ post.
Proof.
  intros Hin Hk Hm Hpre Hpost Hpre' Hpost' Hv.
  assert (Hin' : In (name, v) (readonly_macros C (tick w))) by exact Hin.
  pose proof (builtinSubstitutions_readonly C pre name post v varEscape (tick w)
                Hin' Hpre Hpost Hv) as Hb.
  destruct (readonly_names_plain C w name post v Hin) as [Hname [Hname' Hearly]].
  change (js "{{" ++ name ++ js "}}" ++ post)
    with (123%N :: 123%N :: name ++ js "}}" ++ post) in *.
  apply evaluateMacros_builtin_only.
  - exact Hk.
  - exact Hm.
  - exact Hpre.
  - rewrite !lacks_app, Hname, Hpost. reflexivity.
  - exact Hpre'.
  - rewrite !lacks_app, Hname', Hpost'. reflexivity.
  - exact Hearly.
  - exact Hb.
  - rewrite !lacks_app, Hpre, Hv, Hpost. reflexivity.
Qed.

Lemma readonly_macro_evaluates_to_its_value_witness :
  fst (evaluateMacros Sample.collaborators
         (js "At most " ++ js "{{" ++ js "maxPrompt" ++ js "}}" ++ js " tokens") []
         bracket_escape Sample.world) =
  js "At most " ++ js "[4096]" ++ js " tokens".
Proof.
  apply (readonly_macro_evaluates_to_its_value Sample.collaborators (js "At most ")
           (js "maxPrompt") (js " tokens")
           (VString (js_String (maxContextSize Sample.world))) bracket_escape
           Sample.world).
  - left. reflexivity.
  - apply sample_passes_keep.
  - reflexivity.
  - reflexivity.
  - reflexivity.
  - reflexivity.
  - reflexivity.
  - reflexivity.
Defined.

(* ================================================================== *)
(** * The macros of a line feed, of nothing and of the input field *)

Section Simple.

Variable C : Collaborators.
Variable pre post : JsString.

Hypothesis pre_plain : lacks 123%N pre = true.
Hypothesis post_plain : lacks 123%N post = true.

(** The pass, with a replacement text, of the macro itself. *)
Lemma simple_pass_same (name lit v : JsString) :
  lit = js "{{" ++ name ++ js "}}" ->
  lacks 36%N v = true ->
  replace_str (unicode_upper C) true (RLit lit) v
    (pre ++ js "{{" ++ name ++ js "}}" ++ post) = pre ++ v ++ post.
Proof.
  intros -> Hv. unfold replace_str.
  rewrite (readonly_pass_same C pre post pre_plain post_plain _ name
             (js "{{" ++ name ++ js "}}") eq_refl).
  cbn [m_text m_offset m_input]. now rewrite get_substitution_plain.
Qed.

(** The pass of [{{newline}}] on a text with another macro. *)
Lemma simple_pass_newline_other (v : JsVal) (name : JsString) :
  lacks 123%N name = true ->
  (forall caps k,
      rmatch (unicode_upper C) true (RLit (js "{{newline}}"))
        (123%N :: 123%N :: name ++ js "}}" ++ post) caps k = None) ->
  (forall caps k,
      rmatch (unicode_upper C) true (RLit (js "{{newline}}"))
        (123%N :: name ++ js "}}" ++ post) caps k = None) ->
  replace_val (unicode_upper C) true (RLit (js "{{newline}}")) v
    (pre ++ js "{{" ++ name ++ js "}}" ++ post) =
  pre ++ js "{{" ++ name ++ js "}}" ++ post.
Proof.
  intros Hname H2 H1. apply replace_val_never.
  change (js "{{" ++ name ++ js "}}" ++ post)
    with (123%N :: 123%N :: name ++ js "}}" ++ post).
  apply never_matches_braces; try assumption.
  - reflexivity.
  - rewrite !lacks_app, Hname, post_plain. reflexivity.
Qed.

(** The pass of [{{newline}}] on a text with that macro. *)
Lemma simple_pass_newline (v : JsVal) :
  (is_function v = false -> lacks 36%N (js_String v) = true) ->
  replace_val (unicode_upper C) true (RLit (js "{{newline}}")) v
    (pre ++ js "{{" ++ js "newline" ++ js "}}" ++ post) =
  pre ++ replacement_of v (js "{{newline}}") ++ post.
Proof.
  intros Hv.
  rewrite (readonly_text pre post (js "newline")).
  apply (replace_val_one_match (unicode_upper C) true 123%N (RLit (js "{{newline}}")) v
           pre (js "{{newline}}") post [] eq_refl eq_refl pre_plain post_plain
           ltac:(discriminate)); [ | exact Hv ].
  unfold rexec. apply (rmatch_RLit (unicode_upper C) true (js "{{newline}}")).
Qed.

(** The pass of [{{trim}}] on a text with another macro. *)
Lemma simple_pass_trim (name : JsString) :
  lacks 123%N name = true ->
  (forall caps k,
      rmatch (unicode_upper C) true
        (RSeqs [RLit (js "{{trim}}"); RStar (RSeq (ROpt (RChar 13)) (RChar 10))])
        (123%N :: 123%N :: name ++ js "}}" ++ post) caps k = None) ->
  (forall caps k,
      rmatch (unicode_upper C) true
        (RSeqs [RLit (js "{{trim}}"); RStar (RSeq (ROpt (RChar 13)) (RChar 10))])
        (123%N :: name ++ js "}}" ++ post) caps k = None) ->
  replace_str (unicode_upper C) true
    (RSeqs [RStar (RSeq (ROpt (RChar 13)) (RChar 10)); RLit (js "{{trim}}");
            RStar (RSeq (ROpt (RChar 13)) (RChar 10))]) []
    (pre ++ js "{{" ++ name ++ js "}}" ++ post) =
  pre ++ js "{{" ++ name ++ js "}}" ++ post.
Proof.
  intros Hname H2 H1. apply replace_str_never.
  change (js "{{" ++ name ++ js "}}" ++ post)
    with (123%N :: 123%N :: name ++ js "}}" ++ post).
  cbn [RSeqs]. apply never_matches_seq. apply never_matches_braces; try assumption.
  - reflexivity.
  - rewrite !lacks_app, Hname, post_plain. reflexivity.
Qed.

(** The four simple substitutions on a text whose only macro is one of
    theirs. *)
Lemma simpleSubstitutions_simple (name text : JsString) (varEscape : EscapeFn)
  (w : World) :
  In (name, text) (simple_macros varEscape w) ->
  lacks 123%N text = true -> lacks 36%N text = true ->
  simpleSubstitutions C (pre ++ js "{{" ++ name ++ js "}}" ++ post) varEscape w =
  pre ++ text ++ post.
Proof.
  intros Hin Htext Hdollar.
  assert (Hall : lacks 123%N (pre ++ text ++ post) = true)
    by (rewrite !lacks_app, pre_plain, Htext, post_plain; reflexivity).
  unfold simple_macros in Hin. cbn [In] in Hin.
  unfold simpleSubstitutions. cbv zeta.
  destruct Hin as [Hin | [Hin | [Hin | []]]]; injection Hin as <- <-.
  - rewrite simple_pass_newline
      by (intros Hf; destruct (esc_call varEscape (VString [10%N]));
          try discriminate; exact Hdollar).
    repeat rewrite (@replace_str_lacks _ _ 123%N eq_refl _ _
                      (pre ++ replacement_of (esc_call varEscape (VString [10%N]))
                                (js "{{newline}}") ++ post))
      by (reflexivity || assumption).
    now rewrite (@replace_fn_lacks _ _ 123%N eq_refl)
      by (reflexivity || assumption).
  - rewrite (simple_pass_newline_other _ (js "noop") eq_refl
               ltac:(intros; reflexivity) ltac:(intros; reflexivity)).
    rewrite (simple_pass_trim (js "noop") eq_refl
               ltac:(intros; reflexivity) ltac:(intros; reflexivity)).
    rewrite (simple_pass_same (js "noop") (js "{{noop}}") [] eq_refl eq_refl).
    now rewrite (@replace_fn_lacks _ _ 123%N eq_refl)
      by (reflexivity || assumption).
  - rewrite (simple_pass_newline_other _ (js "input") eq_refl
               ltac:(intros; reflexivity) ltac:(intros; reflexivity)).
    rewrite (simple_pass_trim (js "input") eq_refl
               ltac:(intros; reflexivity) ltac:(intros; reflexivity)).
    rewrite (readonly_pass_comment C pre post pre_plain post_plain true
               (RLit (js "{{noop}}")) _ (js "input") eq_refl eq_refl
               ltac:(intros; reflexivity) ltac:(intros; reflexivity)).
    now rewrite (readonly_pass_same C pre post pre_plain post_plain _ (js "input")
                   (js "{{input}}") eq_refl).
Qed.

End Simple.

Lemma simple_names_plain (C : Collaborators) (varEscape : EscapeFn) (w : World)
  (name text post : JsString) :
  In (name, text) (simple_macros varEscape w) ->
  lacks 123%N name = true /\ lacks 60%N name = true /\
  (forall caps k,
      rmatch (unicode_upper C) true rollPattern
        (123%N :: 123%N :: name ++ js "}}" ++ post) caps k = None) /\
  (forall caps k,
      rmatch (unicode_upper C) true rollPattern
        (123%N :: name ++ js "}}" ++ post) caps k = None).
Proof.
  intros Hin. unfold simple_macros in Hin. cbn [In] in Hin.
  destruct Hin as [Hin | [Hin | [Hin | []]]]; injection Hin as <- _;
    (split; [ reflexivity | split; [ reflexivity | split; intros; reflexivity ] ]).
Qed.

(** X23.  [{{newline}}] evaluates to what [replace] makes of the escaped
    line feed (the escaping function may return a function, which is then
    called with the macro as it stands in the text), [{{noop}}] to nothing
    and [{{input}}] to the escaped text of the input field; the text
    around the macro is kept, and an entry of [env] or of the registry
    with the name of the macro does not take its place.  Here no key of
    [env] or of the registry is one that [new RegExp] reads as a
    quantifier, the text around the macro has neither an opening brace nor
    a [<], the text that the macro becomes has neither an opening brace
    nor a dollar sign, and the passes of the other modules leave the text
    as it is. *)
Theorem simple_macro_evaluates_to_its_text (C : Collaborators)
  (pre name text post : JsString) (env : EnvObject) (varEscape : EscapeFn)
  (w : World) :
  In (name, text) (simple_macros varEscape w) ->
  literal_keys env = true -> literal_keys (macros w) = true ->
  passes_keep C (pre ++ js "{{" ++ name ++ js "}}" ++ post) ->
  lacks 123%N pre = true -> lacks 123%N post = true ->
  lacks 60%N pre = true -> lacks 60%N post = true ->
  lacks 123%N text = true -> lacks 36%N text = true ->
  fst (evaluateMacros C (pre ++ js "{{" ++ name ++ js "}}" ++ post) env varEscape w) =
  pre ++ text ++ post.
Proof.
  intros Hin _ _ Hk Hpre Hpost Hpre' Hpost' Htext Hdollar.
  destruct (simple_names_plain C varEscape w name text post Hin)
    as [Hname [Hname' [Hroll2 Hroll1]]].
  pose proof (simpleSubstitutions_simple C pre post Hpre Hpost name text varEscape w
                Hin Htext Hdollar) as Hs.
  set (T := pre ++ js "{{" ++ name ++ js "}}" ++ post) in *.
  assert (Hall : lacks 123%N (pre ++ text ++ post) = true)
    by (rewrite !lacks_app, Hpre, Htext, Hpost; reflexivity).
  assert (HR : lacks 123%N (name ++ js "}}" ++ post) = true)
    by (rewrite !lacks_app, Hname, Hpost; reflexivity).
  apply (@evaluateMacros_stages_lacks C T T T T T
           (pre ++ text ++ post) (pre ++ text ++ post) (pre ++ text ++ post)
           env varEscape w w).
  - unfold T. destruct pre; discriminate.
  - apply legacySubstitutions_lacks. unfold T.
    rewrite !lacks_app, Hpre', Hname', Hpost'. reflexivity.
  - unfold T. apply includes_app. change (js "{{") with [123%N; 123%N].
    cbn [app startsWith]. rewrite !N.eqb_refl.
    now destruct (name ++ js "}}" ++ post).
  - unfold diceRollReplace. apply replace_st_never. unfold T.
    change (js "{{" ++ name ++ js "}}" ++ post)
      with (123%N :: 123%N :: name ++ js "}}" ++ post).
    apply never_matches_braces; [ reflexivity | assumption .. ].
  - exact (proj1 (Hk env varEscape w)).
  - exact (proj2 (Hk env varEscape w)).
  - exact Hs.
  - now apply substituteEnv_lacks.
  - now apply builtinSubstitutions_lacks.
  - exact Hall.
Qed.

Lemma simple_macro_evaluates_to_its_text_witness :
  fst (evaluateMacros Sample.collaborators
         (js "a" ++ js "{{" ++ js "noop" ++ js "}}" ++ js "b")
         [(js "noop", VString (js "x"))] bracket_escape Sample.two_macros) =
  js "a" ++ [] ++ js "b".
Proof.
  apply (simple_macro_evaluates_to_its_text Sample.collaborators (js "a") (js "noop") []
           (js "b") [(js "noop", VString (js "x"))] bracket_escape Sample.two_macros).
  - right. left. reflexivity.
  - reflexivity.
  - reflexivity.
  - apply sample_passes_keep.
  - reflexivity.
  - reflexivity.
  - reflexivity.
  - reflexivity.
  - reflexivity.
  - reflexivity.
Defined.

(* ================================================================== *)
(** * The built-in macros with an argument *)

Section ArgumentPatterns.

Variable upper : code_unit -> code_unit.
Variable ignoreCase : bool.

Lemma rmatch_class_head (p : code_unit -> bool) (r : regex) (x : code_unit)
  (s : JsString) (caps : captures) (k : Cont) :
  rmatch upper ignoreCase (RSeq (RClass p) r) (x :: s) caps k =
  if p x then rmatch upper ignoreCase r s caps k else None.
Proof. reflexivity. Qed.

(** One step of a greedy repetition of a code unit. *)
Lemma rmatch_star_char_cons (c : code_unit) (s : JsString) (caps : captures)
  (k : Cont) :
  rmatch upper ignoreCase (RStar (RChar c)) (c :: s) caps k =
  match rmatch upper ignoreCase (RStar (RChar c)) s caps k with
  | Some r => Some r
  | None => k (c :: s) caps
  end.
Proof.
  unfold RStar. cbn [rmatch length]. rewrite N.eqb_refl.
  replace (length s <? S (length s)) with true
    by (symmetry; apply Nat.ltb_lt; lia).
  reflexivity.
Qed.

Lemma rmatch_star_char_stop (c : code_unit) (s : JsString) (caps : captures)
  (k : Cont) :
  is_symbol c = true ->
  match s with [] => True | x :: _ => x <> c end ->
  rmatch upper ignoreCase (RStar (RChar c)) s caps k = k s caps.
Proof.
  intros Hc H. destruct s as [ | x s ]; [ reflexivity | ].
  unfold RStar. cbn [rmatch length].
  now rewrite (canonicalize_differs upper ignoreCase c x Hc H).
Qed.

Lemma rmatch_star_char_repeat (c : N) (n : nat) (s : JsString) (caps : captures)
  (k : Cont) (r : JsString * captures) :
  is_symbol c = true ->
  match s with [] => True | x :: _ => x <> c end ->
  k s caps = Some r ->
  rmatch upper ignoreCase (RStar (RChar c)) (repeat c n ++ s) caps k = Some r.
Proof.
  intros Hc Hs Hk. induction n as [ | n IH ].
  - cbn [repeat app]. now rewrite rmatch_star_char_stop.
  - cbn [repeat app]. now rewrite rmatch_star_char_cons, IH.
Qed.

Lemma firstn_consumed (body rest : JsString) :
  firstn (length (body ++ rest) - length rest) (body ++ rest) = body.
Proof.
  rewrite length_app, Nat.add_sub, firstn_app, Nat.sub_diag, firstn_all.
  cbn [firstn]. now rewrite app_nil_r.
Qed.

(** The directive of a reversal: the lazy group stops at the first pair
    of closing braces. *)
Lemma rexec_reversePattern (arg post : JsString) :
  arg <> [] -> forallb dot arg = true -> lacks 125%N arg = true ->
  rexec upper ignoreCase
    (RSeqs [RLit (js "{{reverse:"); RGroup 1 (RPlusLazy (RClass dot)); RLit (js "}}")])
    (js "{{reverse:" ++ arg ++ js "}}" ++ post)
  = Some (post, [(1, arg)]).
Proof.
  intros Hne Hdot Hclose. unfold rexec. cbn [RSeqs].
  rewrite rmatch_lit, rmatch_seq_group. unfold RPlusLazy.
  destruct arg as [ | x arg ]; [ congruence | ].
  cbn [forallb] in Hdot. apply andb_prop in Hdot as [Hx Hdot].
  cbn [app]. rewrite rmatch_class_head, Hx.
  apply rmatch_lazy_class_app; [ assumption | | ].
  - intros a suf E Hsuf.
    apply (@rmatch_begins upper ignoreCase 125%N eq_refl); [ reflexivity | ].
    destruct suf as [ | y suf ]; [ congruence | ]. cbn [app].
    apply (forallb_dot_head 125%N (x :: arg) (x :: a) suf y Hclose).
    now rewrite E.
  - change (x :: arg ++ js "}}" ++ post) with ((x :: arg) ++ js "}}" ++ post).
    rewrite firstn_consumed. apply rmatch_closing.
Qed.

(** The directive of a date in a format: the blanks are taken first, all
    of them, and the format is what follows them. *)
Lemma rexec_datetimeformatPattern (n : nat) (format post : JsString) :
  match format with [] => True | x :: _ => x <> 32%N end ->
  forallb not_rbrace format = true ->
  rexec upper ignoreCase
    (RSeqs [RLit (js "{{datetimeformat"); RPlus (RChar 32);
            RGroup 1 (RStar (RClass not_rbrace)); RLit (js "}}")])
    (js "{{datetimeformat" ++ repeat 32%N (S n) ++ format ++ js "}}" ++ post)
  = Some (post, [(1, format)]).
Proof.
  intros Hstart Hformat. unfold rexec. cbn [RSeqs].
  rewrite rmatch_lit. unfold RPlus. cbn [repeat app].
  rewrite rmatch_seq, rmatch_char_head.
  apply rmatch_star_char_repeat; [ reflexivity | | ].
  - destruct format as [ | x format ]; [ discriminate | exact Hstart ].
  - rewrite rmatch_seq_group.
    apply rmatch_star_class; [ assumption | reflexivity | ].
    rewrite firstn_consumed. apply rmatch_closing.
Qed.

(** The directive of the time at an offset: a sign and digits. *)
Lemma rexec_timeUTCPattern (sign : code_unit) (digits post : JsString) :
  sign = 45%N \/ sign = 43%N ->
  digits <> [] -> forallb is_digit digits = true ->
  rexec upper ignoreCase
    (RSeqs [RLit (js "{{time_UTC");
            RGroup 1 (RSeq (RClass (fun c => (c =? 45)%N || (c =? 43)%N))
                           (RPlus (RClass is_digit)));
            RLit (js "}}")])
    (js "{{time_UTC" ++ sign :: digits ++ js "}}" ++ post)
  = Some (post, [(1, sign :: digits)]).
Proof.
  intros Hsign Hne Hdigits. unfold rexec. cbn [RSeqs].
  rewrite rmatch_lit, rmatch_seq_group, rmatch_class_head.
  replace ((sign =? 45)%N || (sign =? 43)%N) with true
    by (destruct Hsign; subst sign; reflexivity).
  unfold RPlus. destruct digits as [ | d digits ]; [ congruence | ].
  cbn [forallb] in Hdigits. apply andb_prop in Hdigits as [Hd Hdigits].
  cbn [app]. rewrite rmatch_class_head, Hd.
  apply rmatch_star_class; [ assumption | reflexivity | ].
  change (sign :: d :: digits ++ js "}}" ++ post)
    with ((sign :: d :: digits) ++ js "}}" ++ post).
  rewrite firstn_consumed. apply rmatch_closing.
Qed.

End ArgumentPatterns.

Ltac argument_other Hname :=
  match goal with
  | Hpre : lacks 123%N ?pre = true, Hpost : lacks 123%N ?post = true
    |- context [replace_fn (unicode_upper ?C) true ?re ?f
                  (?pre ++ js "{{" ++ ?name ++ js "}}" ++ ?post)] =>
      rewrite (readonly_pass_other C pre post Hpre Hpost true re f name
                 eq_refl Hname
                 ltac:(intros; reflexivity) ltac:(intros; reflexivity))
  end.

Ltac argument_comment Hname :=
  match goal with
  | Hpre : lacks 123%N ?pre = true, Hpost : lacks 123%N ?post = true
    |- context [replace_str (unicode_upper ?C) false ?re ?repl
                  (?pre ++ js "{{" ++ ?name ++ js "}}" ++ ?post)] =>
      rewrite (readonly_pass_comment C pre post Hpre Hpost false re repl name
                 eq_refl Hname
                 ltac:(intros; reflexivity) ltac:(intros; reflexivity))
  end.

Lemma directive_split (lit arg post : JsString) :
  lit ++ arg ++ js "}}" ++ post = (lit ++ arg ++ js "}}") ++ post.
Proof. now rewrite <- !app_assoc. Qed.

Section Arguments.

Variable C : Collaborators.
Variable pre post : JsString.
Variable varEscape : EscapeFn.
Variable w : World.

Hypothesis Hpre : lacks 123%N pre = true.
Hypothesis Hpost : lacks 123%N post = true.

(** The passes of the built-in macros on a text whose only macro is a
    reversal. *)
Lemma builtinSubstitutions_reverse (arg : JsString) :
  arg <> [] -> forallb dot arg = true ->
  lacks 125%N arg = true -> lacks 123%N arg = true ->
  lacks 123%N
    (js_String (esc_call varEscape (VString (concat (rev (code_points arg)))))) = true ->
  builtinSubstitutions C (pre ++ js "{{reverse:" ++ arg ++ js "}}" ++ post) varEscape w =
  pre ++ js_String (esc_call varEscape (VString (concat (rev (code_points arg)))))
      ++ post.
Proof.
  intros Hne Hdot Hclose Harg Hv.
  assert (Hall : lacks 123%N
                   (pre ++ js_String
                             (esc_call varEscape
                                (VString (concat (rev (code_points arg))))) ++ post)
                 = true)
    by (rewrite !lacks_app, Hpre, Hv, Hpost; reflexivity).
  assert (Hname : lacks 123%N (js "reverse:" ++ arg) = true) by exact Harg.
  change (js "{{reverse:" ++ arg ++ js "}}" ++ post)
    with (js "{{" ++ (js "reverse:" ++ arg) ++ js "}}" ++ post).
  unfold builtinSubstitutions. cbv zeta.
  repeat argument_other Hname.
  change (js "{{" ++ (js "reverse:" ++ arg) ++ js "}}" ++ post)
    with (js "{{reverse:" ++ arg ++ js "}}" ++ post).
  rewrite directive_split.
  rewrite (@replace_fn_one_match (unicode_upper C) true 123%N eq_refl
             (RSeqs [RLit (js "{{reverse:"); RGroup 1 (RPlusLazy (RClass dot));
                     RLit (js "}}")]) _ pre (js "{{reverse:" ++ arg ++ js "}}") post
             [(1, arg)] eq_refl Hpre Hpost ltac:(discriminate)).
  2:{ rewrite <- directive_split. now apply rexec_reversePattern. }
  cbv beta. cbn [m_caps capture_str capture Nat.eqb js_String].
  readonly_rest.
  apply timeDiffReplace_lacks. exact Hall.
Qed.

(** The same for the macro of a date in a format. *)
Lemma datetimeformat_text (n : nat) (format : JsString) :
  pre ++ js "{{datetimeformat" ++ repeat 32%N (S n) ++ format ++ js "}}" ++ post =
  pre ++ js "{{" ++ (js "datetimeformat" ++ repeat 32%N (S n) ++ format)
      ++ js "}}" ++ post.
Proof. now rewrite <- !app_assoc. Qed.

Lemma datetimeformat_match (n : nat) (format : JsString) :
  pre ++ js "{{" ++ (js "datetimeformat" ++ repeat 32%N (S n) ++ format)
      ++ js "}}" ++ post =
  pre ++ (js "{{datetimeformat" ++ repeat 32%N (S n) ++ format ++ js "}}") ++ post.
Proof. now rewrite <- !app_assoc. Qed.

Lemma builtinSubstitutions_datetimeformat (n : nat) (format : JsString) :
  match format with [] => True | x :: _ => x <> 32%N end ->
  forallb not_rbrace format = true -> lacks 123%N format = true ->
  lacks 123%N (js_String (esc_call varEscape (VString (moment_format C format)))) = true ->
  builtinSubstitutions C
    (pre ++ js "{{datetimeformat" ++ repeat 32%N (S n) ++ format ++ js "}}" ++ post)
    varEscape w =
  pre ++ js_String (esc_call varEscape (VString (moment_format C format))) ++ post.
Proof.
  intros Hstart Hclose Hformat Hv.
  assert (Hall : lacks 123%N
                   (pre ++ js_String
                             (esc_call varEscape (VString (moment_format C format)))
                        ++ post) = true)
    by (rewrite !lacks_app, Hpre, Hv, Hpost; reflexivity).
  assert (Hname : lacks 123%N (js "datetimeformat" ++ repeat 32%N (S n) ++ format) = true)
    by (rewrite !lacks_app, Hformat, lacks_repeat by reflexivity; reflexivity).
  rewrite datetimeformat_text.
  unfold builtinSubstitutions. cbv zeta.
  repeat argument_other Hname.
  argument_comment Hname.
  repeat argument_other Hname.
  rewrite datetimeformat_match.
  rewrite (@replace_fn_one_match (unicode_upper C) true 123%N eq_refl
             (RSeqs [RLit (js "{{datetimeformat"); RPlus (RChar 32);
                     RGroup 1 (RStar (RClass not_rbrace)); RLit (js "}}")]) _ pre
             (js "{{datetimeformat" ++ repeat 32%N (S n) ++ format ++ js "}}") post
             [(1, format)] eq_refl Hpre Hpost ltac:(discriminate)).
  2:{ rewrite <- !app_assoc. now apply rexec_datetimeformatPattern. }
  cbv beta. cbn [m_caps capture_str capture Nat.eqb js_String].
  readonly_rest.
  apply timeDiffReplace_lacks. exact Hall.
Qed.

(** The same for the macro of the time at an offset. *)
Lemma builtinSubstitutions_time_UTC (sign : code_unit) (digits : JsString) :
  sign = 45%N \/ sign = 43%N ->
  digits <> [] -> forallb is_digit digits = true ->
  lacks 123%N
    (js_String (esc_call varEscape
                  (VString (moment_utcOffset_LT C (parseInt10 (sign :: digits)))))) = true ->
  builtinSubstitutions C (pre ++ js "{{time_UTC" ++ sign :: digits ++ js "}}" ++ post)
    varEscape w =
  pre ++ js_String (esc_call varEscape
                      (VString (moment_utcOffset_LT C (parseInt10 (sign :: digits)))))
      ++ post.
Proof.
  intros Hsign Hne Hdigits Hv.
  assert (Hall : lacks 123%N
                   (pre ++ js_String
                             (esc_call varEscape
                                (VString (moment_utcOffset_LT C
                                            (parseInt10 (sign :: digits))))) ++ post)
                 = true)
    by (rewrite !lacks_app, Hpre, Hv, Hpost; reflexivity).
  assert (Hname : lacks 123%N (js "time_UTC" ++ sign :: digits) = true).
  { rewrite lacks_app.
    change (lacks 123%N (sign :: digits))
      with (negb (sign =? 123)%N && lacks 123%N digits).
    rewrite (digits_lack_brace digits Hdigits).
    destruct Hsign; subst sign; reflexivity. }
  change (js "{{time_UTC" ++ sign :: digits ++ js "}}" ++ post)
    with (js "{{" ++ (js "time_UTC" ++ sign :: digits) ++ js "}}" ++ post).
  unfold builtinSubstitutions. cbv zeta.
  repeat argument_other Hname.
  argument_comment Hname.
  repeat argument_other Hname.
  change (js "{{" ++ (js "time_UTC" ++ sign :: digits) ++ js "}}" ++ post)
    with (js "{{time_UTC" ++ (sign :: digits) ++ js "}}" ++ post).
  rewrite directive_split.
  rewrite (@replace_fn_one_match (unicode_upper C) true 123%N eq_refl
             (RSeqs [RLit (js "{{time_UTC");
                     RGroup 1 (RSeq (RClass (fun c => (c =? 45)%N || (c =? 43)%N))
                                    (RPlus (RClass is_digit)));
                     RLit (js "}}")]) _ pre
             (js "{{time_UTC" ++ (sign :: digits) ++ js "}}") post
             [(1, sign :: digits)] eq_refl Hpre Hpost ltac:(discriminate)).
  2:{ rewrite <- directive_split. now apply rexec_timeUTCPattern. }
  cbv beta. cbn [m_caps capture_str capture Nat.eqb js_String].
  readonly_rest.
  apply timeDiffReplace_lacks. exact Hall.
Qed.

End Arguments.

Lemma code_points_no_pair (s : JsString) :
  forallb (fun c => negb ((55296 <=? c) && (c <=? 56319))%N) s = true ->
  code_points s = map (fun c => [c]) s.
Proof.
  induction s as [ | c s IH ]; intros H; [ reflexivity | ].
  cbn [forallb] in H. apply andb_prop in H as [Hc Hs].
  apply negb_true_iff in Hc.
  cbn [code_points map]. destruct s as [ | d s ]; [ reflexivity | ].
  rewrite Hc. cbn [andb]. now rewrite IH.
Qed.

Lemma concat_rev_singletons (s : JsString) :
  concat (rev (map (fun c => [c]) s)) = rev s.
Proof.
  induction s as [ | c s IH ]; [ reflexivity | ].
  cbn [map rev]. rewrite concat_app, IH. cbn [concat app]. reflexivity.
Qed.

Lemma parseInt10_signed (sign : code_unit) (digits : JsString) :
  sign = 45%N \/ sign = 43%N ->
  digits <> [] -> forallb is_digit digits = true ->
  parseInt10 (sign :: digits) =
  Int (if (sign =? 45)%N then - Z.of_N (digits_value digits)
       else Z.of_N (digits_value digits)).
Proof.
  intros Hsign Hne Hdigits.
  assert (L : forall s,
             forallb is_digit s = true ->
             (fix digits (s : JsString) : JsString :=
                match s with
                | [] => []
                | c :: s' => if is_digit c then c :: digits s' else []
                end) s = s).
  { induction s as [ | c s IH ]; intros H; [ reflexivity | ].
    cbn [forallb] in H. apply andb_prop in H as [Hc Hs]. now rewrite Hc, IH. }
  destruct digits as [ | d digits ]; [ congruence | ].
  destruct Hsign; subst sign; unfold parseInt10; cbn [trimStart];
    match goal with
    | |- context [is_whitespace ?c] => change (is_whitespace c) with false
    end;
    cbv iota; cbn [N.eqb Pos.eqb]; cbv iota beta zeta;
    rewrite (L (d :: digits) Hdigits); reflexivity.
Qed.

(** X24.  [{{reverse:text}}] evaluates to the escaped text with its code
    points in the opposite order, the text being taken up to the first
    pair of closing braces; a text without a high surrogate is reversed
    code unit by code unit.  Here the text is on one line and has no
    brace, the text around the macro has no opening brace, neither has a
    [<], the escaped result has no opening brace, [env] is empty and no
    macro is registered, and the passes of the other modules leave the
    text as it is. *)
Theorem reverse_macro_reverses (C : Collaborators) (pre arg post : JsString)
  (varEscape : EscapeFn) (w : World) :
  passes_keep C (pre ++ js "{{reverse:" ++ arg ++ js "}}" ++ post) ->
  macros w = [] ->
  lacks 123%N pre = true -> lacks 123%N post = true ->
  lacks 60%N pre = true -> lacks 60%N post = true ->
  arg <> [] -> forallb dot arg = true ->
  lacks 125%N arg = true -> lacks 123%N arg = true -> lacks 60%N arg = true ->
  lacks 123%N
    (js_String (esc_call varEscape (VString (concat (rev (code_points arg)))))) = true ->
  fst (evaluateMacros C (pre ++ js "{{reverse:" ++ arg ++ js "}}" ++ post) []
         varEscape w) =
  pre ++ js_String (esc_call varEscape (VString (concat (rev (code_points arg)))))
      ++ post /\
  (forallb (fun c => negb ((55296 <=? c) && (c <=? 56319))%N) arg = true ->
   concat (rev (code_points arg)) = rev arg).
Proof.
  intros Hk Hm Hpre Hpost Hpre' Hpost' Hne Hdot Hclose Harg Harg' Hv.
  split.
  - pose proof (builtinSubstitutions_reverse C pre post varEscape (tick w) Hpre Hpost
                  arg Hne Hdot Hclose Harg Hv) as Hb.
    change (js "{{reverse:" ++ arg ++ js "}}" ++ post)
      with (123%N :: 123%N :: js "reverse:" ++ arg ++ js "}}" ++ post) in *.
    apply evaluateMacros_builtin_only.
    + exact Hk.
    + exact Hm.
    + exact Hpre.
    + rewrite !lacks_app, Harg, Hpost. reflexivity.
    + exact Hpre'.
    + rewrite !lacks_app, Harg', Hpost'. reflexivity.
    + unfold early_passes_unmatched. repeat constructor; intros; reflexivity.
    + exact Hb.
    + rewrite !lacks_app, Hpre, Hv, Hpost. reflexivity.
  - intros Hbmp. rewrite code_points_no_pair by assumption.
    apply concat_rev_singletons.
Qed.

Lemma reverse_macro_reverses_witness :
  fst (evaluateMacros Sample.collaborators
         (js "-" ++ js "{{reverse:" ++ js "abc" ++ js "}}" ++ js "-") []
         bracket_escape Sample.world) =
  js "-" ++ js "[cba]" ++ js "-".
Proof.
  apply (proj1 (reverse_macro_reverses Sample.collaborators (js "-") (js "abc") (js "-")
                  bracket_escape Sample.world (sample_passes_keep _)
                  eq_refl eq_refl eq_refl eq_refl eq_refl ltac:(discriminate)
                  eq_refl eq_refl eq_refl eq_refl eq_refl)).
Defined.

(** X25.  [{{datetimeformat format}}] evaluates to the escaped date of
    the clock in the format that follows the blanks after the name: the
    blanks, one at least, are all passed over, so that the format does not
    begin with one, and the format runs to the first closing brace.  Here
    the format has no opening brace, the text around the macro no opening
    brace, neither has a [<], the escaped result has no opening brace,
    [env] is empty and no macro is registered, and the passes of the other
    modules leave the text as it is. *)
Theorem datetimeformat_macro_formats (C : Collaborators) (pre format post : JsString)
  (n : nat) (varEscape : EscapeFn) (w : World) :
  passes_keep C
    (pre ++ js "{{datetimeformat" ++ repeat 32%N (S n) ++ format ++ js "}}" ++ post) ->
  macros w = [] ->
  lacks 123%N pre = true -> lacks 123%N post = true ->
  lacks 60%N pre = true -> lacks 60%N post = true ->
  match format with [] => True | x :: _ => x <> 32%N end ->
  forallb not_rbrace format = true ->
  lacks 123%N format = true -> lacks 60%N format = true ->
  lacks 123%N (js_String (esc_call varEscape (VString (moment_format C format)))) = true ->
  fst (evaluateMacros C
         (pre ++ js "{{datetimeformat" ++ repeat 32%N (S n) ++ format ++ js "}}" ++ post)
         [] varEscape w) =
  pre ++ js_String (esc_call varEscape (VString (moment_format C format))) ++ post.
Proof.
  intros Hk Hm Hpre Hpost Hpre' Hpost' Hstart Hclose Hformat Hformat' Hv.
  pose proof (builtinSubstitutions_datetimeformat C pre post varEscape (tick w) Hpre Hpost
                n format Hstart Hclose Hformat Hv) as Hb.
  change (js "{{datetimeformat" ++ repeat 32%N (S n) ++ format ++ js "}}" ++ post)
    with (123%N :: 123%N :: js "datetimeformat" ++ repeat 32%N (S n) ++ format
            ++ js "}}" ++ post) in *.
  apply evaluateMacros_builtin_only.
  - exact Hk.
  - exact Hm.
  - exact Hpre.
  - rewrite !lacks_app, Hformat, Hpost, lacks_repeat by reflexivity. reflexivity.
  - exact Hpre'.
  - rewrite !lacks_app, Hformat', Hpost', lacks_repeat by reflexivity. reflexivity.
  - unfold early_passes_unmatched. repeat constructor; intros; reflexivity.
  - exact Hb.
  - rewrite !lacks_app, Hpre, Hv, Hpost. reflexivity.
Qed.

Lemma datetimeformat_macro_formats_witness :
  fst (evaluateMacros Sample.collaborators
         (js "On " ++ js "{{datetimeformat" ++ repeat 32%N 2 ++ js "DD.MM." ++ js "}}"
            ++ js "!") [] bracket_escape Sample.world) =
  js "On " ++
  js_String (esc_call bracket_escape
               (VString (moment_format Sample.collaborators (js "DD.MM.")))) ++ js "!".
Proof.
  apply (datetimeformat_macro_formats Sample.collaborators (js "On ") (js "DD.MM.")
           (js "!") 1 bracket_escape Sample.world).
  - apply sample_passes_keep.
  - reflexivity.
  - reflexivity.
  - reflexivity.
  - reflexivity.
  - reflexivity.
  - discriminate.
  - reflexivity.
  - reflexivity.
  - reflexivity.
  - reflexivity.
Defined.

(** X26.  [{{time_UTC+h}}] and [{{time_UTC-h}}] evaluate to the escaped
    time of the clock at the offset from UTC that the sign and the digits
    denote: the number of the digits, negated after a minus sign.  Here
    the number of the digits is at most [2^53], up to which [parseInt]
    returns the very number and not the nearest one that a double holds,
    the text around the macro has neither an opening brace nor a [<], the
    escaped result has no opening brace, [env] is empty and no macro is
    registered, and the passes of the other modules leave the text as it
    is. *)
Theorem time_UTC_macro_offsets (C : Collaborators) (pre digits post : JsString)
  (sign : code_unit) (varEscape : EscapeFn) (w : World) :
  passes_keep C (pre ++ js "{{time_UTC" ++ sign :: digits ++ js "}}" ++ post) ->
  macros w = [] ->
  lacks 123%N pre = true -> lacks 123%N post = true ->
  lacks 60%N pre = true -> lacks 60%N post = true ->
  sign = 45%N \/ sign = 43%N ->
  digits <> [] -> forallb is_digit digits = true ->
  (Z.of_N (digits_value digits) <= 2 ^ 53)%Z ->
  let utcOffset :=
    Int (if (sign =? 45)%N then - Z.of_N (digits_value digits)
         else Z.of_N (digits_value digits)) in
  lacks 123%N
    (js_String (esc_call varEscape (VString (moment_utcOffset_LT C utcOffset)))) = true ->
  fst (evaluateMacros C (pre ++ js "{{time_UTC" ++ sign :: digits ++ js "}}" ++ post) []
         varEscape w) =
  pre ++ js_String (esc_call varEscape (VString (moment_utcOffset_LT C utcOffset)))
      ++ post.
Proof.
  intros Hk Hm Hpre Hpost Hpre' Hpost' Hsign Hne Hdigits _ utcOffset Hv.
  subst utcOffset. rewrite <- (parseInt10_signed sign digits Hsign Hne Hdigits) in *.
  pose proof (builtinSubstitutions_time_UTC C pre post varEscape (tick w) Hpre Hpost
                sign digits Hsign Hne Hdigits Hv) as Hb.
  assert (Hd : lacks 123%N digits = true) by now apply digits_lack_brace.
  assert (Hd' : lacks 60%N digits = true).
  { clear - Hdigits. induction digits as [ | c s IH ]; [ reflexivity | ].
    cbn [forallb] in Hdigits. apply andb_prop in Hdigits as [Hc Hs].
    cbn [lacks forallb]. fold (lacks 60%N s). rewrite (IH Hs), andb_true_r.
    unfold is_digit in Hc. apply andb_prop in Hc as [_ Hc]. apply N.leb_le in Hc.
    apply negb_true_iff. apply N.eqb_neq. lia. }
  change (js "{{time_UTC" ++ sign :: digits ++ js "}}" ++ post)
    with (123%N :: 123%N :: js "time_UTC" ++ sign :: digits ++ js "}}" ++ post) in *.
  apply evaluateMacros_builtin_only.
  - exact Hk.
  - exact Hm.
  - exact Hpre.
  - rewrite lacks_app.
    change (lacks 123%N (sign :: digits ++ js "}}" ++ post))
      with (negb (sign =? 123)%N && lacks 123%N (digits ++ js "}}" ++ post)).
    rewrite !lacks_app, Hd, Hpost. destruct Hsign; subst sign; reflexivity.
  - exact Hpre'.
  - rewrite lacks_app.
    change (lacks 60%N (sign :: digits ++ js "}}" ++ post))
      with (negb (sign =? 60)%N && lacks 60%N (digits ++ js "}}" ++ post)).
    rewrite !lacks_app, Hd', Hpost'. destruct Hsign; subst sign; reflexivity.
  - unfold early_passes_unmatched. repeat constructor; intros; reflexivity.
  - exact Hb.
  - rewrite !lacks_app, Hpre, Hv, Hpost. reflexivity.
Qed.

Lemma time_UTC_macro_offsets_witness :
  fst (evaluateMacros Sample.collaborators
         (js "It is " ++ js "{{time_UTC" ++ 45%N :: js "3" ++ js "}}" ++ js ".") []
         bracket_escape Sample.world) =
  js "It is " ++
  js_String (esc_call bracket_escape
               (VString (moment_utcOffset_LT Sample.collaborators (Int (-3))))) ++ js ".".
Proof.
  apply (time_UTC_macro_offsets Sample.collaborators (js "It is ") (js "3") (js ".")
           45%N bracket_escape Sample.world).
  - apply sample_passes_keep.
  - reflexivity.
  - reflexivity.
  - reflexivity.
  - reflexivity.
  - reflexivity.
  - left. reflexivity.
  - discriminate.
  - reflexivity.
  - vm_compute. discriminate.
  - reflexivity.
Defined.

(* ================================================================== *)
(** * The variables of the caller come first *)

(** The dice pass and the simple substitutions on a text whose only macro
    is none of theirs. *)
Lemma early_passes_keep (C : Collaborators) (pre rest : JsString)
  (varEscape : EscapeFn) (w : World) :
  lacks 123%N pre = true -> lacks 123%N rest = true ->
  early_passes_unmatched (unicode_upper C) rest ->
  diceRollReplace C (pre ++ 123%N :: 123%N :: rest) (escape_as_value varEscape)
    identity_escape w = (pre ++ 123%N :: 123%N :: rest, w) /\
  simpleSubstitutions C (pre ++ 123%N :: 123%N :: rest) varEscape w =
  pre ++ 123%N :: 123%N :: rest.
Proof.
  intros Hpre Hrest Hearly. unfold early_passes_unmatched in Hearly.
  destruct (Forall_inv Hearly) as [Ha1 Ha2].
  apply Forall_inv_tail in Hearly. destruct (Forall_inv Hearly) as [Hb1 Hb2].
  apply Forall_inv_tail in Hearly. destruct (Forall_inv Hearly) as [Hc1 Hc2].
  apply Forall_inv_tail in Hearly. destruct (Forall_inv Hearly) as [Hd1 Hd2].
  apply Forall_inv_tail in Hearly. destruct (Forall_inv Hearly) as [He1 He2].
  clear Hearly. split.
  - unfold diceRollReplace. apply replace_st_never.
    apply never_matches_braces; [ reflexivity | assumption .. ].
  - unfold simpleSubstitutions. cbv zeta.
    rewrite (@replace_val_never (unicode_upper C) true (RLit (js "{{newline}}")) _
               (pre ++ 123%N :: 123%N :: rest))
      by (apply never_matches_braces; [ reflexivity | assumption .. ]).
    rewrite (@replace_str_never (unicode_upper C) true _ []
               (pre ++ 123%N :: 123%N :: rest))
      by (apply never_matches_seq, never_matches_braces;
          [ reflexivity | assumption .. ]).
    rewrite (@replace_str_never (unicode_upper C) true (RLit (js "{{noop}}")) _
               (pre ++ 123%N :: 123%N :: rest))
      by (apply never_matches_braces; [ reflexivity | assumption .. ]).
    apply replace_fn_never.
    apply never_matches_braces; [ reflexivity | assumption .. ].
Qed.

(** X27.  An entry of [env] takes precedence over the read-only macro of
    its name: the loop over [env] comes before the passes of the built-in
    macros, so that with an entry named as one of the read-only macros the
    macro evaluates to the escaped, sanitized value of the entry, a
    function being called with the nonce of the evaluation, and not to
    the value of the page or of the clock.  Here the text around the macro
    has neither an opening brace nor a [<], the escaped value has no
    opening brace, no macro is registered, and the passes of the other
    modules leave the text as it is. *)
Theorem env_entry_overrides_readonly_macro (C : Collaborators)
  (pre name post : JsString) (builtin value : JsVal) (varEscape : EscapeFn)
  (w : World) :
  In (name, builtin) (readonly_macros C w) ->
  passes_keep C (pre ++ js "{{" ++ name ++ js "}}" ++ post) ->
  macros w = [] ->
  lacks 123%N pre = true -> lacks 123%N post = true ->
  lacks 60%N pre = true -> lacks 60%N post = true ->
  let text :=
    js_String
      (esc_call varEscape
         (VString (sanitizeMacroValue
                     (match value with
                      | VFunction _ call => call (Some (uuidv4 C (ticks w)))
                      | _ => value
                      end)))) in
  lacks 123%N text = true ->
  fst (evaluateMacros C (pre ++ js "{{" ++ name ++ js "}}" ++ post) [(name, value)]
         varEscape w) = pre ++ text ++ post.
Proof.
  intros Hin Hk Hm Hpre Hpost Hpre' Hpost' text Htext.
  destruct (readonly_names_plain C w name post builtin Hin) as [Hname [Hname' Hearly]].
  assert (HR : lacks 123%N (name ++ js "}}" ++ post) = true)
    by (rewrite !lacks_app, Hname, Hpost; reflexivity).
  destruct (early_passes_keep C pre (name ++ js "}}" ++ post) varEscape w Hpre HR Hearly)
    as [Hdice Hsimple].
  assert (Hall : lacks 123%N (pre ++ text ++ post) = true)
    by (rewrite !lacks_app, Hpre, Htext, Hpost; reflexivity).
  set (T := pre ++ js "{{" ++ name ++ js "}}" ++ post) in *.
  apply (@evaluateMacros_stages_lacks C T T T T T T (pre ++ text ++ post)
           (pre ++ text ++ post) [(name, value)] varEscape w w).
  - unfold T. destruct pre; discriminate.
  - apply legacySubstitutions_lacks. unfold T.
    rewrite !lacks_app, Hpre', Hname', Hpost'. reflexivity.
  - unfold T. apply includes_app. change (js "{{") with [123%N; 123%N].
    cbn [app startsWith]. rewrite !N.eqb_refl.
    now destruct (name ++ js "}}" ++ post).
  - exact Hdice.
  - exact (proj1 (Hk [(name, value)] varEscape w)).
  - exact (proj2 (Hk [(name, value)] varEscape w)).
  - exact Hsimple.
  - rewrite populateEnv_empty by assumption. unfold substituteEnv.
    assert (Hkeys : for_in_keys [(name, value)] = [name]).
    { unfold for_in_keys. cbn [flat_map fst app]. now destruct (array_index name). }
    rewrite Hkeys. cbn [fold_left]. unfold T.
    rewrite (readonly_pass_same C pre post Hpre Hpost _ name
               (js "{{" ++ name ++ js "}}") eq_refl).
    cbn [entries_get]. rewrite str_eqb_refl. reflexivity.
  - now apply builtinSubstitutions_lacks.
  - exact Hall.
Qed.

Lemma env_entry_overrides_readonly_macro_witness :
  fst (evaluateMacros Sample.collaborators
         (js "Last: " ++ js "{{" ++ js "lastMessage" ++ js "}}" ++ js ".")
         [(js "lastMessage", VString (js "mine"))] bracket_escape Sample.world) =
  js "Last: " ++ js "[mine]" ++ js ".".
Proof.
  apply (env_entry_overrides_readonly_macro Sample.collaborators (js "Last: ")
           (js "lastMessage") (js ".") (getLastMessage Sample.world)
           (VString (js "mine")) bracket_escape Sample.world).
  - right. left. reflexivity.
  - apply sample_passes_keep.
  - reflexivity.
  - reflexivity.
  - reflexivity.
  - reflexivity.
  - reflexivity.
  - reflexivity.
Defined.

(* ================================================================== *)
(** * Registered macros and the environment of the caller *)


Section BracePositions.

Variable upper : code_unit -> code_unit.
Variable ignoreCase : bool.



End BracePositions.


(** ** The keys that the loop visits *)





Section EnvLoop.

Variable C : Collaborators.
Variable value_text : JsString -> JsString.



End EnvLoop.





